(** * Streaming executors of pyquokka: a shallow embedding

    The executors of [pyquokka/executors.py] are per-channel stateful
    operators.  Each one is embedded as a state record together with an
    [execute] and a [done] function that thread the state explicitly; a
    Python exception is a value of [Result].  Tables are lists of rows,
    [None] entries of a batch list are [None] of an option.

    The first part holds the embedding, executor by executor, each
    followed by the readings of the specification that are tested
    against it; the second part holds the properties. *)

From stdpp Require Import base list gmap sorting strings pretty.
From Stdlib Require Import ZArith Lia.

Local Open Scope Z_scope.

(** ** Python exceptions and results *)

Inductive PyExn : Type :=
| AttributeError    (* attribute access on [None] or a missing attribute *)
| TypeError         (* [len(None)], a [None] handed to a table function *)
| ValueError        (* [range] with step 0, concatenation of no table *)
| AssertionError    (* a failed [assert] *)
| IndexError        (* a position outside a column *)
| KeyError          (* a dictionary without the key *)
| FileNotFoundError
| ZeroDivisionError
| NotImplementedError
| UnboundLocalError (* a local variable read before any assignment *)
| BinderException   (* the SQL evaluator: unknown column *)
| PlainException    (* [raise Exception] *)
| OutOfFuel.        (* never produced by the source; see the fuel lemmas *)

Inductive Result (A : Type) : Type :=
| Ok (a : A)
| Raise (e : PyExn).
Arguments Ok {A} a.
Arguments Raise {A} e.

Global Instance result_ret : MRet Result := λ A a, Ok a.
Global Instance result_bind : MBind Result := λ A B k m,
  match m with
  | Ok a => k a
  | Raise e => Raise e
  end.

(** [assert b] *)
Definition passert (b : bool) : Result unit :=
  if b then Ok tt else Raise AssertionError.

(** ** Batch lists

    An upstream stage hands an executor a Python list whose entries are
    tables or [None]. *)

Section BatchLists.
Context {R : Type}.

(** [[i for i in batches if i is not None and len(i) > 0]] *)
Fixpoint live (batches : list (option (list R))) : list (list R) :=
  match batches with
  | [] => []
  | None :: rest => live rest
  | Some [] :: rest => live rest
  | Some b :: rest => b :: live rest
  end.

(** [[i for i in batches if i is not None]] *)
Fixpoint not_none (batches : list (option (list R))) : list (list R) :=
  match batches with
  | [] => []
  | None :: rest => not_none rest
  | Some b :: rest => b :: not_none rest
  end.

(** [pa.concat_tables(tables)]: every entry has to be a table (a [None]
    entry is refused when it is converted), and there has to be at least
    one. *)
Fixpoint all_tables (batches : list (option (list R))) : Result (list (list R)) :=
  match batches with
  | [] => Ok []
  | None :: _ => Raise TypeError
  | Some b :: rest => bs ← all_tables rest ; Ok (b :: bs)
  end.

Definition concat_tables (tables : list (list R)) : Result (list R) :=
  match tables with
  | [] => Raise ValueError
  | _ => Ok (concat tables)
  end.

Definition pa_concat_tables (batches : list (option (list R))) : Result (list R) :=
  ts ← all_tables batches ; concat_tables ts.

(** [sum(len(batch) for batch in batches)] *)
Fixpoint sum_len (batches : list (option (list R))) : Result nat :=
  match batches with
  | [] => Ok 0%nat
  | None :: _ => Raise TypeError
  | Some b :: rest => n ← sum_len rest ; Ok (length b + n)%nat
  end.

(** The entries a caller would have to strip for the list to hold only
    tables with rows. *)
Definition strip (batches : list (option (list R))) : list (option (list R)) :=
  Some <$> live batches.

End BatchLists.

(** ** BuildProbeJoinExecutor

    Stream 0 is the probe side, stream 1 the build side.  Rows carry the
    join column and one payload column. *)

Module BuildProbe.

Record Row := { key : Z; val : Z }.

Inductive How := how_inner | how_left | how_semi | how_anti.
Inductive Phase := phase_build | phase_probe.

Global Instance How_eq_dec : EqDecision How.
Proof. solve_decision. Defined.
Global Instance Phase_eq_dec : EqDecision Phase.
Proof. solve_decision. Defined.

(** The constructor arguments, after [__init__] resolved [on]. *)
Record Config := {
  left_on : string;
  right_on : string;
  how : How;
  key_to_keep : string
}.

Record State := {
  state : option (list Row);
  phase : Phase;
  things_seen : list (Z * nat)
}.

Definition init : State :=
  {| state := None; phase := phase_build; things_seen := [] |}.

(** What [execute] hands back: the probe rows alone ([semi], [anti] and
    the early anti return) or probe rows with the build columns. *)
Inductive Body :=
| ProbeRows (rows : list Row)
| JoinedRows (rows : list (Row * option Row)).

Record Frame := { key_name : string; body : Body }.

Definition key_le (a b : Row) : Prop := key a ≤ key b.
Global Instance key_le_dec a b : Decision (key_le a b).
Proof. unfold key_le. apply _. Defined.

(** [DataFrame.sort(right_on)] *)
Definition sort (t : list Row) : list Row := merge_sort key_le t.

Definition matches (l : Row) (right : list Row) : list Row :=
  filter (λ r, key r = key l) right.

(** [batch.join(state, left_on, right_on, how)] *)
Definition join (batch st : list Row) (h : How) : Body :=
  match h with
  | how_inner =>
      JoinedRows (l ← batch; (λ r, (l, Some r)) <$> matches l st)
  | how_left =>
      JoinedRows (l ← batch;
                  match matches l st with
                  | [] => [(l, None)]
                  | ms => (λ r, (l, Some r)) <$> ms
                  end)
  | how_semi => ProbeRows (filter (λ l, matches l st ≠ []) batch)
  | how_anti => ProbeRows (filter (λ l, matches l st = []) batch)
  end.

Definition saw (st : State) (stream_id : Z) (n : nat) : State :=
  {| state := state st; phase := phase st;
     things_seen := things_seen st ++ [(stream_id, n)] |}.

Definition execute (cfg : Config) (st : State)
    (batches : list (option (list Row))) (stream_id : Z)
  : Result (option Frame * State) :=
  let batches := live batches in
  if decide (length batches = 0%nat) then Ok (None, st) else
  let batch := concat batches in
  let st := saw st stream_id (length batches) in
  if decide (stream_id = 1) then
    _ ← passert (bool_decide (phase st = phase_build));
    Ok (None,
        {| state := Some (match state st with
                          | None => batch
                          | Some s => s ++ batch
                          end);
           phase := phase st; things_seen := things_seen st |})
  else if decide (stream_id = 0) then
    match state st with
    | None =>
        if decide (how cfg = how_anti)
        then Ok (Some {| key_name := left_on cfg; body := ProbeRows batch |}, st)
        else Ok (None, st)
    | Some s =>
        let s := match phase st with
                 | phase_build => sort s
                 | phase_probe => s
                 end in
        let result := join batch s (how cfg) in
        let name := if decide (key_to_keep cfg = "right")
                    then right_on cfg else left_on cfg in
        Ok (Some {| key_name := name; body := result |},
            {| state := Some s; phase := phase_probe;
               things_seen := things_seen st |})
    end
  else Ok (None, st).

Definition Call : Type := list (option (list Row)) * Z.

(** A channel's history: the calls in order, stopped by the first
    exception. *)
Fixpoint run (cfg : Config) (st : State) (calls : list Call) : Result State :=
  match calls with
  | [] => Ok st
  | (batches, stream_id) :: rest =>
      '(_, st') ← execute cfg st batches stream_id; run cfg st' rest
  end.

(** Some earlier call was a probe call with rows, made when build rows
    were already held. *)
Definition probed_with_build (cfg : Config) (calls : list Call) : Prop :=
  ∃ pre batches post st_pre,
    calls = pre ++ (batches, 0) :: post ∧
    run cfg init pre = Ok st_pre ∧
    state st_pre ≠ None ∧ live batches ≠ [].

End BuildProbe.

(** ** CountExecutor, SQLAggExecutor and ConcatThenSQLExecutor

    The two SQL executors hand the accumulated table to the embedded SQL
    evaluator; the evaluator is a parameter of [done]. *)

Module Count.

Record State := { state : nat }.

Definition init : State := {| state := 0 |}.

Definition execute {R} (st : State) (batches : list (option (list R)))
  : Result (option (list nat) * State) :=
  n ← sum_len batches;
  Ok (None, {| state := state st + n |}).

(** [polars.DataFrame([self.state])]: one row holding the counter. *)
Definition done (st : State) : Result (option (list nat)) :=
  Ok (Some [state st]).

End Count.

Module SQLAgg.

Section WithRows.
Context {R Out : Type}.

Record State := { state : option (list R) }.

Definition init : State := {| state := None |}.

Definition execute (st : State) (batches : list (option (list R)))
  : Result (option (list Out) * State) :=
  batch ← pa_concat_tables batches;
  Ok (None, {| state := Some (match state st with
                              | None => batch
                              | Some s => s ++ batch
                              end) |}).

Definition done (sql : list R → list Out) (st : State)
  : Result (option (list Out)) :=
  match state st with
  | None => Ok None
  | Some batch_arrow => Ok (Some (sql batch_arrow))
  end.

End WithRows.
Arguments State : clear implicits.

End SQLAgg.

(** ** SortedAsofExecutor

    Stream 0 carries the primary (trade) rows, any other stream the
    secondary (quote) rows.  A row has its time column, its symbol column
    and one payload column. *)

Module SortedAsof.

Record Row := { time : Z; symbol : Z; val : Z }.

Global Instance Row_eq_dec : EqDecision Row.
Proof. solve_decision. Defined.

Record State := {
  trade_state : option (list Row);
  quote_state : option (list Row)
}.

Definition init : State := {| trade_state := None; quote_state := None |}.

(** [t[col][-1]] and [t[col][0]]; a table with no row has neither. *)
Definition last_time (t : list Row) : Result Z :=
  match last t with
  | Some r => Ok (time r)
  | None => Raise IndexError
  end.

Definition first_time (t : list Row) : Result Z :=
  match t with
  | r :: _ => Ok (time r)
  | [] => Raise IndexError
  end.

(** The buffering of one side: the first batch becomes the buffer, a
    later one is appended after the order check against the last
    buffered row. *)
Definition buffer (side : option (list Row)) (batch : list Row)
  : Result (list Row) :=
  match side with
  | None => Ok batch
  | Some s =>
      _ ← (if decide (0 < length s)%nat
           then l ← last_time s; f ← first_time batch; passert (bool_decide (l ≤ f))
           else Ok ());
      Ok (s ++ batch)
  end.

(** Lines 638-654: the batch joins its side's buffer. *)
Definition absorb (st : State) (batches : list (option (list Row)))
    (stream_id : Z) : Result State :=
  batch ← pa_concat_tables batches;
  if decide (stream_id = 0) then
    ts ← buffer (trade_state st) batch;
    Ok {| trade_state := Some ts; quote_state := quote_state st |}
  else
    qs ← buffer (quote_state st) batch;
    Ok {| trade_state := trade_state st; quote_state := Some qs |}.

(** [left.join_asof(right, by = symbol)], default (backward) strategy:
    the last right row of the same symbol at or before the left row's
    time.  Both tables are read in buffer order, which the executor
    keeps non-decreasing in time. *)
Definition asof_backward (l : Row) (right : list Row) : option Row :=
  last (filter (λ r, symbol r = symbol l ∧ time r ≤ time l) right).

(** [strategy = "forward"]: the first right row of the same symbol at or
    after the left row's time. *)
Definition asof_forward (l : Row) (right : list Row) : option Row :=
  head (filter (λ r, symbol r = symbol l ∧ time l ≤ time r) right).

Definition join_asof (strategy : Row → list Row → option Row)
    (left right : list Row) : list (Row * option Row) :=
  (λ l, (l, strategy l right)) <$> left.

(** [drop_nulls()] on a join result: the rows that found a partner. *)
Definition drop_nulls (t : list (Row * option Row)) : list (Row * option Row) :=
  filter (λ p, is_Some p.2) t.

(** [groupby(symbol).agg([polars.max(time)])] as a dictionary from
    symbol to the greatest time. *)
Definition latest_by_symbol (t : list Row) : gmap Z Z :=
  foldr (λ r m, <[symbol r := match m !! symbol r with
                              | Some x => Z.max (time r) x
                              | None => time r
                              end]> m) ∅ t.

(** The left join against that dictionary, [fill_null(-1)], the filter
    on the joined column and its drop. *)
Definition prune (quotes : list Row) (latest : gmap Z Z) : list Row :=
  filter (λ q, default (-1) (latest !! symbol q) ≤ time q) quotes.

(** Lines 656-680, on the buffers [absorb] left. *)
Definition emit (st : State)
  : Result (option (list (Row * option Row)) * State) :=
  match trade_state st, quote_state st with
  | Some trades, Some quotes =>
      if decide (length trades = 0%nat ∨ length quotes = 0%nat)
      then Ok (None, st) else
      w ← last_time quotes;
      let joinable_trades := filter (λ r, time r < w) trades in
      if decide (length joinable_trades = 0%nat) then Ok (None, st) else
      j ← last_time joinable_trades;
      let joinable_quotes := filter (λ r, time r ≤ j) quotes in
      if decide (length joinable_quotes = 0%nat) then Ok (None, st) else
      let trades' := filter (λ r, w ≤ time r) trades in
      let result := join_asof asof_backward joinable_trades joinable_quotes in
      let mock_result :=
        drop_nulls (join_asof asof_forward joinable_quotes joinable_trades) in
      let latest_joined_quotes := latest_by_symbol (fst <$> mock_result) in
      Ok (Some result,
          {| trade_state := Some trades';
             quote_state := Some (prune quotes latest_joined_quotes) |})
  | _, _ => Ok (None, st)
  end.

Definition execute (st : State) (batches : list (option (list Row)))
    (stream_id : Z) : Result (option (list (Row * option Row)) * State) :=
  st1 ← absorb st batches stream_id; emit st1.

(** [self.trade_state.join_asof(self.quote_state, ...)] *)
Definition done (st : State) : Result (option (list (Row * option Row))) :=
  match trade_state st with
  | None => Raise AttributeError
  | Some trades =>
      match quote_state st with
      | None => Raise TypeError
      | Some quotes => Ok (Some (join_asof asof_backward trades quotes))
      end
  end.

End SortedAsof.

(** ** The specification's readings that the code is tested against *)

Module AsofSpec.
Import SortedAsof.

(** "Exactly the primary rows at or before the watermark are joinable,
    are joined, and are dropped from the primary buffer", for a call
    that leaves both buffers with rows. *)
Definition joinable_at_or_before_watermark : Prop :=
  ∀ st batches stream_id st1 trades quotes w,
    absorb st batches stream_id = Ok st1 →
    trade_state st1 = Some trades → quote_state st1 = Some quotes →
    trades ≠ [] → quotes ≠ [] → last_time quotes = Ok w →
    ∃ result quotes',
      execute st batches stream_id =
        Ok (Some result,
            {| trade_state := Some (filter (λ t, w < time t) trades);
               quote_state := Some quotes' |}) ∧
      result.*1 = filter (λ t, time t ≤ w) trades.

(** "After any call the secondary buffer never contains a row older than
    the oldest primary row still in state." *)
Definition no_quote_older_than_buffered_trade : Prop :=
  ∀ st batches stream_id result st' trades quotes,
    execute st batches stream_id = Ok (result, st') →
    trade_state st' = Some trades → quote_state st' = Some quotes →
    ∀ q t, q ∈ quotes → t ∈ trades → time t ≤ time q.

End AsofSpec.

(** ** OutputExecutor

    Durable storage is the log of the files written so far, in order,
    each with its path and its rows. *)

Module Output.

Inductive Format := csv | parquet.

Definition format_str (f : Format) : string :=
  match f with
  | csv => "csv"
  | parquet => "parquet"
  end.

Record Config := {
  filepath : string;
  format : Format;
  prefix : string;
  row_group_size : nat
}.

Section WithRows.
Context {R : Type}.

Record State := {
  my_batches : list (list R);
  name : nat;
  storage : list (string * list R)
}.

Definition init : State := {| my_batches := []; name := 0; storage := [] |}.

(** [filepath/prefix-executor_id-name.format] *)
Definition basename_template (cfg : Config) (executor_id : Z) (n : nat) : string :=
  filepath cfg +:+ "/" +:+ prefix cfg +:+ "-" +:+ pretty executor_id +:+ "-" +:+
  pretty n +:+ "." +:+ format_str (format cfg).

(** The entry [i] of a returned manifest, built from [self.name] as it
    stands when the manifest is built. *)
Definition manifest_entry (cfg : Config) (executor_id : Z) (n i : nat) : string :=
  prefix cfg +:+ "-" +:+ pretty executor_id +:+ "-" +:+ pretty n +:+ "-" +:+
  pretty i +:+ "." +:+ format_str (format cfg).

(** The loop of [upload_write_batch] over [range(0, len(write_batch),
    row_group_size)], from position [i] on. *)
Fixpoint upload_from (fuel : nat) (cfg : Config) (executor_id : Z)
    (write_batch : list R) (i : nat) (st : State) : State :=
  match fuel with
  | O => st
  | S fuel' =>
      if decide (i < length write_batch)%nat then
        let current_batch := take (row_group_size cfg) (drop i write_batch) in
        upload_from fuel' cfg executor_id write_batch (i + row_group_size cfg)
          {| my_batches := my_batches st;
             name := S (name st);
             storage := storage st ++
                          [(basename_template cfg executor_id (name st),
                            current_batch)] |}
      else st
  end.

Definition upload_write_batch (cfg : Config) (executor_id : Z)
    (write_batch : list R) (st : State) : Result State :=
  if decide (row_group_size cfg = 0%nat) then Raise ValueError
  else Ok (upload_from (length write_batch) cfg executor_id write_batch 0 st).

(** [np.cumsum(lengths)] *)
Fixpoint cumsum_from (acc : nat) (l : list nat) : list nat :=
  match l with
  | [] => []
  | x :: rest => (acc + x)%nat :: cumsum_from (acc + x) rest
  end.

(** [np.where(np.cumsum(lengths) >= write_len)[0][0]] *)
Definition first_reaching (lengths : list nat) (write_len : nat) : Result nat :=
  match list_find (λ c, write_len ≤ c)%nat (cumsum_from 0 lengths) with
  | Some (i, _) => Ok i
  | None => Raise IndexError
  end.

Definition execute (cfg : Config) (st : State)
    (batches : list (option (list R))) (executor_id : Z)
  : Result (option (list string) * State) :=
  let rgs := row_group_size cfg in
  let my := my_batches st ++ live batches in
  let st := {| my_batches := my; name := name st; storage := storage st |} in
  let lengths := length <$> my in
  let total_len := sum_list lengths in
  if decide (total_len ≤ rgs)%nat then Ok (None, st) else
  let write_len := (total_len / rgs * rgs)%nat in
  full_batches_to_take ← first_reaching lengths write_len;
  let write_batch :=
    if decide (0 < full_batches_to_take)%nat
    then Some (concat (take full_batches_to_take my)) else None in
  let rows_to_take :=
    (write_len - sum_list (take full_batches_to_take lengths))%nat in
  let my := drop full_batches_to_take my in
  '(write_batch, my) ←
    (if decide (0 < rows_to_take)%nat then
       match my with
       | [] => Raise IndexError
       | b0 :: rest =>
           Ok (Some (default [] write_batch ++ take rows_to_take b0),
               drop rows_to_take b0 :: rest)
       end
     else Ok (write_batch, my));
  write_batch ← (match write_batch with
                 | Some wb => Ok wb
                 | None => Raise TypeError
                 end);
  _ ← passert (bool_decide (length write_batch `mod` rgs = 0)%nat);
  st ← upload_write_batch cfg executor_id write_batch
         {| my_batches := my; name := name st; storage := storage st |};
  Ok (Some ((λ i, manifest_entry cfg executor_id (name st) i) <$>
              seq 0 (length write_batch / rgs)),
      st).

Definition done (cfg : Config) (st : State) (executor_id : Z)
  : Result (option (list string) * State) :=
  df ← concat_tables (my_batches st);
  st ← upload_write_batch cfg executor_id df st;
  Ok (Some ((λ i, manifest_entry cfg executor_id (name st) i) <$>
              seq 0 (Z.to_nat ((Z.of_nat (length df) - 1) `div`
                                 Z.of_nat (row_group_size cfg) + 1))),
      st).

(** The [execute] calls of a channel, in order. *)
Fixpoint run (cfg : Config) (st : State)
    (calls : list (list (option (list R)))) (executor_id : Z) : Result State :=
  match calls with
  | [] => Ok st
  | batches :: rest =>
      '(_, st') ← execute cfg st batches executor_id;
      run cfg st' rest executor_id
  end.

(** The rows a run delivers. *)
Definition delivered (calls : list (list (option (list R)))) : list R :=
  concat (concat (live <$> calls)).

End WithRows.
Arguments State : clear implicits.

End Output.

Module OutputSpec.
Import Output.

(** "The execute calls write floor(N/R) full files; done writes one final
    file of N mod R rows, and none when N mod R is 0." *)
Definition row_group_accounting (R : Type) : Prop :=
  ∀ cfg (calls : list (list (option (list R)))) eid st manifest st',
    (0 < row_group_size cfg)%nat →
    run cfg init calls eid = Ok st →
    done cfg st eid = Ok (manifest, st') →
    let n := length (delivered calls) in
    let rgs := row_group_size cfg in
    Forall (λ f, length f.2 = rgs) (storage st) ∧
    length (storage st) = (n / rgs)%nat ∧
    ∃ final, storage st' = storage st ++ final ∧
      if decide (n `mod` rgs = 0)%nat then final = []
      else ∃ path rows, final = [(path, rows)] ∧
                        length rows = (n `mod` rgs)%nat.

End OutputSpec.

(** ** SuperFastSortExecutor

    The producer ([execute]) sorts what a call delivers, writes it as one
    spill file and extends the in-memory index; the consumer ([done]) is
    a generator, embedded by what it yields until it stops or raises.
    The disk is a dictionary from path to the record batches of the file
    at that path. *)

Module SuperFastSort.

Record Row := { key : Z; val : Z }.

Global Instance Row_eq_dec : EqDecision Row.
Proof. solve_decision. Defined.

Record Config := {
  output_batch_rows : Z;
  prefix : string;
  data_dir : string
}.

Record State := {
  fileno : nat;
  in_mem_state : option (list (Z * nat));   (* columns [values], [file_no] *)
  disk : gmap string (list (list Row))
}.

(** A fresh executor on a disk [d]. *)
Definition init (d : gmap string (list (list Row))) : State :=
  {| fileno := 0; in_mem_state := None; disk := d |}.

Definition key_le (a b : Row) : Prop := key a ≤ key b.
Global Instance key_le_dec a b : Decision (key_le a b).
Proof. unfold key_le. apply _. Defined.

Definition values_le (a b : Z * nat) : Prop := a.1 ≤ b.1.
Global Instance values_le_dec a b : Decision (values_le a b).
Proof. unfold values_le. apply _. Defined.

(** [DataFrame.sort(self.key)] and [in_mem_state.sort("values")] *)
Definition sort (t : list Row) : list Row := merge_sort key_le t.
Definition sort_index (t : list (Z * nat)) : list (Z * nat) :=
  merge_sort values_le t.

(** [data_dir + prefix + "-" + str(executor_id) + "-" + str(i) + ".arrow"] *)
Definition flush_file_name (cfg : Config) (executor_id : Z) (i : nat) : string :=
  data_dir cfg +:+ prefix cfg +:+ "-" +:+ pretty executor_id +:+ "-" +:+
  pretty i +:+ ".arrow".

(** [Table.to_batches(max_chunksize)] *)
Fixpoint to_batches (fuel max_chunksize : nat) (t : list Row) : list (list Row) :=
  match fuel with
  | O => []
  | S fuel' =>
      match t with
      | [] => []
      | _ => take max_chunksize t ::
             to_batches fuel' max_chunksize (drop max_chunksize t)
      end
  end.

Definition max_chunksize : nat := N.to_nat 1000000.

Definition write_out_df_to_disk (target_filepath : string)
    (input_mem_table : list Row) (d : gmap string (list (list Row)))
  : gmap string (list (list Row)) :=
  <[target_filepath :=
      to_batches (length input_mem_table) max_chunksize input_mem_table]> d.

Definition execute (cfg : Config) (st : State)
    (batches : list (option (list Row))) (executor_id : Z)
  : Result (option (list Row) * State) :=
  let flush_file_name := flush_file_name cfg executor_id (fileno st) in
  let batches := live batches in
  if decide (length batches = 0%nat) then Ok (None, st) else
  let batch := concat batches in
  let sorted_batch := sort batch in
  let d := write_out_df_to_disk flush_file_name sorted_batch (disk st) in
  let new_in_mem_state :=
    zip (key <$> sorted_batch) (replicate (length batch) (fileno st)) in
  Ok (None,
      {| fileno := S (fileno st);
         in_mem_state := Some (match in_mem_state st with
                               | None => new_in_mem_state
                               | Some s => s ++ new_in_mem_state
                               end);
         disk := d |}).

(** The consumer's dictionaries. *)
Record Cursor := {
  cached_batches : gmap nat (list Row);
  current_number_for_source : gmap nat nat
}.

Definition getitem {V} (m : gmap nat V) (k : nat) : Result V :=
  match m !! k with
  | Some v => Ok v
  | None => Raise KeyError
  end.

(** [{i : pa.ipc.open_file(...) for i in range(num_sources)}] *)
Fixpoint open_sources (cfg : Config) (executor_id : Z)
    (d : gmap string (list (list Row))) (num_sources : nat)
  : Result (gmap nat (list (list Row))) :=
  match num_sources with
  | O => Ok ∅
  | S n =>
      sources ← open_sources cfg executor_id d n;
      match d !! flush_file_name cfg executor_id n with
      | Some file => Ok (<[n := file]> sources)
      | None => Raise FileNotFoundError
      end
  end.

(** [{i : sources[i].get_batch(0) for i in sources}] and [{i : 1 ...}] *)
Definition open_cursor (sources : gmap nat (list (list Row))) : Result Cursor :=
  if decide (map_Forall (λ _ file, file ≠ []) sources)
  then Ok {| cached_batches := (λ file, default [] (head file)) <$> sources;
             current_number_for_source := (λ _, 1%nat) <$> sources |}
  else Raise IndexError.

(** The [while] loop that refills one read-ahead buffer.  [fuel] bounds
    the number of refills by the number of batches of the file. *)
Fixpoint refill (fuel : nat) (source_batches : list (list Row))
    (desired_length : nat) (cached : list Row) (current : nat)
  : Result (list Row * nat) :=
  if decide (length cached < desired_length)%nat then
    if decide (current = length source_batches) then Raise PlainException
    else
      match fuel with
      | O => Raise OutOfFuel
      | S fuel' =>
          match source_batches !! current with
          | Some b =>
              refill fuel' source_batches desired_length (cached ++ b) (S current)
          | None => Raise IndexError
          end
      end
  else Ok (cached, current).

(** One turn of the loop over [file_requirements]. *)
Definition pull (sources : gmap nat (list (list Row))) (cur : Cursor)
    (source desired_length : nat) : Result (list Row * Cursor) :=
  cached ← getitem (cached_batches cur) source;
  current ← getitem (current_number_for_source cur) source;
  source_batches ← getitem sources source;
  '(cached, current) ←
    refill (length source_batches) source_batches desired_length cached current;
  Ok (take desired_length cached,
      {| cached_batches := <[source := drop desired_length cached]> (cached_batches cur);
         current_number_for_source :=
           <[source := current]> (current_number_for_source cur) |}).

Fixpoint pull_all (sources : gmap nat (list (list Row))) (cur : Cursor)
    (file_requirements : list (nat * nat))
  : Result (list (list Row) * Cursor) :=
  match file_requirements with
  | [] => Ok ([], cur)
  | (source, desired_length) :: rest =>
      '(b, cur) ← pull sources cur source desired_length;
      '(desired_batches, cur) ← pull_all sources cur rest;
      Ok (b :: desired_batches, cur)
  end.

(** [things_to_get.groupby("file_no").count()], one row per file in the
    slice; the order of the groups is one the library may choose. *)
Definition groupby_count (file_no : list nat) : list (nat * nat) :=
  (λ f, (f, length (filter (λ g, g = f) file_no))) <$> remove_dups file_no.

(** [polars.concat(frames)], which refuses an empty list. *)
Definition polars_concat (frames : list (list Row)) : Result (list Row) :=
  match frames with
  | [] => Raise ValueError
  | _ => Ok (concat frames)
  end.

(** The body of the [for] loop at position [k]: the batch it yields. *)
Definition assemble (cfg : Config) (sources : gmap nat (list (list Row)))
    (index : list (Z * nat)) (k : nat) (cur : Cursor)
  : Result (list Row * Cursor) :=
  let things_to_get := take (Z.to_nat (output_batch_rows cfg)) (drop k index) in
  let file_requirements := groupby_count things_to_get.*2 in
  '(desired_batches, cur) ← pull_all sources cur file_requirements;
  result ← polars_concat desired_batches;
  Ok (sort result, cur).

(** [range(start, stop, step)] for [step > 0]. *)
Fixpoint range_from (fuel start stop step : nat) : list nat :=
  match fuel with
  | O => []
  | S fuel' =>
      if decide (start < stop)%nat
      then start :: range_from fuel' (start + step) stop step
      else []
  end.

(** [range(0, stop, step)] *)
Definition py_range (stop : nat) (step : Z) : Result (list nat) :=
  if decide (step = 0) then Raise ValueError
  else if decide (step < 0) then Ok []
  else Ok (range_from stop 0 stop (Z.to_nat step)).

(** What a generator has done once drained: the batches it yielded and,
    if that is how it ended, the exception it raised. *)
Definition Drained : Type := list (list Row) * option PyExn.

Fixpoint yield_all (cfg : Config) (sources : gmap nat (list (list Row)))
    (index : list (Z * nat)) (ks : list nat) (cur : Cursor) : Drained :=
  match ks with
  | [] => ([], None)
  | k :: rest =>
      match assemble cfg sources index k cur with
      | Raise e => ([], Some e)
      | Ok (result, cur) =>
          let '(later, outcome) := yield_all cfg sources index rest cur in
          (result :: later, outcome)
      end
  end.

Definition done (cfg : Config) (st : State) (executor_id : Z) : Drained :=
  match in_mem_state st with
  | None => ([], Some AttributeError)
  | Some index =>
      let index := sort_index index in
      match
        sources ← open_sources cfg executor_id (disk st) (fileno st);
        cur ← open_cursor sources;
        ks ← py_range (length index) (output_batch_rows cfg);
        Ok (sources, cur, ks)
      with
      | Raise e => ([], Some e)
      | Ok (sources, cur, ks) => yield_all cfg sources index ks cur
      end
  end.

(** The producer calls of a channel, in order. *)
Fixpoint run (cfg : Config) (st : State)
    (calls : list (list (option (list Row)))) (executor_id : Z) : Result State :=
  match calls with
  | [] => Ok st
  | batches :: rest =>
      '(_, st') ← execute cfg st batches executor_id;
      run cfg st' rest executor_id
  end.

Definition delivered (calls : list (list (option (list Row)))) : list Row :=
  concat (concat (live <$> calls)).

(** *** Ghost state of the proofs *)

(** The index rows one spill file contributes. *)
Definition entries (f : nat) (b : list Row) : list (Z * nat) :=
  (λ r, (key r, f)) <$> b.

Fixpoint index_from (start : nat) (files : list (list Row)) : list (Z * nat) :=
  match files with
  | [] => []
  | b :: rest => entries start b ++ index_from (S start) rest
  end.

(** What the producer has built after some calls: the sorted tables
    [files], one per call that delivered rows; file [f] on disk holds
    table [f] cut into record batches; the index lists them in order. *)
Definition produced (cfg : Config) (eid : Z) (st : State)
    (files : list (list Row)) : Prop :=
  fileno st = length files ∧
  in_mem_state st =
    match files with
    | [] => None
    | _ => Some (index_from 0 files)
    end ∧
  ∀ f b, files !! f = Some b →
    b ≠ [] ∧ StronglySorted key_le b ∧
    disk st !! flush_file_name cfg eid f =
      Some (to_batches (length b) max_chunksize b).

(** Source [f] still has exactly [rows] to hand out: what its
    read-ahead buffer holds, then the batches not yet read. *)
Definition remaining (sources : gmap nat (list (list Row))) (cur : Cursor)
    (f : nat) (rows : list Row) : Prop :=
  ∃ bs c j,
    sources !! f = Some bs ∧
    cached_batches cur !! f = Some c ∧
    current_number_for_source cur !! f = Some j ∧
    (j ≤ length bs)%nat ∧
    c ++ concat (drop j bs) = rows.

(** Consecutive yielded batches do not overlap in key order. *)
Definition ascending (outs : list (list Row)) : Prop :=
  ∀ i a b ra rb,
    outs !! i = Some a → outs !! S i = Some b →
    ra ∈ a → rb ∈ b → key ra ≤ key rb.

(** The loop invariant of the consumer at the index suffix [T]: what
    remains of source [f] carries, in order, the keys the suffix lists
    for [f]. *)
Definition merge_inv (sources : gmap nat (list (list Row))) (n : nat)
    (T : list (Z * nat)) (cur : Cursor) (rem : nat → list Row) : Prop :=
  ∀ f, (f < n)%nat →
    remaining sources cur f (rem f) ∧
    key <$> rem f = (filter (λ e, e.2 = f) T).*1.

End SuperFastSort.

(** ** Window executors

    [pyquokka.windowtypes] (the window and trigger classes with their
    aggregation clauses) and the engines that evaluate the aggregations
    (polars' [groupby_dynamic] and [groupby_rolling], the embedded SQL
    evaluator) lie outside the executors; they are parameters here.
    Timestamps are integers (the [type(...) == int] branch); a row has
    its time column, its grouping column and one payload column. *)

Module Window.

Record Row := { time : Z; by_col : Z; val : Z }.

(** The trigger classes of [windowtypes]; [OtherTrigger] stands for a
    further subclass of [Trigger], which the constructors accept. *)
Inductive Trigger := OnEventTrigger | OnCompletionTrigger | OtherTrigger.

(** [type(self.window)] for the hopping executor: [TumblingWindow] is the
    hopping window whose hop is its size. *)
Inductive HoppingKind := HoppingWindow | TumblingWindow.

Global Instance Trigger_eq_dec : EqDecision Trigger.
Proof. solve_decision. Defined.
Global Instance HoppingKind_eq_dec : EqDecision HoppingKind.
Proof. solve_decision. Defined.

(** [polars.concat(batches)], which refuses an empty list. *)
Definition polars_concat (frames : list (list Row)) : Result (list Row) :=
  match frames with
  | [] => Raise ValueError
  | _ => Ok (concat frames)
  end.

(** [batch[self.time_col][-1]] *)
Definition timestamp_of_last_row (batch : list Row) : Result Z :=
  match last batch with
  | Some r => Ok (time r)
  | None => Raise IndexError
  end.

(** Python's [a // b] on integers. *)
Definition floordiv (a b : Z) : Result Z :=
  if decide (b = 0) then Raise ZeroDivisionError else Ok (a `div` b).

End Window.

Module HoppingWindow.
Import Window.

Record Config := {
  kind : HoppingKind;
  size : Z;
  hop : Z;
  trigger : Trigger
}.

Section WithEngines.
Context {Out : Type}.
(** [groupby_dynamic(time_col, every = hop, period = size, by = by_col)
    .agg(window.polars_aggregations()).sort(time_col)] *)
Variable groupby_dynamic : Config → list Row → list Out.
(** The SQL window query over the rows with their [__window_id]. *)
Variable sql_window : Config → list (Row * Z) → list Out.

Record State := { state : option (list Row) }.

Definition init : State := {| state := None |}.

(** [batch.with_column((col(time_col) // window.size).alias("__window_id"))],
    a column expression; a window has a size other than 0. *)
Definition with_window_id (cfg : Config) (batch : list Row) : list (Row * Z) :=
  (λ r, (r, time r `div` size cfg)) <$> batch.

(** The on-event branch shared by [execute] and [done]. *)
Definition on_event (cfg : Config) (batch : list Row) : Result (list Out) :=
  _ ← passert (bool_decide (kind cfg = TumblingWindow));
  Ok (sql_window cfg (with_window_id cfg batch)).

Definition execute (cfg : Config) (st : State)
    (batches : list (option (list Row)))
  : Result (option (list Out) * State) :=
  batch ← polars_concat (live batches);
  ts ← timestamp_of_last_row batch;
  q ← floordiv (ts - size cfg) (hop cfg);
  let last_start := q * hop cfg in
  let last_end := last_start + size cfg in
  let new_state := filter (λ r, last_end < time r) batch in
  let batch := filter (λ r, time r ≤ last_end) batch in
  let batch := match state st with
               | Some s => s ++ batch
               | None => batch
               end in
  let st := {| state := Some new_state |} in
  match trigger cfg with
  | OnCompletionTrigger => Ok (Some (groupby_dynamic cfg batch), st)
  | OnEventTrigger => result ← on_event cfg batch; Ok (Some result, st)
  | OtherTrigger => Raise NotImplementedError
  end.

Definition done (cfg : Config) (st : State)
  : Result (option (list Out) * State) :=
  result ←
    match trigger cfg with
    | OnCompletionTrigger =>
        match state st with
        | Some (_ :: _) => Raise AttributeError   (* [self.aggregations] *)
        | _ => Ok None
        end
    | OnEventTrigger =>
        _ ← passert (bool_decide (kind cfg = TumblingWindow));
        match state st with
        | Some (r :: s) =>
            Ok (Some (sql_window cfg (with_window_id cfg (r :: s))))
        | _ => Ok None
        end
    | OtherTrigger => Raise NotImplementedError
    end;
  Ok (result, {| state := None |}).

End WithEngines.
Arguments State : clear implicits.

End HoppingWindow.

Module SlidingWindow.
Import Window.

Record Config := { size_before : Z; trigger : Trigger }.

Section WithEngines.
Context {Out : Type}.
(** [groupby_rolling(time_col, period = size, by = by_col)
    .agg(window.polars_aggregations())]: one output row per input row. *)
Variable groupby_rolling : Config → list Row → list Out.

Record State := { state : option (list Row) }.

Definition init : State := {| state := None |}.

Definition execute (cfg : Config) (st : State)
    (batches : list (option (list Row)))
  : Result (option (list Out) * State) :=
  batch ← polars_concat (live batches);
  let '(batch, to_discard) :=
    match state st with
    | Some s => (s ++ batch, Some (length s))
    | None => (batch, None)
    end in
  ts ← timestamp_of_last_row batch;
  let st := {| state := Some (filter (λ r, ts - size_before cfg < time r) batch) |} in
  let result := groupby_rolling cfg batch in
  let result := match to_discard with
                | Some n => drop n result
                | None => result
                end in
  Ok (Some result, st).

Definition done (st : State) : Result (option (list Out) * State) :=
  Ok (None, st).

End WithEngines.
Arguments State : clear implicits.

End SlidingWindow.

Module SessionWindow.
Import Window.

Record Config := { timeout : Z; trigger : Trigger }.

Section WithEngines.
Context {Agg : Type}.
(** [window.polars_aggregations()], evaluated on the rows of one group. *)
Variable polars_aggregations : list Row → Agg.

(** What [execute] leaves in [self.state]: for every key the rows of its
    last session, the [__window_id] column dropped. *)
Record State := { state : option (list Row) }.

Definition init : State := {| state := None |}.

(** [done] under the completion trigger adds a constant [__window_id] of
    1 and groups by it: one group, holding every buffered row. *)
Definition done (cfg : Config) (st : State)
  : Result (option (list (Z * Agg)) * State) :=
  match state st with
  | None | Some [] => Ok (None, st)
  | Some (r :: s) =>
      match trigger cfg with
      | OnCompletionTrigger => Ok (Some [(1, polars_aggregations (r :: s))], st)
      | OnEventTrigger => Raise BinderException   (* no [__window_id] in state *)
      | OtherTrigger => Raise UnboundLocalError
      end
  end.

End WithEngines.
Arguments State : clear implicits.

End SessionWindow.

Module WindowSpec.
Import Window.

(** "For each of the three window executors, done aggregates the
    remaining buffered state and returns that aggregate." *)
Definition done_aggregates_buffered_state : Prop :=
  (∀ (Out : Type) (sql_window : HoppingWindow.Config → list (Row * Z) → list Out)
     cfg st rows,
     HoppingWindow.state st = Some rows → rows ≠ [] →
     ∃ result st', HoppingWindow.done sql_window cfg st = Ok (Some result, st')) ∧
  (∀ (Out : Type) (st : SlidingWindow.State) rows,
     SlidingWindow.state st = Some rows → rows ≠ [] →
     ∃ (result : list Out) st', SlidingWindow.done st = Ok (Some result, st')) ∧
  (∀ (Agg : Type) (polars_aggregations : list Row → Agg) cfg st rows,
     SessionWindow.state st = Some rows → rows ≠ [] →
     ∃ result st',
       SessionWindow.done polars_aggregations cfg st = Ok (Some result, st')).

End WindowSpec.

(** ** Histories of the accumulating executors

    The calls a channel makes on its [CountExecutor], [SQLAggExecutor] or
    [ConcatThenSQLExecutor] (whose [execute] and [done] are those of
    [SQLAggExecutor]), in order. *)

Module Accumulate.

Section WithRows.
Context {R : Type}.

(** The rows of the tables a history delivers, in arrival order. *)
Definition all_rows (calls : list (list (option (list R)))) : list R :=
  concat (concat (not_none <$> calls)).

Fixpoint count_run (st : Count.State) (calls : list (list (option (list R))))
  : Result Count.State :=
  match calls with
  | [] => Ok st
  | batches :: rest =>
      '(_, st') ← Count.execute st batches; count_run st' rest
  end.

Fixpoint sql_run {Out : Type} (st : SQLAgg.State R)
    (calls : list (list (option (list R)))) : Result (SQLAgg.State R) :=
  match calls with
  | [] => Ok st
  | batches :: rest =>
      '(_, st') ← SQLAgg.execute (Out := Out) st batches; sql_run (Out := Out) st' rest
  end.

End WithRows.

End Accumulate.

(** ** The aggregation clause of SQLAggExecutor

    [SQLAggExecutor.__init__] assembles the SQL text: each list is
    written key by key with a trailing comma, and the last character is
    cut off afterwards. *)

Module AggClause.

(** [s[:-1]] *)
Fixpoint cut_last (s : string) : string :=
  match s with
  | EmptyString => EmptyString
  | String c EmptyString => EmptyString
  | String c rest => String c (cut_last rest)
  end.

(** [for key in groupby_keys: self.agg_clause += key + ","] *)
Fixpoint add_group_keys (agg_clause : string) (groupby_keys : list string) : string :=
  match groupby_keys with
  | [] => agg_clause
  | key :: rest => add_group_keys (agg_clause +:+ key +:+ ",") rest
  end.

(** [for key, dir in orderby_keys: ...] *)
Fixpoint add_order_keys (agg_clause : string)
    (orderby_keys : list (string * string)) : string :=
  match orderby_keys with
  | [] => agg_clause
  | (key, dir) :: rest =>
      add_order_keys
        (if decide (dir = "desc") then agg_clause +:+ key +:+ " desc,"
         else agg_clause +:+ key +:+ ",")
        rest
  end.

Definition agg_clause (groupby_keys : list string)
    (orderby_keys : option (list (string * string))) (sql_statement : string)
  : string :=
  let clause :=
    if decide (0 < length groupby_keys)%nat
    then "select " +:+ String.concat "," groupby_keys +:+ ", " +:+
         sql_statement +:+ " from batch_arrow"
    else "select " +:+ sql_statement +:+ " from batch_arrow" in
  let clause :=
    if decide (0 < length groupby_keys)%nat
    then cut_last (add_group_keys (clause +:+ " group by ") groupby_keys)
    else clause in
  match orderby_keys with
  | Some keys => cut_last (add_order_keys (clause +:+ " order by ") keys)
  | None => clause
  end.

(** One entry of the order list as it reads in the clause. *)
Definition order_term (k : string * string) : string :=
  if decide (k.2 = "desc") then k.1 +:+ " desc" else k.1.

End AggClause.

(** The sorted tables a history of producer calls spills, one per call
    that delivers rows, in call order. *)

Module Spill.
Import SuperFastSort.

Definition spill_tables (calls : list (list (option (list Row))))
  : list (list Row) :=
  (λ bs, sort (concat bs)) <$> filter (λ bs, bs ≠ []) (live <$> calls).

(** [ceil(n / b)] as [range] counts its steps. *)
Definition steps (n b : nat) : nat := ((n + b - 1) / b)%nat.

End Spill.

(** ** Histories of the sorted as-of join

    The calls a channel makes on its [SortedAsofExecutor], each with its
    batch list and its stream, and what they return. *)

Module AsofRun.
Import SortedAsof.

Definition Call : Type := list (option (list Row)) * Z.
Definition Joined : Type := list (Row * option Row).

Fixpoint run (st : State) (calls : list Call)
  : Result (list (option Joined) * State) :=
  match calls with
  | [] => Ok ([], st)
  | (batches, stream_id) :: rest =>
      '(r, st1) ← execute st batches stream_id;
      '(rs, st2) ← run st1 rest;
      Ok (r :: rs, st2)
  end.

(** The rows one call delivers, and the rows each side receives over a
    history, in arrival order. *)
Definition rows_of (c : Call) : list Row := concat (not_none c.1).

Definition trades (calls : list Call) : list Row :=
  concat (rows_of <$> filter (λ c, c.2 = 0) calls).

Definition quotes (calls : list Call) : list Row :=
  concat (rows_of <$> filter (λ c, c.2 ≠ 0) calls).

(** The joined rows the calls returned, in order. *)
Definition returned (outs : list (option Joined)) : Joined :=
  concat (default [] <$> outs).

Definition by_time (a b : Row) : Prop := time a ≤ time b.

(** *** Ghost state of the proofs *)

Definition buf (side : option (list Row)) : list Row := default [] side.

(** After some calls: [E] are the primary rows joined so far, [Ts] and
    [Qs] the rows delivered so far on either side.  The primary buffer
    holds the rows not yet joined; the secondary buffer is a time-ordered
    part of [Qs] that answers, for every primary row not before the
    joined ones, as [Qs] does. *)
Definition streaming_inv (st : State) (E Ts Qs : list Row) : Prop :=
  Ts = E ++ buf (trade_state st) ∧
  StronglySorted by_time (buf (quote_state st)) ∧
  (∀ q, q ∈ buf (quote_state st) → q ∈ Qs) ∧
  ∀ t, (∀ e, e ∈ E → time e ≤ time t) →
       asof_backward t (buf (quote_state st)) = asof_backward t Qs.

End AsofRun.

(** ** Histories of the build-probe join, with what the calls return *)

Module BuildProbeRun.
Import BuildProbe.

Fixpoint run_out (cfg : Config) (st : State) (calls : list Call)
  : Result (list (option Frame) * State) :=
  match calls with
  | [] => Ok ([], st)
  | (batches, stream_id) :: rest =>
      '(r, st1) ← execute cfg st batches stream_id;
      '(rs, st2) ← run_out cfg st1 rest;
      Ok (r :: rs, st2)
  end.

(** The rows a history delivers, in arrival order. *)
Definition rows (calls : list Call) : list Row :=
  concat ((λ c : Call, concat (live c.1)) <$> calls).

(** What a probe call returns against the build table [s]. *)
Definition probe_frame (cfg : Config) (s : list Row) (c : Call)
  : option Frame :=
  match live c.1 with
  | [] => None
  | bs =>
      Some {| key_name := if decide (key_to_keep cfg = "right")
                          then right_on cfg else left_on cfg;
              body := join (concat bs) s (how cfg) |}
  end.

End BuildProbeRun.

(** ** DistinctExecutor

    Rows carry the [keys] columns and one further column.
    [DataFrame.unique] drops repeated rows and promises no order, so it
    is a parameter with its contract.  The first call returns the very
    frame it stores in [self.state], to which later calls append in
    place: what a call returns is either that object or a frame of its
    own. *)

Module Distinct.

Record Row := { key : Z; val : Z }.

Global Instance Row_eq_dec : EqDecision Row.
Proof. solve_decision. Defined.

Record State := { state : option (list Row) }.

Definition init : State := {| state := None |}.

Inductive Returned :=
| StateObject                 (* the frame held in [self.state] *)
| Frame (rows : list Row).    (* a frame nothing else refers to *)

(** What a returned frame holds when it is read in state [st]. *)
Definition read (st : State) (f : Returned) : list Row :=
  match f with
  | StateObject => default [] (state st)
  | Frame rows => rows
  end.

(** [batch.join(state, on = keys, how = "anti")] *)
Definition anti_join (batch st : list Row) : list Row :=
  filter (λ r, key r ∉ key <$> st) batch.

Section WithUnique.
Variable unique : list Row → list Row.

Definition execute (st : State) (batches : list (option (list Row)))
  : Result (option Returned * State) :=
  let batches := live batches in
  if decide (length batches = 0%nat) then Ok (None, st) else
  let batch := unique (concat batches) in
  match state st with
  | None => Ok (Some StateObject, {| state := Some batch |})
  | Some s =>
      let contribution := anti_join batch s in
      Ok (Some (Frame contribution), {| state := Some (s ++ contribution) |})
  end.

Definition done (st : State) : Result (option Returned * State) :=
  Ok (None, st).

(** A channel's history.  Beside the frames returned, the rows each
    held at the moment it was returned. *)
Fixpoint run (st : State) (calls : list (list (option (list Row))))
  : Result (list (option Returned) * list (list Row) * State) :=
  match calls with
  | [] => Ok ([], [], st)
  | batches :: rest =>
      '(r, st1) ← execute st batches;
      '(rs, seen, st2) ← run st1 rest;
      Ok (r :: rs, from_option (read st1) [] r :: seen, st2)
  end.

End WithUnique.

Definition delivered (calls : list (list (option (list Row)))) : list Row :=
  concat (concat (live <$> calls)).

End Distinct.

(** ** Histories of the hopping and the sliding window executors *)

Module HoppingRun.
Import Window HoppingWindow.

Section WithEngines.
Context {Out : Type}.
Variable groupby_dynamic : Config → list Row → list Out.
Variable sql_window : Config → list (Row * Z) → list Out.

Fixpoint run (cfg : Config) (st : State)
    (calls : list (list (option (list Row))))
  : Result (list (option (list Out)) * State) :=
  match calls with
  | [] => Ok ([], st)
  | batches :: rest =>
      '(r, st1) ← execute groupby_dynamic sql_window cfg st batches;
      '(rs, st2) ← run cfg st1 rest;
      Ok (r :: rs, st2)
  end.

End WithEngines.

(** *** Ghost state of the proofs *)

(** The end of the last window completed at timestamp [ts]. *)
Definition last_end (cfg : Config) (ts : Z) : Z :=
  (ts - size cfg) `div` hop cfg * hop cfg + size cfg.

Definition last_ts (batch : list Row) : Z := from_option time 0 (last batch).

(** The rows of a batch up to that end, and the rows after it. *)
Definition kept (cfg : Config) (batch : list Row) : list Row :=
  filter (λ r, time r ≤ last_end cfg (last_ts batch)) batch.

Definition deferred (cfg : Config) (batch : list Row) : list Row :=
  filter (λ r, last_end cfg (last_ts batch) < time r) batch.

(** What the calls of a history hand to the aggregation, call by call,
    when [carry] was deferred before. *)
Fixpoint inputs (cfg : Config) (carry : list Row)
    (calls : list (list (option (list Row)))) : list (list Row) :=
  match calls with
  | [] => []
  | batches :: rest =>
      let batch := concat (live batches) in
      (carry ++ kept cfg batch) :: inputs cfg (deferred cfg batch) rest
  end.

Definition carry_after (cfg : Config) (st : option (list Row))
    (calls : list (list (option (list Row)))) : option (list Row) :=
  match last calls with
  | None => st
  | Some batches => Some (deferred cfg (concat (live batches)))
  end.

End HoppingRun.

Module SlidingRun.
Import Window SlidingWindow.

Section WithEngines.
Context {Out : Type}.
Variable groupby_rolling : Config → list Row → list Out.

Fixpoint run (cfg : Config) (st : State)
    (calls : list (list (option (list Row))))
  : Result (list (option (list Out)) * State) :=
  match calls with
  | [] => Ok ([], st)
  | batches :: rest =>
      '(r, st1) ← execute groupby_rolling cfg st batches;
      '(rs, st2) ← run cfg st1 rest;
      Ok (r :: rs, st2)
  end.

End WithEngines.

(** *** Ghost state of the proofs *)

(** The rows of a stream that lie within the window of its last row. *)
Definition window_of (cfg : Config) (rows : list Row) : list Row :=
  match last rows with
  | Some r => filter (λ x, time r - size_before cfg < time x) rows
  | None => []
  end.

(** Every call delivers rows, and its last row is not stamped before
    the last row of the call before. *)
Fixpoint in_step (prev : option Z) (calls : list (list (option (list Row))))
  : Prop :=
  match calls with
  | [] => True
  | batches :: rest =>
      match last (concat (live batches)) with
      | None => False
      | Some r =>
          from_option (λ p, p ≤ time r) True prev ∧ in_step (Some (time r)) rest
      end
  end.

End SlidingRun.

(** What the calls of a history return when [prev] was delivered
    before: the engine's rows for the window of [prev] followed by the
    call's own rows, without the rows for that window. *)

Module SlidingSpec.
Import Window SlidingWindow SlidingRun.

Section WithEngines.
Context {Out : Type}.
Variable groupby_rolling : Config → list Row → list Out.

Fixpoint returns (cfg : Config) (prev : list Row)
    (calls : list (list (option (list Row)))) : list (option (list Out)) :=
  match calls with
  | [] => []
  | batches :: rest =>
      let batch := concat (live batches) in
      let w := window_of cfg prev in
      Some (drop (length w) (groupby_rolling cfg (w ++ batch)))
        :: returns cfg (prev ++ batch) rest
  end.

End WithEngines.

End SlidingSpec.

(** * Input readers of [pyquokka/dataset.py]

    A reader is a generator: draining it gives the pairs it yields, each
    a resume token and an item, and the exception that ended it, if
    any. *)

(** ** InputS3FilesDataset

    [self.files] is the listing [set_num_channels] took; the bucket maps
    a key to the bytes of its object.  A channel reads the listing in
    strides of [num_channels], starting at its own number. *)

Module S3Files.

Section WithBodies.
Context {Body : Type}.

Record State := {
  num_channels : option nat;
  files : list string
}.

Definition Yield : Type := nat * (string * Body).

(** The [while] loop from [curr_pos] on.  [fuel] bounds the number of
    turns; the loop itself only ends when [curr_pos] leaves the
    listing. *)
Fixpoint read_from (fuel : nat) (files : list string)
    (bucket : gmap string Body) (num_channels curr_pos : nat)
  : list Yield * option PyExn :=
  match files !! curr_pos with
  | None => ([], None)
  | Some key =>
      match fuel with
      | O => ([], Some OutOfFuel)
      | S fuel' =>
          match bucket !! key with
          | None => ([], Some PlainException)   (* [NoSuchKey] *)
          | Some body =>
              let curr_pos := (curr_pos + num_channels)%nat in
              let '(later, outcome) :=
                read_from fuel' files bucket num_channels curr_pos in
              ((curr_pos, (key, body)) :: later, outcome)
          end
      end
  end.

Definition get_next_batch (fuel : nat) (st : State)
    (bucket : gmap string Body) (mapper_id : nat) (pos : option nat)
  : list Yield * option PyExn :=
  match num_channels st with
  | None => ([], Some AssertionError)
  | Some n =>
      let curr_pos := match pos with None => mapper_id | Some p => p end in
      read_from fuel (files st) bucket n curr_pos
  end.

(** The objects of the listing, in listing order. *)
Definition objects (files : list string) (bucket : gmap string Body)
  : list (string * Body) :=
  omap (λ key, pair key <$> bucket !! key) files.

End WithBodies.
Arguments State : clear implicits.

(** *** Ghost state of the proofs *)

(** The positions a channel visits from [curr_pos] on. *)
Fixpoint positions (fuel len num_channels curr_pos : nat) : list nat :=
  match fuel with
  | O => []
  | S fuel' =>
      if decide (curr_pos < len)%nat
      then curr_pos :: positions fuel' len num_channels (curr_pos + num_channels)
      else []
  end.

End S3Files.

(** ** InputParquetDataset and InputEC2ParquetDataset

    [get_own_state] deals the row groups of the dataset to the channels;
    [get_next_batch] reads the row groups of one channel.  What is kept
    for a row group is the fragment itself or, in the EC2 variant, its
    path and partition expression; [channel_lengths] is a numpy array
    of 64-bit integers. *)

Module ParquetDataset.

Definition wrap64 (z : Z) : Z := (z + 2 ^ 63) `mod` 2 ^ 64 - 2 ^ 63.

(** [np.argmin]: the first position of the least entry. *)
Fixpoint argmin_go (l : list Z) (i best_i : nat) (best : Z) : nat :=
  match l with
  | [] => best_i
  | x :: l' =>
      if decide (x < best) then argmin_go l' (S i) i x
      else argmin_go l' (S i) best_i best
  end.

Definition argmin (l : list Z) : Result nat :=
  match l with
  | [] => Raise ValueError
  | x :: l' => Ok (argmin_go l' 1 0 x)
  end.

Section WithFragments.
Context {F E B : Type}.
Variable count_rows : F → Z.         (* [item.count_rows()] *)
Variable entry : F → E.              (* what is kept for a row group *)
Variable to_batches : E → list B.    (* its record batches, filtered *)

(** [list.sort(key = lambda x: x[0])], which is stable. *)
Fixpoint insert_by_size (x : Z * F) (l : list (Z * F)) : list (Z * F) :=
  match l with
  | [] => [x]
  | y :: l' =>
      if decide (x.1 ≤ y.1) then x :: y :: l' else y :: insert_by_size x l'
  end.

Definition sort_by_size (l : list (Z * F)) : list (Z * F) :=
  foldr insert_by_size [] l.

(** One turn of the dealing loop. *)
Definition assign (st : gmap nat (list E) * list Z) (x : Z * F)
  : Result (gmap nat (list E) * list Z) :=
  let '(channel_assigments, channel_lengths) := st in
  channel ← argmin channel_lengths;
  match channel_assigments !! channel with
  | None => Raise KeyError
  | Some fragments =>
      match channel_lengths !! channel with
      | None => Raise IndexError
      | Some v =>
          Ok (<[channel := fragments ++ [entry x.2]]> channel_assigments,
              <[channel := wrap64 (v + x.1)]> channel_lengths)
      end
  end.

Fixpoint assign_all (st : gmap nat (list E) * list Z) (l : list (Z * F))
  : Result (gmap nat (list E) * list Z) :=
  match l with
  | [] => Ok st
  | x :: rest => st' ← assign st x; assign_all st' rest
  end.

(** [get_own_state], from the row groups of the dataset to
    [self.channel_assigments]. *)
Definition get_own_state (num_channels : nat) (row_group_fragments : list F)
  : Result (gmap nat (list E)) :=
  let row_group_fragments_with_size :=
    sort_by_size ((λ item, (count_rows item, item)) <$> row_group_fragments) in
  let channel_assigments : gmap nat (list E) :=
    list_to_map ((λ i, (i, [])) <$> seq 0 num_channels) in
  let channel_lengths := replicate num_channels 0 in
  '(channel_assigments, _) ←
    assign_all (channel_assigments, channel_lengths)
      row_group_fragments_with_size;
  Ok channel_assigments.

Record State := {
  num_channels : option nat;
  channel_assigments : gmap nat (list E)
}.

(** [get_next_batch]: the batches of the row groups from [pos] on, each
    with the count of batches read so far. *)
Definition get_next_batch (st : State) (mapper_id : nat) (pos : option nat)
  : list (nat * B) * option PyExn :=
  match num_channels st with
  | None => ([], Some AssertionError)
  | Some _ =>
      let pos := default 0%nat pos in
      match channel_assigments st !! mapper_id with
      | None => ([], Some KeyError)
      | Some fragments =>
          (imap (λ i batch, (pos + i + 1, batch)%nat)
             (concat (to_batches <$> drop pos fragments)), None)
      end
  end.

(** *** Ghost state of the proofs *)

Definition load (fragments : list F) : Z :=
  foldr (λ f acc, count_rows f + acc) 0 fragments.

End WithFragments.

End ParquetDataset.

(** The largest row count among the row groups. *)

Module ParquetSpec.

Definition max_rows {F : Type} (count_rows : F → Z) (fragments : list F) : Z :=
  foldr (λ f acc, Z.max (count_rows f) acc) 0 fragments.

Section Dealing.
Import ParquetDataset.
Context {F E : Type}.
Variable count_rows : F → Z.
Variable entry : F → E.

(** What the dealing loop keeps, with the row groups dealt so far as
    ghost state: the lengths are the loads, no load exceeds the rows
    dealt, and no two loads differ by more than [M]. *)
Definition dealt (n : nat) (M S : Z) (parts : list (list F))
    (st : gmap nat (list E) * list Z) : Prop :=
  length parts = n ∧
  st.2 = load count_rows <$> parts ∧
  (∀ c, st.1 !! c = fmap entry <$> parts !! c) ∧
  (∀ c p, parts !! c = Some p → 0 ≤ load count_rows p ≤ S) ∧
  (∀ c c' p p', parts !! c = Some p → parts !! c' = Some p' →
     load count_rows p ≤ load count_rows p' + M).

End Dealing.

End ParquetSpec.

(** * Properties *)

(** ** Lists *)

Section ListFacts.
Context {A : Type}.

Lemma elem_of_concat (x : A) (ls : list (list A)) :
  x ∈ concat ls ↔ ∃ l, l ∈ ls ∧ x ∈ l.
Proof.
  induction ls as [|l ls IH]; simpl.
  - split; [by intros ?%elem_of_nil|by intros (? & ?%elem_of_nil & _)].
  - rewrite elem_of_app, IH. split.
    + intros [?|(l' & ? & ?)]; [exists l; split; [left|done]|].
      exists l'. split; [by right|done].
    + intros (l' & [->|?]%elem_of_cons & ?); [by left|]. right. eauto.
Qed.

Lemma filter_take_prefix (P : A → Prop) `{!∀ x, Decision (P x)} n (l : list A) :
  filter P (take n l) = take (length (filter P (take n l))) (filter P l).
Proof.
  rewrite <-(take_drop n l) at 3. rewrite filter_app.
  by rewrite take_app_length.
Qed.

Lemma filter_drop_suffix (P : A → Prop) `{!∀ x, Decision (P x)} n (l : list A) :
  filter P (drop n l) = drop (length (filter P (take n l))) (filter P l).
Proof.
  rewrite <-(take_drop n l) at 3. rewrite filter_app.
  by rewrite drop_app_length.
Qed.

Lemma StronglySorted_filter (R : relation A) (P : A → Prop)
    `{!∀ x, Decision (P x)} (l : list A) :
  StronglySorted R l → StronglySorted R (filter P l).
Proof.
  induction 1 as [|x l Hs IH Hx]; [constructor|].
  rewrite filter_cons. case_decide; [|done].
  constructor; [done|]. rewrite Forall_forall in Hx |- *.
  intros y [_ Hy]%list_elem_of_filter. by apply Hx.
Qed.

Lemma last_elem_of (l : list A) x : last l = Some x → x ∈ l.
Proof.
  rewrite last_lookup. apply list_elem_of_lookup_2.
Qed.

Lemma length_concat_uniform (l : list (list A)) n :
  Forall (λ f, length f = n) l → length (concat l) = (length l * n)%nat.
Proof.
  induction 1 as [|f l Hf _ IH]; simpl; [done|].
  rewrite length_app. lia.
Qed.

End ListFacts.

(** ** Batch lists *)

Section BatchListFacts.
Context {R : Type}.
Implicit Types batches : list (option (list R)).

Lemma live_rows batches : ∀ b, b ∈ live batches → b ≠ [].
Proof.
  induction batches as [|[[|r b]|] rest IH]; simpl; intros c Hc;
    try (by apply IH); try by inversion Hc.
  apply elem_of_cons in Hc as [->|Hc]; [done|by apply IH].
Qed.

Lemma live_strip batches : live (strip batches) = live batches.
Proof.
  unfold strip. pose proof (live_rows batches) as H.
  induction (live batches) as [|b bs IH]; [done|].
  simpl. destruct b as [|r b].
  - exfalso. apply (H []); [left|done].
  - f_equal. apply IH. intros c Hc. apply H. by right.
Qed.

Lemma concat_live batches : concat (live batches) = concat (not_none batches).
Proof.
  induction batches as [|[[|r b]|] rest IH]; simpl; by rewrite ?IH.
Qed.

End BatchListFacts.

(** ** Build/probe join *)

Section BuildProbeFacts.
Import BuildProbe.
Variable cfg : Config.

Lemma bp_run_app st pre post :
  run cfg st (pre ++ post) = st' ← run cfg st pre; run cfg st' post.
Proof.
  revert st. induction pre as [|[bs sid] pre IH]; intros st; simpl; [done|].
  destruct (execute cfg st bs sid) as [[r st']|e]; simpl; [apply IH|done].
Qed.

Lemma bp_run_snoc st pre bs sid st2 :
  run cfg st (pre ++ [(bs, sid)]) = Ok st2 →
  ∃ st1 r, run cfg st pre = Ok st1 ∧ execute cfg st1 bs sid = Ok (r, st2).
Proof.
  rewrite bp_run_app. destruct (run cfg st pre) as [st1|e]; simpl; [|done].
  destruct (execute cfg st1 bs sid) as [[r st']|e] eqn:Hex; simpl; [|done].
  intros [= <-]. eauto.
Qed.

(** One call: where the build table and the phase go. *)
Lemma bp_execute_phase st bs sid r st' :
  execute cfg st bs sid = Ok (r, st') →
  (phase st' = phase_probe ↔
   phase st = phase_probe ∨ (sid = 0 ∧ live bs ≠ [] ∧ state st ≠ None)) ∧
  (state st ≠ None → state st' ≠ None).
Proof.
  unfold execute, saw. destruct (live bs) as [|b bl] eqn:Hl; simpl.
  { intros [= <- <-]. naive_solver. }
  repeat case_decide; subst; simpl;
    destruct (phase st) eqn:Hp, (state st) as [s|] eqn:Hs; simpl;
    repeat case_decide; intros [= <- <-]; simpl; naive_solver.
Qed.

Lemma bp_probe_needs_build calls st :
  run cfg init calls = Ok st → phase st = phase_probe → state st ≠ None.
Proof.
  revert st. induction calls as [|[bs sid] calls IH] using rev_ind; intros st.
  { intros [= <-]. done. }
  intros (st1 & r & Hrun & Hex)%bp_run_snoc Hp.
  specialize (IH _ Hrun).
  destruct (bp_execute_phase _ _ _ _ _ Hex) as [Hph Hst].
  apply Hph in Hp as [Hp|(_ & _ & Hs)]; auto.
Qed.

Lemma bp_phase_history calls st :
  run cfg init calls = Ok st →
  (phase st = phase_probe ↔ probed_with_build cfg calls).
Proof.
  revert st. induction calls as [|[bs sid] calls IH] using rev_ind; intros st.
  { intros [= <-]. split; [done|].
    intros (pre & b & post & s & Heq & _). by destruct pre. }
  intros (st1 & r & Hrun & Hex)%bp_run_snoc.
  specialize (IH _ Hrun).
  destruct (bp_execute_phase _ _ _ _ _ Hex) as [Hph _].
  rewrite Hph, IH. split.
  - intros [(pre & b & post & s & -> & Hpre & Hs & Hb)|(-> & Hb & Hs)].
    + exists pre, b, (post ++ [(bs, sid)]), s.
      by rewrite <-app_assoc.
    + exists calls, bs, [], st1. done.
  - intros (pre & b & post & s & Heq & Hpre & Hs & Hb).
    destruct post as [|c post _] using rev_ind.
    + apply app_inj_tail in Heq as [-> [= -> ->]].
      right. rewrite Hrun in Hpre. injection Hpre as ->. done.
    + rewrite app_comm_cons, app_assoc in Heq.
      apply app_inj_tail in Heq as [-> _].
      left. by exists pre, b, post, s.
Qed.

(** The build-phase assertion of one call. *)
Lemma bp_assert_iff st bs :
  execute cfg st bs 1 = Raise AssertionError ↔
  phase st = phase_probe ∧ live bs ≠ [].
Proof.
  unfold execute. destruct (live bs) as [|b bl]; simpl; [naive_solver|].
  destruct (phase st); simpl; naive_solver.
Qed.

End BuildProbeFacts.

Lemma bp_probe_no_rows cfg st batches stream_id :
  live batches = [] →
  BuildProbe.execute cfg st batches stream_id = Ok (None, st).
Proof. unfold BuildProbe.execute. by intros ->. Qed.

(** C8. Before any build row has been seen (the build table is [None]) a
    probe call on stream 0 that delivers rows hands them back unchanged
    under [how = "anti"] and hands back nothing under [how = "inner"];
    the build table stays [None]. *)
Theorem build_probe_probe_before_build
    (cfg : BuildProbe.Config) (st : BuildProbe.State)
    (batches : list (option (list BuildProbe.Row))) :
  BuildProbe.state st = None →
  live batches ≠ [] →
  (BuildProbe.how cfg = BuildProbe.how_anti →
   BuildProbe.execute cfg st batches 0 =
     Ok (Some {| BuildProbe.key_name := BuildProbe.left_on cfg;
                 BuildProbe.body := BuildProbe.ProbeRows (concat (not_none batches)) |},
         BuildProbe.saw st 0 (length (live batches)))) ∧
  (BuildProbe.how cfg = BuildProbe.how_inner →
   BuildProbe.execute cfg st batches 0 =
     Ok (None, BuildProbe.saw st 0 (length (live batches)))).
Proof.
  intros Hs Hl. rewrite <-concat_live. unfold BuildProbe.execute.
  destruct (live batches) as [|b bl]; [done|]. simpl. rewrite Hs.
  split; intros ->; by simpl.
Qed.

Lemma build_probe_probe_before_build_witness :
  let cfg := {| BuildProbe.left_on := "k"; BuildProbe.right_on := "k";
                BuildProbe.how := BuildProbe.how_anti;
                BuildProbe.key_to_keep := "left" |} in
  let row := {| BuildProbe.key := 7; BuildProbe.val := 1 |} in
  BuildProbe.execute cfg BuildProbe.init [Some [row]; None; Some []] 0 =
    Ok (Some {| BuildProbe.key_name := "k";
                BuildProbe.body := BuildProbe.ProbeRows [row] |},
        BuildProbe.saw BuildProbe.init 0 1).
Proof.
  intros cfg row.
  apply (build_probe_probe_before_build cfg BuildProbe.init
           [Some [row]; None; Some []]); [reflexivity|discriminate|reflexivity].
Defined.

(** C10. On a channel whose calls so far all returned, the phase is
    ["probe"] exactly when some earlier probe call with rows was made
    while build rows were held; the build-phase assertion of a stream-1
    call fails exactly when that happened and the call delivers rows; and
    a probe call made while the build table is still [None] leaves the
    phase at ["build"], so that the next build call is accepted and its
    rows become the build table. *)
Theorem build_probe_phase_contract
    (cfg : BuildProbe.Config) (calls : list BuildProbe.Call)
    (st : BuildProbe.State) :
  BuildProbe.run cfg BuildProbe.init calls = Ok st →
  (BuildProbe.phase st = BuildProbe.phase_probe ↔
   BuildProbe.probed_with_build cfg calls) ∧
  (∀ bs, BuildProbe.execute cfg st bs 1 = Raise AssertionError ↔
         BuildProbe.probed_with_build cfg calls ∧ live bs ≠ []) ∧
  (BuildProbe.state st = None →
   ∀ probe_bs, ∃ r st1,
     BuildProbe.execute cfg st probe_bs 0 = Ok (r, st1) ∧
     BuildProbe.phase st1 = BuildProbe.phase_build ∧
     ∀ build_bs, live build_bs ≠ [] → ∃ st2,
       BuildProbe.execute cfg st1 build_bs 1 = Ok (None, st2) ∧
       BuildProbe.state st2 = Some (concat (live build_bs)) ∧
       BuildProbe.phase st2 = BuildProbe.phase_build).
Proof.
  intros Hrun. pose proof (bp_phase_history cfg calls st Hrun) as Hph.
  split; [done|]. split.
  { intros bs. rewrite bp_assert_iff. by rewrite Hph. }
  intros Hs probe_bs.
  assert (BuildProbe.phase st = BuildProbe.phase_build) as Hb.
  { destruct (BuildProbe.phase st) eqn:Hp; [done|].
    by destruct (bp_probe_needs_build cfg calls st Hrun Hp). }
  unfold BuildProbe.execute at 1.
  destruct (live probe_bs) as [|b bl]; simpl.
  - exists None, st. split; [done|]. split; [done|].
    intros build_bs Hl. unfold BuildProbe.execute.
    destruct (live build_bs) as [|c cl]; [done|]. simpl.
    rewrite Hb, Hs. simpl. eauto.
  - rewrite Hs. case_decide; (eexists _, _; split; [done|]); (split; [done|]);
    intros build_bs Hl; unfold BuildProbe.execute;
    (destruct (live build_bs) as [|c cl]; [done|]); simpl;
    rewrite Hb, Hs; simpl; eauto.
Qed.

Lemma build_probe_phase_contract_witness :
  let cfg := {| BuildProbe.left_on := "k"; BuildProbe.right_on := "k";
                BuildProbe.how := BuildProbe.how_inner;
                BuildProbe.key_to_keep := "left" |} in
  let row := {| BuildProbe.key := 7; BuildProbe.val := 1 |} in
  let calls := [([Some [row]], 0); ([Some [row]], 1); ([Some [row]], 0)] in
  BuildProbe.execute cfg
    {| BuildProbe.state := Some [row]; BuildProbe.phase := BuildProbe.phase_probe;
       BuildProbe.things_seen := [(0, 1%nat); (1, 1%nat); (0, 1%nat)] |}
    [Some [row]] 1 = Raise AssertionError ↔
  BuildProbe.probed_with_build cfg calls ∧ live [Some [row]] ≠ [].
Proof.
  intros cfg row calls.
  apply (build_probe_phase_contract cfg calls
           {| BuildProbe.state := Some [row];
              BuildProbe.phase := BuildProbe.phase_probe;
              BuildProbe.things_seen := [(0, 1%nat); (1, 1%nat); (0, 1%nat)] |}).
  reflexivity.
Defined.

(** ** Sorted as-of join *)

Section SortedAsofFacts.
Import SortedAsof.

Lemma last_time_Some (t : list Row) w :
  last_time t = Ok w ↔ ∃ r, last t = Some r ∧ time r = w.
Proof.
  unfold last_time. destruct (last t) as [r|]; naive_solver.
Qed.

(** On a right table in non-decreasing time order the backward partner
    is the nearest preceding row of the symbol. *)
Lemma asof_backward_nearest l right r :
  StronglySorted (λ a b, time a ≤ time b) right →
  asof_backward l right = Some r →
  r ∈ right ∧ symbol r = symbol l ∧ time r ≤ time l ∧
  ∀ r', r' ∈ right → symbol r' = symbol l → time r' ≤ time l →
        time r' ≤ time r.
Proof.
  intros Hs.
  unfold asof_backward. induction Hs as [|a right Ha Hs IH]; [done|].
  rewrite filter_cons. case_decide as Hm.
  - simpl. destruct (filter _ right) as [|b f] eqn:Hf.
    + intros [= <-]. split; [left|]. split; [tauto|]. split; [tauto|].
      intros r' [->|Hin]%elem_of_cons Hsym Ht; [lia|].
      assert (r' ∈ filter (λ r, symbol r = symbol l ∧ time r ≤ time l) right)
        as Hr' by (apply list_elem_of_filter; auto).
      rewrite Hf in Hr'. by apply elem_of_nil in Hr'.
    + intros Hl. destruct (Hs Hl) as (Hin & Hsym & Ht & Hmax).
      split; [by right|]. split; [done|]. split; [done|].
      intros r' [->|Hin']%elem_of_cons Hsym' Ht'; [|by apply Hmax].
      rewrite Forall_forall in IH. by apply IH.
  - intros Hl. destruct (Hs Hl) as (Hin & Hsym & Ht & Hmax).
    split; [by right|]. split; [done|]. split; [done|].
    intros r' [->|Hin']%elem_of_cons Hsym' Ht'; [tauto|by apply Hmax].
Qed.

(** What the dictionary of latest joined quotes holds for a symbol. *)
Lemma latest_by_symbol_Some (t : list Row) s x :
  latest_by_symbol t !! s = Some x →
  ∃ r, r ∈ t ∧ symbol r = s ∧ time r = x.
Proof.
  revert x. induction t as [|a t IH]; intros x; simpl; [done|].
  destruct (decide (symbol a = s)) as [<-|Hne].
  - rewrite lookup_insert_eq.
    destruct (latest_by_symbol t !! symbol a) as [y|] eqn:Hy.
    + intros [= <-]. destruct (Z.max_spec (time a) y) as [[_ ->]|[_ ->]].
      * destruct (IH y eq_refl) as (r & ? & ? & ?). exists r.
        split; [by right|done].
      * exists a. split; [left|done].
    + intros [= <-]. exists a. split; [left|done].
  - rewrite lookup_insert_ne by done. intros (r & ? & ? & ?)%IH.
    exists r. split; [by right|done].
Qed.

End SortedAsofFacts.

Section SortedAsofClaims.
Import SortedAsof.

Lemma emit_unfold st trades quotes w :
  trade_state st = Some trades → quote_state st = Some quotes →
  trades ≠ [] → quotes ≠ [] → last_time quotes = Ok w →
  emit st =
    let joinable_trades := filter (λ r, time r < w) trades in
    match last joinable_trades with
    | None => Ok (None, st)
    | Some tj =>
        let joinable_quotes := filter (λ r, time r ≤ time tj) quotes in
        match joinable_quotes with
        | [] => Ok (None, st)
        | _ =>
            Ok (Some (join_asof asof_backward joinable_trades joinable_quotes),
                {| trade_state := Some (filter (λ r, w ≤ time r) trades);
                   quote_state :=
                     Some (prune quotes
                             (latest_by_symbol
                                (drop_nulls
                                   (join_asof asof_forward joinable_quotes
                                      joinable_trades)).*1)) |})
        end
    end.
Proof.
  intros Ht Hq Hnt Hnq Hw. unfold emit. rewrite Ht, Hq.
  rewrite decide_False; last first.
  { intros [H%nil_length_inv|H%nil_length_inv]; done. }
  rewrite Hw. simpl.
  destruct (filter (λ r, time r < w) trades) as [|a jt] eqn:Hjt using rev_ind.
  { done. }
  clear IHjt. rewrite decide_False by (rewrite length_app; simpl; lia).
  unfold last_time. rewrite last_snoc. simpl.
  destruct (filter (λ r, time r ≤ time a) quotes) as [|b jq] eqn:Hjq; [done|].
  by rewrite decide_False.
Qed.

End SortedAsofClaims.

(** C6, the claim as written fails: a primary row whose timestamp equals
    the watermark is not joined and stays buffered. *)
Lemma asof_joinable_at_or_before_fails :
  (let q := {| SortedAsof.time := 5; SortedAsof.symbol := 1; SortedAsof.val := 0 |} in
   let t := {| SortedAsof.time := 5; SortedAsof.symbol := 1; SortedAsof.val := 9 |} in
   SortedAsof.execute
     {| SortedAsof.trade_state := None; SortedAsof.quote_state := Some [q] |}
     [Some [t]] 0 =
   Ok (None,
       {| SortedAsof.trade_state := Some [t];
          SortedAsof.quote_state := Some [q] |})) ∧
  ¬ AsofSpec.joinable_at_or_before_watermark.
Proof.
  split; [reflexivity|]. intros H.
  pose (q := {| SortedAsof.time := 5; SortedAsof.symbol := 1; SortedAsof.val := 0 |}).
  pose (t := {| SortedAsof.time := 5; SortedAsof.symbol := 1; SortedAsof.val := 9 |}).
  destruct (H {| SortedAsof.trade_state := None;
                 SortedAsof.quote_state := Some [q] |}
              [Some [t]] 0
              {| SortedAsof.trade_state := Some [t];
                 SortedAsof.quote_state := Some [q] |}
              [t] [q] 5)
    as (result & quotes' & Hex & _); try done.
Qed.

(** C6, amended. On a call that leaves both buffers with rows, the
    joinable primary rows are those strictly before the watermark (the
    time of the last secondary row).  When there are some, and some
    secondary row lies at or before the last of them, the call returns
    their as-of join against those secondary rows and keeps in the
    primary buffer exactly the rows at or after the watermark; with the
    secondary buffer in time order, every match is the nearest preceding
    secondary row of the key.  Otherwise the call returns nothing and
    leaves both buffers as they are. *)
Theorem asof_joinable_strictly_before
    (st : SortedAsof.State) (batches : list (option (list SortedAsof.Row)))
    (stream_id : Z) (st1 : SortedAsof.State)
    (trades quotes : list SortedAsof.Row) (w : Z) :
  SortedAsof.absorb st batches stream_id = Ok st1 →
  SortedAsof.trade_state st1 = Some trades →
  SortedAsof.quote_state st1 = Some quotes →
  trades ≠ [] → quotes ≠ [] →
  SortedAsof.last_time quotes = Ok w →
  let joinable_trades := filter (λ t, SortedAsof.time t < w) trades in
  match last joinable_trades with
  | None => SortedAsof.execute st batches stream_id = Ok (None, st1)
  | Some tj =>
      let joinable_quotes :=
        filter (λ q, SortedAsof.time q ≤ SortedAsof.time tj) quotes in
      if decide (joinable_quotes = [])
      then SortedAsof.execute st batches stream_id = Ok (None, st1)
      else
        let result := SortedAsof.join_asof SortedAsof.asof_backward
                        joinable_trades joinable_quotes in
        (∃ quotes',
           SortedAsof.execute st batches stream_id =
             Ok (Some result,
                 {| SortedAsof.trade_state :=
                      Some (filter (λ t, w ≤ SortedAsof.time t) trades);
                    SortedAsof.quote_state := Some quotes' |})) ∧
        result.*1 = joinable_trades ∧
        (StronglySorted (λ a b, SortedAsof.time a ≤ SortedAsof.time b) quotes →
         ∀ t q, (t, Some q) ∈ result →
           q ∈ joinable_quotes ∧
           SortedAsof.symbol q = SortedAsof.symbol t ∧
           SortedAsof.time q ≤ SortedAsof.time t ∧
           ∀ q', q' ∈ joinable_quotes →
                 SortedAsof.symbol q' = SortedAsof.symbol t →
                 SortedAsof.time q' ≤ SortedAsof.time t →
                 SortedAsof.time q' ≤ SortedAsof.time q)
  end.
Proof.
  intros Hab Ht Hq Hnt Hnq Hw joinable_trades.
  unfold SortedAsof.execute. rewrite Hab. simpl.
  rewrite (emit_unfold st1 trades quotes w) by done. simpl.
  fold joinable_trades. destruct (last joinable_trades) as [tj|]; [|done].
  case_decide as Hjq; [by rewrite Hjq|].
  split; [destruct (filter _ quotes); [done|]; eauto|]. split.
  { unfold SortedAsof.join_asof. rewrite <-list_fmap_compose.
    rewrite <-(list_fmap_id joinable_trades) at 2. by apply list_fmap_ext. }
  intros Hsorted t q (t' & [= <- Hm] & _)%list_elem_of_fmap.
  symmetry in Hm. apply asof_backward_nearest in Hm; [done|].
  by apply StronglySorted_filter.
Qed.

Lemma asof_joinable_strictly_before_witness :
  let q1 := {| SortedAsof.time := 1; SortedAsof.symbol := 1; SortedAsof.val := 0 |} in
  let q10 := {| SortedAsof.time := 10; SortedAsof.symbol := 1; SortedAsof.val := 0 |} in
  let t5 := {| SortedAsof.time := 5; SortedAsof.symbol := 1; SortedAsof.val := 7 |} in
  let t12 := {| SortedAsof.time := 12; SortedAsof.symbol := 1; SortedAsof.val := 8 |} in
  let st := {| SortedAsof.trade_state := None;
               SortedAsof.quote_state := Some [q1; q10] |} in
  ∃ quotes',
    SortedAsof.execute st [Some [t5; t12]] 0 =
      Ok (Some [(t5, Some q1)],
          {| SortedAsof.trade_state := Some [t12];
             SortedAsof.quote_state := Some quotes' |}).
Proof.
  intros q1 q10 t5 t12 st.
  refine (proj1 (asof_joinable_strictly_before st [Some [t5; t12]] 0
           {| SortedAsof.trade_state := Some [t5; t12];
              SortedAsof.quote_state := Some [q1; q10] |}
           [t5; t12] [q1; q10] 10 _ _ _ _ _ _)); reflexivity || discriminate.
Defined.

Section SortedAsofPruning.
Import SortedAsof.

(** A quote kept by [drop_nulls] in the forward probe preceded one of the
    joined trades of its symbol. *)
Lemma mock_result_matched (jq jt : list Row) q :
  q ∈ (drop_nulls (join_asof asof_forward jq jt)).*1 →
  q ∈ jq ∧ ∃ t, t ∈ jt ∧ symbol t = symbol q ∧ time q ≤ time t.
Proof.
  intros ([l m] & -> & Hp)%list_elem_of_fmap. simpl.
  apply list_elem_of_filter in Hp as [[t Hm] Hp]. simpl in Hm. subst m.
  apply list_elem_of_fmap in Hp as (l' & [= <- Ht] & Hl').
  split; [done|]. exists t. symmetry in Ht.
  apply head_Some_elem_of, list_elem_of_filter in Ht. tauto.
Qed.

Lemma emit_cases st result st' trades quotes :
  emit st = Ok (result, st') →
  trade_state st = Some trades → quote_state st = Some quotes →
  st' = st ∨
  ∃ w tj,
    last (filter (λ r, time r < w) trades) = Some tj ∧
    trade_state st' = Some (filter (λ r, w ≤ time r) trades) ∧
    quote_state st' =
      Some (prune quotes
              (latest_by_symbol
                 (drop_nulls
                    (join_asof asof_forward
                       (filter (λ r, time r ≤ time tj) quotes)
                       (filter (λ r, time r < w) trades))).*1)).
Proof.
  intros Hem Ht Hq.
  destruct (decide (trades = [])) as [->|Hnt].
  { unfold emit in Hem. rewrite Ht, Hq in Hem.
    rewrite decide_True in Hem by (simpl; auto). left. congruence. }
  destruct (decide (quotes = [])) as [->|Hnq].
  { unfold emit in Hem. rewrite Ht, Hq in Hem.
    rewrite decide_True in Hem by (simpl; auto). left. congruence. }
  destruct (last quotes) as [ql|] eqn:Hl; [|by apply last_None in Hl].
  rewrite (emit_unfold st trades quotes (time ql)) in Hem; try done;
    [|by unfold last_time; rewrite Hl].
  simpl in Hem.
  destruct (last (filter _ trades)) as [tj|] eqn:Htj; [|left; congruence].
  destruct (filter (λ r, time r ≤ time tj) quotes) as [|b jq] eqn:Hjq;
    [left; congruence|].
  right. exists (time ql), tj. injection Hem as <- <-. simpl.
  by rewrite Hjq.
Qed.

End SortedAsofPruning.

(** C7, the claim as written fails: after a call the secondary buffer
    still holds rows older than a primary row that is still buffered (the
    row that joined last, and everything after it). *)
Lemma asof_no_older_quote_fails :
  (let q1 := {| SortedAsof.time := 1; SortedAsof.symbol := 1; SortedAsof.val := 0 |} in
   let q10 := {| SortedAsof.time := 10; SortedAsof.symbol := 1; SortedAsof.val := 0 |} in
   let t5 := {| SortedAsof.time := 5; SortedAsof.symbol := 1; SortedAsof.val := 7 |} in
   let t12 := {| SortedAsof.time := 12; SortedAsof.symbol := 1; SortedAsof.val := 8 |} in
   SortedAsof.execute
     {| SortedAsof.trade_state := None;
        SortedAsof.quote_state := Some [q1; q10] |}
     [Some [t5; t12]] 0 =
   Ok (Some [(t5, Some q1)],
       {| SortedAsof.trade_state := Some [t12];
          SortedAsof.quote_state := Some [q1; q10] |})) ∧
  ¬ AsofSpec.no_quote_older_than_buffered_trade.
Proof.
  split; [by vm_compute|]. intros H.
  pose (q1 := {| SortedAsof.time := 1; SortedAsof.symbol := 1; SortedAsof.val := 0 |}).
  pose (q10 := {| SortedAsof.time := 10; SortedAsof.symbol := 1; SortedAsof.val := 0 |}).
  pose (t5 := {| SortedAsof.time := 5; SortedAsof.symbol := 1; SortedAsof.val := 7 |}).
  pose (t12 := {| SortedAsof.time := 12; SortedAsof.symbol := 1; SortedAsof.val := 8 |}).
  assert (SortedAsof.time t12 ≤ SortedAsof.time q1) as Hle; [|simpl in Hle; lia].
  apply (H {| SortedAsof.trade_state := None;
              SortedAsof.quote_state := Some [q1; q10] |}
           [Some [t5; t12]] 0
           (Some [(t5, Some q1)])
           {| SortedAsof.trade_state := Some [t12];
              SortedAsof.quote_state := Some [q1; q10] |}
           [t12] [q1; q10]); [by vm_compute|done|done|left|left].
Qed.

(** C7, amended. A call prunes from the secondary buffer only rows that
    lie strictly before a later row of the same key that preceded a
    primary row joined in this call (for a key with no such row, only
    rows with a timestamp below -1); and for every primary row still
    buffered, the nearest preceding secondary row of its key is still
    buffered whenever its timestamp is at least -1. *)
Theorem asof_pruning_keeps_needed_quotes
    (st : SortedAsof.State) (batches : list (option (list SortedAsof.Row)))
    (stream_id : Z) (st1 : SortedAsof.State)
    (result : option (list (SortedAsof.Row * option SortedAsof.Row)))
    (st' : SortedAsof.State)
    (trades quotes trades' quotes' : list SortedAsof.Row) :
  SortedAsof.absorb st batches stream_id = Ok st1 →
  SortedAsof.trade_state st1 = Some trades →
  SortedAsof.quote_state st1 = Some quotes →
  SortedAsof.execute st batches stream_id = Ok (result, st') →
  SortedAsof.trade_state st' = Some trades' →
  SortedAsof.quote_state st' = Some quotes' →
  (∀ q, q ∈ quotes → q ∉ quotes' →
     SortedAsof.time q < -1 ∨
     ∃ q' t, q' ∈ quotes ∧
             SortedAsof.symbol q' = SortedAsof.symbol q ∧
             SortedAsof.time q < SortedAsof.time q' ∧
             t ∈ trades ∧ t ∉ trades' ∧
             SortedAsof.symbol t = SortedAsof.symbol q' ∧
             SortedAsof.time q' ≤ SortedAsof.time t) ∧
  (∀ t q, t ∈ trades' → q ∈ quotes →
     SortedAsof.symbol q = SortedAsof.symbol t →
     SortedAsof.time q ≤ SortedAsof.time t →
     (∀ q2, q2 ∈ quotes → SortedAsof.symbol q2 = SortedAsof.symbol t →
            SortedAsof.time q2 ≤ SortedAsof.time t →
            SortedAsof.time q2 ≤ SortedAsof.time q) →
     -1 ≤ SortedAsof.time q →
     q ∈ quotes').
Proof.
  intros Hab Ht Hq Hex Ht' Hq'.
  unfold SortedAsof.execute in Hex. rewrite Hab in Hex. simpl in Hex.
  destruct (emit_cases _ _ _ _ _ Hex Ht Hq) as [->|(w & tj & Htj & Hts & Hqs)].
  { rewrite Hq in Hq'. injection Hq' as <-. by split; intros. }
  rewrite Ht' in Hts. injection Hts as ->.
  rewrite Hq' in Hqs. injection Hqs as ->.
  set (jt := filter (λ r, SortedAsof.time r < w) trades) in *.
  set (jq := filter (λ r, SortedAsof.time r ≤ SortedAsof.time tj) quotes) in *.
  set (latest := SortedAsof.latest_by_symbol _).
  assert (∀ s x, latest !! s = Some x →
            ∃ q' t, q' ∈ quotes ∧ SortedAsof.symbol q' = s ∧
                    SortedAsof.time q' = x ∧ x < w ∧
                    t ∈ trades ∧ SortedAsof.time t < w ∧
                    SortedAsof.symbol t = s ∧ x ≤ SortedAsof.time t) as Hlatest.
  { intros s x (q' & Hin & Hsym & Htime)%latest_by_symbol_Some.
    apply mock_result_matched in Hin as [Hjq (t & Hjt & Hst & Hle)].
    apply list_elem_of_filter in Hjq as [Hqj Hqin].
    apply list_elem_of_filter in Hjt as [Htw Htin].
    apply last_Some_elem_of, list_elem_of_filter in Htj as [Htjw _].
    exists q', t. repeat split; try done; try lia; congruence. }
  split.
  - intros q Hin Hout. unfold SortedAsof.prune in Hout.
    rewrite list_elem_of_filter in Hout.
    destruct (latest !! SortedAsof.symbol q) as [x|] eqn:Hx; simpl in Hout.
    + right. destruct (Hlatest _ _ Hx) as (q' & t & ? & ? & ? & ? & ? & ? & ? & ?).
      assert (SortedAsof.time q < x)
        by (destruct (decide (x ≤ SortedAsof.time q)); [tauto|lia]).
      exists q', t. repeat split; try done; try lia;
        first [congruence | rewrite list_elem_of_filter; lia].
    + left. destruct (decide (-1 ≤ SortedAsof.time q)); [tauto|lia].
  - intros t q [Htw Htin]%list_elem_of_filter Hin Hsym Hle Hmax Hneg.
    unfold SortedAsof.prune. apply list_elem_of_filter. split; [|done].
    destruct (latest !! SortedAsof.symbol q) as [x|] eqn:Hx; simpl; [|done].
    destruct (Hlatest _ _ Hx) as (q' & t0 & ? & ? & <- & ? & _).
    apply Hmax; [done|congruence|lia].
Qed.

Lemma asof_pruning_keeps_needed_quotes_witness :
  let q1 := {| SortedAsof.time := 1; SortedAsof.symbol := 1; SortedAsof.val := 0 |} in
  let q3 := {| SortedAsof.time := 3; SortedAsof.symbol := 1; SortedAsof.val := 0 |} in
  let q10 := {| SortedAsof.time := 10; SortedAsof.symbol := 1; SortedAsof.val := 0 |} in
  let t5 := {| SortedAsof.time := 5; SortedAsof.symbol := 1; SortedAsof.val := 7 |} in
  let t12 := {| SortedAsof.time := 12; SortedAsof.symbol := 1; SortedAsof.val := 8 |} in
  q10 ∈ [q3; q10].
Proof.
  intros q1 q3 q10 t5 t12.
  apply (asof_pruning_keeps_needed_quotes
           {| SortedAsof.trade_state := None;
              SortedAsof.quote_state := Some [q1; q3; q10] |}
           [Some [t5; t12]] 0
           {| SortedAsof.trade_state := Some [t5; t12];
              SortedAsof.quote_state := Some [q1; q3; q10] |}
           (Some [(t5, Some q3)])
           {| SortedAsof.trade_state := Some [t12];
              SortedAsof.quote_state := Some [q3; q10] |}
           [t5; t12] [q1; q3; q10] [t12] [q3; q10]
           eq_refl eq_refl eq_refl eq_refl eq_refl eq_refl) with (t := t12).
  - left.
  - right. right. left.
  - reflexivity.
  - simpl. lia.
  - intros q2 Hq2 _ _. 
    repeat (apply elem_of_cons in Hq2 as [->|Hq2]; [simpl; lia|]).
    by apply elem_of_nil in Hq2.
  - simpl. lia.
Defined.

(** ** Output executor *)

Section OutputFacts.
Import Output.
Context {R : Type}.
Implicit Types (st : State R) (wb : list R) (my : list (list R)).

Lemma sum_list_lengths my : sum_list (length <$> my) = length (concat my).
Proof.
  induction my as [|b my IH]; simpl; [done|].
  rewrite length_app. by rewrite <-IH.
Qed.

Lemma cumsum_from_lookup acc (l : list nat) i :
  cumsum_from acc l !! i = (λ _, acc + sum_list (take (S i) l))%nat <$> (l !! i).
Proof.
  revert acc i. induction l as [|x l IH]; intros acc [|i]; simpl; try done.
  - f_equal. destruct l; simpl; lia.
  - rewrite IH. destruct (l !! i); simpl; [|done]. f_equal. lia.
Qed.

(** Taking [k] rows off the front of a list of batches when the cut falls
    inside batch [i]. *)
Lemma concat_cut my i b k :
  my !! i = Some b →
  (length (concat (take i my)) ≤ k ≤ length (concat (take i my)) + length b)%nat →
  take k (concat my) =
    concat (take i my) ++ take (k - length (concat (take i my))) b ∧
  drop k (concat my) =
    drop (k - length (concat (take i my))) b ++ concat (drop (S i) my).
Proof.
  intros Hb Hk. set (s := length (concat (take i my))) in *.
  rewrite <-(take_drop_middle my i b Hb) at 1 3.
  rewrite !concat_app. simpl. fold s. split.
  - rewrite take_app. rewrite take_ge by (fold s; lia). f_equal.
    fold s. rewrite take_app_le by lia. done.
  - rewrite drop_app. rewrite drop_ge by (fold s; lia). simpl.
    fold s. rewrite drop_app_le by lia. done.
Qed.

(** Where [first_reaching] lands for a positive target within reach. *)
Lemma first_reaching_spec my k :
  (0 < k ≤ length (concat my))%nat →
  ∃ i b, first_reaching (length <$> my) k = Ok i ∧ my !! i = Some b ∧
         (length (concat (take i my)) < k
          ≤ length (concat (take i my)) + length b)%nat.
Proof.
  intros Hk. unfold first_reaching.
  destruct (list_find _ _) as [[i c]|] eqn:Hf.
  - apply list_find_Some in Hf as (Hi & Hc & Hmin).
    rewrite cumsum_from_lookup, list_lookup_fmap in Hi.
    destruct (my !! i) as [b|] eqn:Hb; [|done]. simpl in Hi.
    injection Hi as <-. exists i, b. split; [done|]. split; [done|].
    rewrite <-fmap_take, sum_list_lengths in Hc.
    rewrite (take_S_r _ _ _ Hb), concat_app, length_app in Hc. simpl in Hc.
    rewrite length_app in Hc. simpl in Hc. split; [|lia].
    destruct i as [|j]; [simpl; lia|].
    assert (is_Some (my !! j)) as [bj Hbj].
    { apply lookup_lt_is_Some. apply lookup_lt_Some in Hb. lia. }
    specialize (Hmin j (sum_list (take (S j) (length <$> my)))).
    rewrite cumsum_from_lookup, list_lookup_fmap, Hbj in Hmin.
    specialize (Hmin eq_refl ltac:(lia)).
    rewrite <-fmap_take, sum_list_lengths in Hmin. lia.
  - exfalso. apply list_find_None in Hf. rewrite Forall_forall in Hf.
    destruct my as [|b0 my0] using rev_ind; [simpl in Hk; lia|].
    apply (Hf (length (concat (my0 ++ [b0])))); [|lia].
    apply list_elem_of_lookup. exists (length my0).
    rewrite cumsum_from_lookup, list_lookup_fmap.
    rewrite lookup_app_r, Nat.sub_diag by done. simpl. f_equal.
    rewrite <-fmap_take, sum_list_lengths.
    rewrite take_ge by (rewrite length_app; simpl; lia). done.
Qed.

(** The files one run of the upload loop adds: consecutive names, the
    written rows in order, and whole row groups when the rows divide. *)
Lemma upload_from_spec cfg eid wb fuel i st :
  (0 < row_group_size cfg)%nat → (length wb - i ≤ fuel)%nat →
  ∃ files,
    upload_from fuel cfg eid wb i st =
      {| my_batches := my_batches st;
         name := name st + length files;
         storage := storage st ++ files |} ∧
    files.*1 = (λ k, basename_template cfg eid (name st + k)) <$>
                 seq 0 (length files) ∧
    concat files.*2 = drop i wb ∧
    (∀ q, (length wb - i = q * row_group_size cfg)%nat →
          length files = q ∧
          Forall (λ f, length f = row_group_size cfg) files.*2) ∧
    ((0 < length wb - i ≤ row_group_size cfg)%nat → files.*2 = [drop i wb]).
Proof.
  intros HR. revert i st. induction fuel as [|fuel IH]; intros i st Hfuel.
  { exists []. simpl. rewrite app_nil_r, Nat.add_0_r.
    split; [by destruct st|]. split; [done|].
    split; [by rewrite drop_ge by lia|]. split; [|lia].
    intros q Hq. split; [nia|done]. }
  simpl. case_decide as Hi.
  2:{ exists []. simpl. rewrite app_nil_r, Nat.add_0_r.
      split; [by destruct st|]. split; [done|].
      split; [by rewrite drop_ge by lia|]. split; [|lia].
      intros q Hq. split; [nia|done]. }
  set (cur := take (row_group_size cfg) (drop i wb)).
  edestruct (IH (i + row_group_size cfg)%nat) as (files & -> & Hn & Hc & Hq & H1);
    [lia|]. cbn [name my_batches storage] in *.
  exists ((basename_template cfg eid (name st), cur) :: files).
  split; [cbn [length]; f_equal; [lia|by rewrite <-app_assoc]|].
  split.
  { cbn [length]. rewrite <-cons_seq, !fmap_cons. cbn [fst].
    rewrite Nat.add_0_r. f_equal.
    rewrite Hn, <-fmap_S_seq, <-list_fmap_compose.
    apply list_fmap_ext. intros _ k _. simpl. f_equal. lia. }
  split.
  { rewrite fmap_cons. cbn [snd concat].
    rewrite Hc. unfold cur. rewrite <-drop_drop. apply take_drop. }
  split.
  - intros [|q] Hlen; [lia|].
    destruct (Hq q) as [Hlf Hall]; [simpl in Hlen; lia|].
    split; [simpl; lia|].
    rewrite fmap_cons. constructor; [|done]. cbn [snd]. unfold cur.
    rewrite length_take, length_drop. simpl in Hlen. lia.
  - intros Hle. rewrite fmap_cons. cbn [snd]. rewrite (nil_length_inv files.*2).
    + unfold cur. by rewrite take_ge by (rewrite length_drop; lia).
    + rewrite length_fmap. destruct (Hq 0%nat); [lia|done].
Qed.

End OutputFacts.

Section OutputRun.
Import Output.
Context {R : Type}.
Implicit Types (st : State R) (my : list (list R)).

(** One [execute] call, for a positive row-group size. *)
Lemma output_execute_spec cfg st (batches : list (option (list R))) eid :
  (0 < row_group_size cfg)%nat →
  let rows := concat (my_batches st ++ live batches) in
  ∃ files my',
    execute cfg st batches eid =
      Ok (if decide (length rows ≤ row_group_size cfg)%nat then None
          else Some ((λ i, manifest_entry cfg eid (name st + length files) i) <$>
                       seq 0 (length files)),
          {| my_batches := my'; name := name st + length files;
             storage := storage st ++ files |}) ∧
    files.*1 = (λ k, basename_template cfg eid (name st + k)) <$>
                 seq 0 (length files) ∧
    Forall (λ f, length f = row_group_size cfg) files.*2 ∧
    concat files.*2 ++ concat my' = rows ∧
    (if decide (length rows ≤ row_group_size cfg)%nat
     then files = [] ∧ my' = my_batches st ++ live batches
     else length files = (length rows / row_group_size cfg)%nat ∧
          length (concat my') = (length rows `mod` row_group_size cfg)%nat ∧
          my' ≠ []).
Proof.
  intros HR rows. unfold execute.
  set (my := my_batches st ++ live batches) in *.
  rewrite sum_list_lengths. fold rows.
  set (rgs := row_group_size cfg) in *.
  case_decide as Hle.
  { exists [], my. rewrite app_nil_r, Nat.add_0_r. done. }
  set (q := (length rows / rgs)%nat).
  assert (length rows = q * rgs + length rows `mod` rgs)%nat as Hdiv
    by (unfold q; rewrite (Nat.div_mod_eq (length rows) rgs) at 1; lia).
  assert (length rows `mod` rgs < rgs)%nat as Hmod
    by (apply Nat.mod_upper_bound; lia).
  assert (0 < q)%nat as Hq by (destruct q; [lia|lia]).
  destruct (first_reaching_spec my (q * rgs)) as (i & b & -> & Hb & Hlt);
    [fold rows; nia|].
  cbn [mbind result_bind].
  rewrite <-fmap_take, sum_list_lengths.
  rewrite decide_True by lia. rewrite (drop_S _ _ _ Hb).
  cbn [mbind result_bind].
  destruct (concat_cut my i b (q * rgs) Hb ltac:(lia)) as [Htake Hdrop].
  fold rows in Htake, Hdrop.
  assert (default [] (if decide (0 < i)%nat
                      then Some (concat (take i my)) else None)
          = concat (take i my)) as ->.
  { case_decide; [done|]. by replace i with 0%nat by lia. }
  rewrite <-Htake.
  assert (length (take (q * rgs) rows) = q * rgs)%nat as Hlen
    by (rewrite length_take; lia).
  rewrite Hlen, Nat.Div0.mod_mul. cbn [bool_decide decide_rel passert].
  rewrite bool_decide_eq_true_2 by done. cbn [passert mbind result_bind].
  unfold upload_write_batch. rewrite decide_False by (fold rgs; lia).
  cbn [mbind result_bind].
  edestruct (upload_from_spec cfg eid (take (q * rgs) rows)
               (length (take (q * rgs) rows)) 0) as (files & -> & Hn & Hc & Hall & _);
    [done|lia|].
  cbn [name my_batches storage] in *.
  destruct (Hall q) as [Hlf Hfa]; [lia|].
  exists files, (drop (q * rgs - length (concat (take i my))) b :: drop (S i) my).
  rewrite Nat.div_mul by lia. rewrite Hlf.
  split; [done|]. split; [by rewrite Hn, Hlf|]. split; [done|].
  split.
  { rewrite Hc, drop_0. cbn [concat]. rewrite <-Hdrop. apply take_drop. }
  split; [done|]. split; [|done].
  cbn [concat]. rewrite <-Hdrop, length_drop. lia.
Qed.

(** The rows a channel holds, written or buffered, are the rows
    delivered to it; only whole row groups get written. *)
Lemma output_run_spec cfg (calls : list (list (option (list R)))) eid :
  (0 < row_group_size cfg)%nat →
  ∀ st, (length (concat (my_batches st)) ≤ row_group_size cfg)%nat →
  ∃ files my',
    run cfg st calls eid =
      Ok {| my_batches := my'; name := name st + length files;
            storage := storage st ++ files |} ∧
    files.*1 = (λ k, basename_template cfg eid (name st + k)) <$>
                 seq 0 (length files) ∧
    Forall (λ f, length f = row_group_size cfg) files.*2 ∧
    concat files.*2 ++ concat my' = concat (my_batches st) ++ delivered calls ∧
    (length (concat my') ≤ row_group_size cfg)%nat ∧
    (my' = [] → my_batches st = [] ∧ delivered calls = []).
Proof.
  intros HR. induction calls as [|batches calls IH]; intros st Hst.
  { exists [], (my_batches st). simpl.
    rewrite !app_nil_r, Nat.add_0_r. by destruct st. }
  destruct (output_execute_spec cfg st batches eid HR)
    as (files & my1 & Hex & Hn & Hall & Hrows & Hcase).
  cbn [run]. rewrite Hex. cbn [mbind result_bind].
  edestruct (IH {| my_batches := my1; name := name st + length files;
                   storage := storage st ++ files |})
    as (files2 & my2 & -> & Hn2 & Hall2 & Hrows2 & Hle2 & Hnil2).
  { cbn [my_batches]. case_decide as Hd.
    - destruct Hcase as [_ ->]. done.
    - destruct Hcase as (_ & -> & _).
      pose proof (Nat.mod_upper_bound
                    (length (concat (my_batches st ++ live batches)))
                    (row_group_size cfg)). lia. }
  cbn [name my_batches storage] in *.
  exists (files ++ files2), my2.
  rewrite length_app, !fmap_app, concat_app, Forall_app.
  split; [do 2 f_equal; [lia|by rewrite app_assoc]|].
  split.
  { rewrite seq_app, fmap_app, Hn, Hn2. f_equal. simpl.
    replace (seq (length files) (length files2))
      with (Nat.add (length files) <$> seq 0 (length files2))
      by (rewrite fmap_add_seq; f_equal; lia).
    rewrite <-list_fmap_compose.
    apply list_fmap_ext. intros _ k _. simpl. f_equal. lia. }
  split; [done|]. split.
  { rewrite <-app_assoc, Hrows2, app_assoc, Hrows.
    unfold delivered. cbn [fmap list_fmap concat].
    rewrite !concat_app. by rewrite <-!app_assoc. }
  split; [done|].
  intros Hmy2. destruct (Hnil2 Hmy2) as [-> Hd2].
  case_decide.
  - destruct Hcase as [_ Hmy1]. symmetry in Hmy1.
    apply app_eq_nil in Hmy1 as [-> Hl]. split; [done|].
    unfold delivered in *. cbn [fmap list_fmap concat]. rewrite Hl. done.
  - by destruct Hcase as (_ & _ & ?).
Qed.

End OutputRun.

(** C2, the claim as written fails: a buffer that holds exactly one row
    group is not written by [execute]; the file appears at [done]. *)
Lemma output_row_group_accounting_fails :
  (let cfg := {| Output.filepath := "out"; Output.format := Output.csv;
                 Output.prefix := "part"; Output.row_group_size := 2 |} in
   let st := {| Output.my_batches := [[1; 2]%nat]; Output.name := 0;
                Output.storage := [] |} in
   Output.run cfg Output.init [[Some [1; 2]%nat]] 0 = Ok st ∧
   Output.done cfg st 0 =
     Ok (Some ["part-0-1-0.csv"],
         {| Output.my_batches := [[1; 2]%nat]; Output.name := 1;
            Output.storage := [("out/part-0-0.csv", [1; 2]%nat)] |})) ∧
  ¬ OutputSpec.row_group_accounting nat.
Proof.
  split; [by vm_compute|]. intros H.
  pose (cfg := {| Output.filepath := "out"; Output.format := Output.csv;
                  Output.prefix := "part"; Output.row_group_size := 2 |}).
  destruct (H cfg [[Some [1; 2]%nat]] 0
              {| Output.my_batches := [[1; 2]%nat]; Output.name := 0;
                 Output.storage := [] |}
              (Some ["part-0-1-0.csv"])
              {| Output.my_batches := [[1; 2]%nat]; Output.name := 1;
                 Output.storage := [("out/part-0-0.csv", [1; 2]%nat)] |})
    as (_ & Hcount & _); [simpl; lia|by vm_compute|by vm_compute|].
  vm_compute in Hcount. discriminate.
Qed.

(** C2, amended. For a positive row-group size R, the execute calls of a
    run never fail and write only files of exactly R rows; with N rows
    delivered they leave b ≤ R rows buffered, where (files written)·R + b
    = N, so that they have written floor(N/R) files and b = N mod R
    unless the buffer holds exactly R rows; and when some row was
    delivered, done writes exactly one more file, holding the b buffered
    rows, if b > 0, and no file if b = 0. *)
Theorem output_row_groups {R : Type} (cfg : Output.Config)
    (calls : list (list (option (list R)))) (eid : Z) :
  (0 < Output.row_group_size cfg)%nat →
  ∃ st, Output.run cfg Output.init calls eid = Ok st ∧
    let n := length (Output.delivered calls) in
    let rgs := Output.row_group_size cfg in
    let b := length (concat (Output.my_batches st)) in
    Forall (λ f, length f.2 = rgs) (Output.storage st) ∧
    (b ≤ rgs)%nat ∧
    (length (Output.storage st) * rgs + b = n)%nat ∧
    (b ≠ rgs → b = (n `mod` rgs)%nat ∧
               length (Output.storage st) = (n / rgs)%nat) ∧
    ((0 < n)%nat → ∃ manifest st',
       Output.done cfg st eid = Ok (Some manifest, st') ∧
       Output.storage st' =
         Output.storage st ++
           (if decide (b = 0)%nat then []
            else [(Output.basename_template cfg eid (Output.name st),
                   concat (Output.my_batches st))])).
Proof.
  intros HR.
  destruct (output_run_spec cfg calls eid HR Output.init)
    as (files & my & Hrun & Hn & Hall & Hrows & Hle & Hnil); [simpl; lia|].
  eexists. split; [exact Hrun|]. cbn [Output.my_batches Output.storage Output.name].
  simpl in Hrows, Hn, Hnil |- *.
  pose proof (length_concat_uniform _ _ Hall) as Hlen.
  rewrite length_fmap in Hlen.
  assert (length files * Output.row_group_size cfg + length (concat my)
          = length (Output.delivered calls))%nat as Hsum
    by (rewrite <-Hrows, length_app; lia).
  split; [by apply Forall_fmap in Hall|]. split; [done|]. split; [done|].
  split.
  { intros Hb. split.
    - apply (Nat.mod_unique _ _ (length files)); lia.
    - apply (Nat.div_unique _ _ _ (length (concat my))); lia. }
  intros Hpos. unfold Output.done. cbn [Output.my_batches].
  destruct my as [|b0 my]; [destruct Hnil as [_ Hd]; [done|]; rewrite Hd in Hpos; simpl in Hpos; lia|].
  cbn [concat_tables mbind result_bind]. unfold Output.upload_write_batch.
  rewrite decide_False by lia. cbn [mbind result_bind].
  edestruct (upload_from_spec cfg eid (concat (b0 :: my))
               (length (concat (b0 :: my))) 0)
    as (final & -> & Hfn & Hfc & Hfq & Hf1); [done|lia|].
  eexists _, _. split; [reflexivity|]. cbn [Output.storage]. f_equal.
  rewrite Nat.sub_0_r, drop_0 in *. case_decide as Hb.
  - destruct (Hfq 0%nat) as [Hl _]; [lia|]. by apply nil_length_inv.
  - specialize (Hf1 ltac:(lia)).
    destruct final as [|[path rows] [|? ?]]; simpl in Hf1, Hfn; try done.
    injection Hf1 as ->. injection Hfn as ->.
    cbn [Output.name]. by rewrite Nat.add_0_r.
Qed.

Lemma output_row_groups_witness :
  let cfg := {| Output.filepath := "out"; Output.format := Output.csv;
                Output.prefix := "part"; Output.row_group_size := 2 |} in
  ∃ st, Output.run cfg Output.init [[Some [1; 2; 3]%nat]; [None; Some [4; 5]%nat]] 0
        = Ok st ∧
    let n := length (Output.delivered [[Some [1; 2; 3]%nat]; [None; Some [4; 5]%nat]]) in
    let rgs := Output.row_group_size cfg in
    let b := length (concat (Output.my_batches st)) in
    Forall (λ f, length f.2 = rgs) (Output.storage st) ∧
    (b ≤ rgs)%nat ∧
    (length (Output.storage st) * rgs + b = n)%nat ∧
    (b ≠ rgs → b = (n `mod` rgs)%nat ∧
               length (Output.storage st) = (n / rgs)%nat) ∧
    ((0 < n)%nat → ∃ manifest st',
       Output.done cfg st 0 = Ok (Some manifest, st') ∧
       Output.storage st' =
         Output.storage st ++
           (if decide (b = 0)%nat then []
            else [(Output.basename_template cfg 0 (Output.name st),
                   concat (Output.my_batches st))])).
Proof.
  intros cfg.
  apply (output_row_groups cfg [[Some [1; 2; 3]%nat]; [None; Some [4; 5]%nat]] 0).
  simpl. lia.
Defined.

(** C9, at the failing input: with row-group size 2, one call delivering
    three rows writes [out/part-0-0.csv], and the manifest it returns
    names [part-0-1-0.csv]. *)
Example output_manifest_names_other_files :
  Output.execute
    {| Output.filepath := "out"; Output.format := Output.csv;
       Output.prefix := "part"; Output.row_group_size := 2 |}
    Output.init [Some [1; 2; 3]%nat] 0 =
  Ok (Some ["part-0-1-0.csv"],
      {| Output.my_batches := [[3%nat]]; Output.name := 1;
         Output.storage := [("out/part-0-0.csv", [1; 2]%nat)] |}).
Proof. by vm_compute. Qed.

(** ** External merge sort: the producer *)

Section SortProducer.
Import SuperFastSort.

Global Instance key_le_total : Total key_le.
Proof. intros a b. unfold key_le. lia. Qed.
Global Instance key_le_trans : Transitive key_le.
Proof. intros a b c. unfold key_le. lia. Qed.
Global Instance values_le_total : Total values_le.
Proof. intros a b. unfold values_le. lia. Qed.
Global Instance values_le_trans : Transitive values_le.
Proof. intros a b c. unfold values_le. lia. Qed.

Lemma sort_perm t : sort t ≡ₚ t.
Proof. apply merge_sort_Permutation. Qed.

Lemma sort_sorted t : StronglySorted key_le (sort t).
Proof. apply StronglySorted_merge_sort; apply _. Qed.

Lemma sort_index_perm t : sort_index t ≡ₚ t.
Proof. apply merge_sort_Permutation. Qed.

Lemma sort_index_sorted t : StronglySorted values_le (sort_index t).
Proof. apply StronglySorted_merge_sort; apply _. Qed.

Lemma to_batches_concat fuel c t :
  (0 < c)%nat → (length t ≤ fuel)%nat → concat (to_batches fuel c t) = t.
Proof.
  intros Hc. revert t. induction fuel as [|fuel IH]; intros t Hlen.
  { by destruct t; [|simpl in Hlen; lia]. }
  destruct t as [|r t]; [done|]. cbn [to_batches concat].
  rewrite IH; [apply take_drop|].
  rewrite length_drop. simpl in *. lia.
Qed.

Lemma to_batches_nonempty c t :
  t ≠ [] → to_batches (length t) c t ≠ [].
Proof. by destruct t. Qed.

Lemma string_length_app (a t : string) :
  String.length (a +:+ t) = (String.length a + String.length t)%nat.
Proof. induction a as [|c a IH]; simpl; [done|by rewrite IH]. Qed.

Lemma string_app_inj_r (a b t : string) : a +:+ t = b +:+ t → a = b.
Proof.
  intros H.
  assert (String.length a = String.length b) as Hlen.
  { apply (f_equal String.length) in H.
    rewrite !string_length_app in H. lia. }
  revert b H Hlen. induction a as [|c a IH]; intros [|d b] H Hlen;
    simpl in *; try done.
  injection H as -> H. f_equal. apply IH; [done|lia].
Qed.

Lemma flush_file_name_inj cfg eid i j :
  flush_file_name cfg eid i = flush_file_name cfg eid j → i = j.
Proof.
  unfold flush_file_name. intros H.
  do 5 apply String.app_inj in H.
  by apply string_app_inj_r, pretty_nat_inj in H.
Qed.

Lemma zip_replicate_entries (b : list Row) n f :
  length b = n → zip (key <$> b) (replicate n f) = entries f b.
Proof.
  intros <-. unfold entries. induction b as [|r b IH]; simpl; [done|].
  f_equal. exact IH.
Qed.

Lemma index_from_app s l1 l2 :
  index_from s (l1 ++ l2) = index_from s l1 ++ index_from (s + length l1) l2.
Proof.
  revert s. induction l1 as [|b l1 IH]; intros s; simpl.
  - by rewrite Nat.add_0_r.
  - rewrite IH, <-app_assoc. do 3 f_equal. lia.
Qed.

Lemma filter_entries_eq f b :
  filter (λ e : Z * nat, e.2 = f) (entries f b) = entries f b.
Proof.
  unfold entries. induction b as [|r b IH]; [done|].
  rewrite fmap_cons, filter_cons_True by done. by rewrite IH.
Qed.

Lemma filter_entries_ne f g b :
  g ≠ f → filter (λ e : Z * nat, e.2 = f) (entries g b) = [].
Proof.
  intros Hne. unfold entries. induction b as [|r b IH]; [done|].
  rewrite fmap_cons, filter_cons_False by done. exact IH.
Qed.

Lemma filter_index_from f s files :
  filter (λ e : Z * nat, e.2 = f) (index_from s files) =
  if decide (s ≤ f)%nat then default [] (entries f <$> files !! (f - s)%nat)
  else [].
Proof.
  revert s. induction files as [|b files IH]; intros s; simpl.
  { by case_decide. }
  rewrite filter_app, IH.
  destruct (decide (s = f)) as [->|Hne].
  - rewrite filter_entries_eq, Nat.sub_diag.
    repeat case_decide; try lia. simpl. by rewrite app_nil_r.
  - rewrite filter_entries_ne by done. simpl.
    repeat case_decide; try lia; [|done].
    replace (f - s)%nat with (S (f - S s)) by lia. done.
Qed.

Lemma execute_produced cfg eid st files batches :
  produced cfg eid st files →
  ∃ st' new,
    execute cfg st batches eid = Ok (None, st') ∧
    produced cfg eid st' (files ++ new) ∧
    concat new ≡ₚ concat (live batches).
Proof.
  intros Hp. pose proof Hp as (Hno & Hidx & Hfiles). unfold execute.
  destruct (live batches) as [|b0 bl] eqn:Hl.
  { exists st, []. rewrite app_nil_r. simpl. done. }
  rewrite decide_False by done.
  set (batch := concat (b0 :: bl)).
  assert (batch ≠ []) as Hne.
  { unfold batch. simpl. intros [H _]%app_eq_nil.
    apply (live_rows batches b0); [rewrite Hl; left|done]. }
  eexists _, [sort batch]. split; [reflexivity|]. split.
  2:{ simpl. rewrite app_nil_r. apply sort_perm. }
  split; [|split]; cbn [fileno in_mem_state disk].
  - rewrite length_app. simpl. lia.
  - rewrite zip_replicate_entries
      by (by rewrite (Permutation_length (sort_perm batch))).
    rewrite Hidx, Hno. rewrite index_from_app. simpl.
    rewrite app_nil_r. by destruct files.
  - intros f b Hb. unfold write_out_df_to_disk.
    apply lookup_app_Some in Hb as [Hb|[Hge Hb]].
    + destruct (Hfiles f b Hb) as (? & ? & Hd). split; [done|]. split; [done|].
      rewrite lookup_insert_ne; [done|].
      intros Heq%flush_file_name_inj. apply lookup_lt_Some in Hb. lia.
    + apply list_lookup_singleton_Some in Hb as [Hf <-].
      replace f with (fileno st) by lia. rewrite lookup_insert_eq.
      split; [|split; [apply sort_sorted|done]].
      intros Hs. apply Hne. apply Permutation_nil_r. rewrite <-Hs.
      symmetry. apply sort_perm.
Qed.

Lemma run_produced cfg eid calls st files :
  produced cfg eid st files →
  ∃ st' new,
    run cfg st calls eid = Ok st' ∧
    produced cfg eid st' (files ++ new) ∧
    concat new ≡ₚ delivered calls.
Proof.
  revert st files. induction calls as [|batches calls IH]; intros st files Hp.
  { exists st, []. rewrite app_nil_r. simpl. done. }
  destruct (execute_produced cfg eid st files batches Hp)
    as (st1 & new1 & Hex & Hp1 & Hperm1).
  destruct (IH st1 _ Hp1) as (st2 & new2 & Hrun & Hp2 & Hperm2).
  exists st2, (new1 ++ new2). cbn [run]. rewrite Hex. simpl.
  split; [done|]. split; [by rewrite app_assoc|].
  unfold delivered. cbn [fmap list_fmap concat].
  rewrite !concat_app. by rewrite Hperm1, Hperm2.
Qed.

End SortProducer.

(** ** External merge sort: the consumer *)

Section SortConsumer.
Import SuperFastSort.
Implicit Types (sources : gmap nat (list (list Row))) (cur : Cursor).

Lemma length_filter_file (l : list (Z * nat)) f :
  length (filter (λ g, g = f) l.*2) = length (filter (λ e, e.2 = f) l).
Proof.
  induction l as [|e l IH]; [done|].
  rewrite fmap_cons, !filter_cons. repeat case_decide; simpl; congruence.
Qed.

(** The refill loop never runs dry while the file still has the rows
    asked for. *)
Lemma refill_spec bs d rows fuel c j :
  c ++ concat (drop j bs) = rows → (j ≤ length bs)%nat →
  (d ≤ length rows)%nat → (length bs - j ≤ fuel)%nat →
  ∃ c' j',
    refill fuel bs d c j = Ok (c', j') ∧
    c' ++ concat (drop j' bs) = rows ∧ (j' ≤ length bs)%nat ∧
    (d ≤ length c')%nat.
Proof.
  intros Hrows Hj Hd. revert c j Hrows Hj.
  induction fuel as [|fuel IH]; intros c j Hrows Hj Hfuel.
  - simpl. case_decide as Hlt; [|exists c, j; split; [done|]; repeat split; [done..|lia]].
    exfalso. rewrite drop_ge in Hrows by lia. simpl in Hrows.
    rewrite app_nil_r in Hrows. subst. lia.
  - simpl. case_decide as Hlt; [|exists c, j; split; [done|]; repeat split; [done..|lia]].
    case_decide as Hend.
    { exfalso. rewrite drop_ge in Hrows by lia. simpl in Hrows.
      rewrite app_nil_r in Hrows. subst. lia. }
    destruct (lookup_lt_is_Some_2 bs j) as [b Hb]; [lia|]. rewrite Hb.
    apply IH; [|apply lookup_lt_Some in Hb; lia|lia].
    rewrite <-Hrows, (drop_S _ _ _ Hb). simpl. by rewrite app_assoc.
Qed.

Lemma pull_spec sources cur f d rows :
  remaining sources cur f rows → (d ≤ length rows)%nat →
  ∃ cur',
    pull sources cur f d = Ok (take d rows, cur') ∧
    remaining sources cur' f (drop d rows) ∧
    ∀ g rows', g ≠ f → remaining sources cur g rows' →
               remaining sources cur' g rows'.
Proof.
  intros (bs & c & j & Hs & Hc & Hj & Hle & Hrows) Hd.
  unfold pull, getitem. rewrite Hc, Hj, Hs. cbn [mbind result_bind].
  destruct (refill_spec bs d rows (length bs) c j)
    as (c' & j' & -> & Hrows' & Hle' & Hd'); [done|done|done|lia|].
  cbn [mbind result_bind]. eexists. split.
  { do 2 f_equal. rewrite <-Hrows'. by rewrite take_app_le. }
  split.
  - exists bs, (drop d c'), j'. cbn [cached_batches current_number_for_source].
    rewrite !lookup_insert_eq. repeat split; [done..|].
    rewrite <-Hrows'. by rewrite drop_app_le by done.
  - intros g rows' Hne (bs' & cg & jg & ? & ? & ? & ? & ?).
    exists bs', cg, jg. cbn [cached_batches current_number_for_source].
    by rewrite !lookup_insert_ne.
Qed.

(** Taking rows off one source moves them from what remains to what is
    handed out. *)
Lemma concat_update_perm (rem rem1 : nat → list Row) (fs : list nat) f d :
  NoDup fs → f ∈ fs →
  rem1 f = drop d (rem f) → (∀ g, g ≠ f → rem1 g = rem g) →
  take d (rem f) ++ concat (rem1 <$> fs) ≡ₚ concat (rem <$> fs).
Proof.
  intros Hnd Hin Hf Hg. induction Hnd as [|g fs Hnotin Hnd IH].
  { by apply elem_of_nil in Hin. }
  rewrite !fmap_cons. cbn [concat].
  destruct (decide (g = f)) as [->|Hne].
  - rewrite Hf, app_assoc, take_drop.
    replace (rem1 <$> fs) with (rem <$> fs); [done|].
    apply list_fmap_ext. intros i g Hi. symmetry. apply Hg.
    intros ->. apply Hnotin. by eapply list_elem_of_lookup_2.
  - apply elem_of_cons in Hin as [->|Hin]; [done|].
    rewrite (Hg g Hne), app_assoc.
    rewrite (Permutation_app_comm (take d (rem f))), <-app_assoc.
    by rewrite (IH Hin).
Qed.

Lemma pull_all_spec sources (fs : list nat) reqs :
  NoDup fs →
  ∀ cur (rem : nat → list Row),
    NoDup reqs.*1 →
    (∀ f d, (f, d) ∈ reqs → f ∈ fs ∧ (d ≤ length (rem f))%nat) →
    (∀ f, f ∈ fs → remaining sources cur f (rem f)) →
    ∃ cur' rem',
      pull_all sources cur reqs =
        Ok ((λ p, take p.2 (rem p.1)) <$> reqs, cur') ∧
      (∀ f, f ∈ fs → remaining sources cur' f (rem' f)) ∧
      (∀ f, f ∉ reqs.*1 → rem' f = rem f) ∧
      (∀ f d, (f, d) ∈ reqs → rem' f = drop d (rem f)) ∧
      concat ((λ p, take p.2 (rem p.1)) <$> reqs) ++ concat (rem' <$> fs)
        ≡ₚ concat (rem <$> fs).
Proof.
  intros Hfs. induction reqs as [|[f d] reqs IH]; intros cur rem Hnd Hreq Hrem.
  { exists cur, rem. simpl. repeat split; try done.
    by intros ?? ?%elem_of_nil. }
  rewrite fmap_cons in Hnd. apply NoDup_cons in Hnd as [Hnotin Hnd].
  destruct (Hreq f d) as [Hf Hd]; [left|].
  destruct (pull_spec sources cur f d (rem f) (Hrem f Hf) Hd)
    as (cur1 & Hpull & Hrem1 & Hother).
  set (rem1 := λ g, if decide (g = f) then drop d (rem f) else rem g).
  assert (∀ g, g ≠ f → rem1 g = rem g) as Hrem1_ne
    by (intros g Hg; unfold rem1; by rewrite decide_False).
  assert (rem1 f = drop d (rem f)) as Hrem1_eq
    by (unfold rem1; by rewrite decide_True).
  assert (∀ g d', (g, d') ∈ reqs → g ≠ f) as Hreqs_ne.
  { intros g d' Hin ->. apply Hnotin.
    apply list_elem_of_fmap. by exists (f, d'). }
  destruct (IH cur1 rem1 Hnd) as (cur2 & rem2 & Hall & Hrem2 & Hout & Hin & Hperm).
  { intros g d' Hg. rewrite (Hrem1_ne g) by eauto.
    apply Hreq. by right. }
  { intros g Hg. destruct (decide (g = f)) as [->|Hne].
    - by rewrite Hrem1_eq.
    - rewrite Hrem1_ne by done. apply Hother; auto. }
  assert ((λ p : nat * nat, take p.2 (rem1 p.1)) <$> reqs
          = (λ p : nat * nat, take p.2 (rem p.1)) <$> reqs) as Heq.
  { apply list_fmap_ext. intros i [g d'] Hi. simpl.
    rewrite Hrem1_ne; [done|].
    apply (Hreqs_ne g d'). by eapply list_elem_of_lookup_2. }
  rewrite Heq in Hall, Hperm.
  exists cur2, rem2. cbn [pull_all]. rewrite Hpull. cbn [mbind result_bind].
  rewrite Hall. cbn [mbind result_bind].
  split; [done|]. split; [done|]. split; [|split].
  - intros g Hg. rewrite fmap_cons, not_elem_of_cons in Hg.
    destruct Hg as [Hgf Hg]. simpl in Hgf.
    rewrite Hout by done. by apply Hrem1_ne.
  - intros g d' [[= -> ->]|Hg]%elem_of_cons.
    + rewrite Hout by done. done.
    + rewrite (Hin g d' Hg). f_equal. apply Hrem1_ne. eauto.
  - rewrite fmap_cons. cbn [concat fst snd]. rewrite <-app_assoc, Hperm.
    by apply concat_update_perm.
Qed.

End SortConsumer.

Section SortMerge.
Import SuperFastSort.
Variables (cfg : Config) (sources : gmap nat (list (list Row))).
Variables (index : list (Z * nat)) (n : nat).
Let B := Z.to_nat (output_batch_rows cfg).
Hypothesis HB : (0 < B)%nat.
Hypothesis Hsorted : StronglySorted values_le index.
Hypothesis Hfiles : ∀ e, e ∈ index → (e.2 < n)%nat.

Lemma concat_all_nil (rem : nat → list Row) (fs : list nat) :
  (∀ f, f ∈ fs → rem f = []) → concat (rem <$> fs) = [].
Proof.
  induction fs as [|f fs IH]; intros H; [done|].
  rewrite fmap_cons. cbn [concat]. rewrite (H f) by left.
  apply IH. intros g Hg. apply H. by right.
Qed.

Lemma merge_inv_end cur rem :
  merge_inv sources n [] cur rem → concat (rem <$> seq 0 n) = [].
Proof.
  intros Hinv. apply concat_all_nil. intros f Hf%elem_of_seq.
  destruct (Hinv f) as [_ Hkeys]; [lia|]. by apply fmap_nil_inv in Hkeys.
Qed.

(** One turn of the [for] loop. *)
Lemma assemble_spec k cur rem :
  (k < length index)%nat →
  merge_inv sources n (drop k index) cur rem →
  ∃ out cur' rem',
    assemble cfg sources index k cur = Ok (out, cur') ∧
    merge_inv sources n (drop (k + B) index) cur' rem' ∧
    StronglySorted key_le out ∧
    (∀ r, r ∈ out → key r ∈ (take B (drop k index)).*1) ∧
    out ++ concat (rem' <$> seq 0 n) ≡ₚ concat (rem <$> seq 0 n).
Proof.
  intros Hk Hinv. unfold assemble. fold B.
  set (T := drop k index) in *. set (things := take B T).
  set (reqs := groupby_count things.*2).
  assert (reqs.*1 = remove_dups things.*2) as Hreqs1.
  { unfold reqs, groupby_count. rewrite <-list_fmap_compose.
    rewrite <-(list_fmap_id (remove_dups _)) at 2.
    by apply list_fmap_ext. }
  assert (∀ f, (f, length (filter (λ e : Z * nat, e.2 = f) things)) ∈ reqs
               ↔ f ∈ things.*2) as Hreq_in.
  { intros f. unfold reqs, groupby_count. rewrite list_elem_of_fmap. split.
    - intros (g & [= -> _] & Hg). by apply elem_of_remove_dups.
    - intros Hf. exists f. rewrite length_filter_file.
      split; [done|by apply elem_of_remove_dups]. }
  assert (∀ f d, (f, d) ∈ reqs →
            f ∈ things.*2 ∧
            d = length (filter (λ e : Z * nat, e.2 = f) things)) as Hreq_d.
  { intros f d (g & [= -> ->] & Hg)%list_elem_of_fmap.
    split; [by apply elem_of_remove_dups|apply length_filter_file]. }
  assert (∀ f, f ∈ things.*2 → (f < n)%nat) as Hthings_n.
  { intros f (e & -> & He)%list_elem_of_fmap. apply Hfiles.
    by apply (subseteq_drop k), (subseteq_take B). }
  assert (∀ f, (f < n)%nat →
            (length (filter (λ e : Z * nat, e.2 = f) things)
             ≤ length (rem f))%nat) as Hlen.
  { intros f Hf. destruct (Hinv f Hf) as [_ Hkeys].
    apply (f_equal length) in Hkeys. rewrite !length_fmap in Hkeys.
    rewrite Hkeys. rewrite <-(take_drop B T) at 1.
    rewrite filter_app, length_app. fold things. lia. }
  destruct (pull_all_spec sources (seq 0 n) reqs (NoDup_seq 0 n) cur rem)
    as (cur' & rem' & Hall & Hrem' & Hout & Hin & Hperm).
  { rewrite Hreqs1. apply NoDup_remove_dups. }
  { intros f d Hfd. destruct (Hreq_d f d Hfd) as [Hf ->].
    pose proof (Hthings_n f Hf). split; [apply elem_of_seq; lia|by apply Hlen]. }
  { intros f Hf%elem_of_seq. apply Hinv. lia. }
  rewrite Hall. cbn [mbind result_bind].
  set (outs := (λ p : nat * nat, take p.2 (rem p.1)) <$> reqs) in *.
  assert (polars_concat outs = Ok (concat outs)) as ->.
  { destruct outs as [|o outs'] eqn:Houts; [|done].
    apply fmap_nil_inv in Houts.
    destruct things as [|e things'] eqn:Hth.
    - unfold things in Hth. apply (f_equal length) in Hth.
      rewrite length_take in Hth. unfold T in Hth.
      rewrite length_drop in Hth. simpl in Hth. lia.
    - assert (e.2 ∈ (e :: things').*2) as He by (rewrite fmap_cons; left).
      apply Hreq_in in He. rewrite Houts in He. by apply elem_of_nil in He. }
  cbn [mbind result_bind].
  exists (sort (concat outs)), cur', rem'. split; [done|]. split; [|split; [|split]].
  - intros f Hf. split; [apply Hrem', elem_of_seq; lia|].
    rewrite <-drop_drop. fold T. destruct (Hinv f Hf) as [_ Hkeys].
    destruct (decide (f ∈ things.*2)) as [Hfin|Hfnot].
    + rewrite (Hin f _ (proj2 (Hreq_in f) Hfin)).
      rewrite fmap_drop, Hkeys, <-fmap_drop. f_equal.
      symmetry. apply filter_drop_suffix.
    + rewrite Hout by (by rewrite Hreqs1, elem_of_remove_dups).
      rewrite Hkeys. f_equal. rewrite <-(take_drop B T) at 1.
      rewrite filter_app. fold things.
      destruct (filter _ things) as [|e l] eqn:Hfil; [done|].
      exfalso. apply Hfnot.
      assert (e ∈ filter (λ e : Z * nat, e.2 = f) things) as He
        by (rewrite Hfil; left).
      apply list_elem_of_filter in He as [<- He].
      by apply list_elem_of_fmap_2.
  - apply sort_sorted.
  - intros r Hr. rewrite sort_perm in Hr.
    apply elem_of_concat in Hr as (l & Hl & Hr).
    apply list_elem_of_fmap in Hl as ([f d] & -> & Hfd). simpl in Hr.
    destruct (Hreq_d f d Hfd) as [Hf ->].
    destruct (Hinv f (Hthings_n f Hf)) as [_ Hkeys].
    apply (list_elem_of_fmap_2 key) in Hr.
    rewrite fmap_take, Hkeys, <-fmap_take in Hr.
    unfold things in Hr. rewrite <-filter_take_prefix in Hr.
    apply list_elem_of_fmap in Hr as (e & -> & [_ He]%list_elem_of_filter).
    by apply list_elem_of_fmap_2.
  - by rewrite sort_perm.
Qed.

(** The whole loop, from position [k] on. *)
Lemma yield_all_spec fuel :
  ∀ k cur rem,
    (length index - k ≤ fuel)%nat →
    merge_inv sources n (drop k index) cur rem →
    ∃ outs,
      yield_all cfg sources index (range_from fuel k (length index) B) cur
        = (outs, None) ∧
      Forall (StronglySorted key_le) outs ∧
      (∀ out r, out ∈ outs → r ∈ out → key r ∈ (drop k index).*1) ∧
      ascending outs ∧
      concat outs ≡ₚ concat (rem <$> seq 0 n).
Proof.
  induction fuel as [|fuel IH]; intros k cur rem Hfuel Hinv.
  { exists []. simpl. split; [done|]. split; [done|].
    split; [by intros ?? ?%elem_of_nil|]. split; [by intros [|?] ?????|].
    rewrite drop_ge in Hinv by lia. by rewrite (merge_inv_end cur rem). }
  cbn [range_from]. case_decide as Hk.
  2:{ exists []. simpl. split; [done|]. split; [done|].
      split; [by intros ?? ?%elem_of_nil|]. split; [by intros [|?] ?????|].
      rewrite drop_ge in Hinv by lia. by rewrite (merge_inv_end cur rem). }
  destruct (assemble_spec k cur rem Hk Hinv)
    as (out & cur' & rem' & Hasm & Hinv' & Hsort & Hkeys & Hperm).
  destruct (IH (k + B)%nat cur' rem' ltac:(lia) Hinv')
    as (later & Hlater & Hsorted' & Hkeys' & Hasc & Hperm').
  exists (out :: later). cbn [yield_all]. rewrite Hasm, Hlater.
  split; [done|]. split; [by constructor|]. split; [|split].
  - intros o r [->|Ho]%elem_of_cons Hr.
    + apply Hkeys in Hr as (e & -> & He)%list_elem_of_fmap.
      apply list_elem_of_fmap_2. by apply (subseteq_take B).
    + pose proof (Hkeys' o r Ho Hr) as (e & -> & He)%list_elem_of_fmap.
      apply list_elem_of_fmap_2. rewrite <-drop_drop in He.
      by apply (subseteq_drop B).
  - intros [|i] a b ra rb Ha Hb Hra Hrb; simpl in Ha, Hb.
    + injection Ha as <-.
      apply Hkeys in Hra as (ea & Hea & Hina)%list_elem_of_fmap.
      assert (b ∈ later) as Hbl by (by eapply list_elem_of_lookup_2).
      pose proof (Hkeys' b rb Hbl Hrb) as (eb & Heb & Hinb)%list_elem_of_fmap.
      rewrite <-drop_drop in Hinb. rewrite Hea, Heb.
      assert (StronglySorted values_le
                (take B (drop k index) ++ drop B (drop k index))) as Hs.
      { rewrite take_drop. clear -Hsorted.
        revert k. induction Hsorted as [|e l Hl IHl He]; intros [|k]; simpl;
          try constructor; auto. }
      by apply (StronglySorted_app_1_elem_of _ _ _ ea eb) in Hs.
    + by apply (Hasc i a b).
  - cbn [concat]. by rewrite Hperm', Hperm.
Qed.

End SortMerge.

Section SortDone.
Import SuperFastSort.

Lemma open_sources_spec cfg eid (d : gmap string (list (list Row))) n :
  (∀ f, (f < n)%nat → is_Some (d !! flush_file_name cfg eid f)) →
  ∃ sources,
    open_sources cfg eid d n = Ok sources ∧
    (∀ f, (f < n)%nat → sources !! f = d !! flush_file_name cfg eid f) ∧
    (∀ f, (n ≤ f)%nat → sources !! f = None).
Proof.
  induction n as [|n IH]; intros Hd.
  { exists ∅. split; [done|]. split; [lia|]. intros. apply lookup_empty. }
  destruct IH as (sources & Hopen & Hlt & Hge); [intros; apply Hd; lia|].
  destruct (Hd n) as [file Hfile]; [lia|].
  exists (<[n := file]> sources). cbn [open_sources]. rewrite Hopen.
  cbn [mbind result_bind]. rewrite Hfile. split; [done|]. split.
  - intros f Hf. destruct (decide (f = n)) as [->|Hne].
    + by rewrite lookup_insert_eq.
    + rewrite lookup_insert_ne by done. apply Hlt. lia.
  - intros f Hf. rewrite lookup_insert_ne by lia. apply Hge. lia.
Qed.

Lemma index_from_files s files e :
  e ∈ index_from s files → (s ≤ e.2 < s + length files)%nat.
Proof.
  revert s. induction files as [|b files IH]; intros s; simpl.
  { by intros ?%elem_of_nil. }
  intros [He|He]%elem_of_app.
  - apply list_elem_of_fmap in He as (r & -> & _). simpl. lia.
  - apply IH in He. lia.
Qed.

Lemma files_by_number (files : list (list Row)) :
  (λ f, default [] (files !! f)) <$> seq 0 (length files) = files.
Proof.
  apply list_eq. intros i. rewrite list_lookup_fmap.
  destruct (decide (i < length files)%nat) as [Hi|Hi].
  - rewrite lookup_seq_lt by done. simpl.
    destruct (lookup_lt_is_Some_2 files i Hi) as [b ->]. done.
  - rewrite lookup_seq_ge by lia. simpl. symmetry.
    apply lookup_ge_None. lia.
Qed.

(** A sorted table and the sorted index agree on the keys of a file. *)
Lemma sorted_index_keys (files : list (list Row)) f b :
  files !! f = Some b → StronglySorted key_le b →
  key <$> b =
    (filter (λ e : Z * nat, e.2 = f) (sort_index (index_from 0 files))).*1.
Proof.
  intros Hb Hs. apply (StronglySorted_unique Z.le).
  - by apply (StronglySorted_fmap _ key_le Z.le).
  - apply (StronglySorted_fmap _ values_le Z.le); [done|].
    apply StronglySorted_filter, sort_index_sorted.
  - rewrite sort_index_perm, filter_index_from.
    rewrite decide_True by lia. rewrite Nat.sub_0_r, Hb. simpl.
    unfold entries. by rewrite <-list_fmap_compose.
Qed.

(** The consumer on what the producer built. *)
Lemma done_produced cfg eid st files :
  0 < output_batch_rows cfg →
  produced cfg eid st files →
  ∃ outs,
    done cfg st eid =
      (outs, match files with [] => Some AttributeError | _ => None end) ∧
    Forall (StronglySorted key_le) outs ∧
    ascending outs ∧
    concat outs ≡ₚ concat files.
Proof.
  intros HB (Hno & Hidx & Hfiles). unfold done. rewrite Hidx.
  destruct (decide (files = [])) as [->|Hne].
  { exists []. split; [done|]. split; [done|]. split; [|done].
    by intros [|?] ?????. }
  assert (in_mem_idx : match files with
                       | [] => None
                       | _ => Some (index_from 0 files)
                       end = Some (index_from 0 files)) by (by destruct files).
  rewrite in_mem_idx. set (index := sort_index (index_from 0 files)).
  destruct (open_sources_spec cfg eid (disk st) (fileno st))
    as (sources & -> & Hlt & Hge).
  { intros f Hf. rewrite Hno in Hf.
    destruct (lookup_lt_is_Some_2 files f Hf) as [b Hb].
    destruct (Hfiles f b Hb) as (_ & _ & ->). eauto. }
  cbn [mbind result_bind].
  assert (0 < max_chunksize)%nat as Hchunk by (unfold max_chunksize; lia).
  assert (∀ f b, files !! f = Some b →
            sources !! f = Some (to_batches (length b) max_chunksize b))
    as Hsrc.
  { intros f b Hb. rewrite Hlt by (rewrite Hno; by eapply lookup_lt_Some).
    by destruct (Hfiles f b Hb) as (_ & _ & ->). }
  unfold open_cursor. rewrite decide_True; last first.
  { apply map_Forall_lookup. intros f file Hfile.
    destruct (decide (f < length files)%nat) as [Hf|Hf].
    - destruct (lookup_lt_is_Some_2 files f Hf) as [b Hb].
      rewrite (Hsrc f b Hb) in Hfile. injection Hfile as <-.
      apply to_batches_nonempty. by destruct (Hfiles f b Hb). 
    - rewrite Hge in Hfile by lia. done. }
  cbn [mbind result_bind]. unfold py_range.
  rewrite decide_False by lia. rewrite decide_False by lia.
  cbn [mbind result_bind].
  set (cur := {| cached_batches := _ |}).
  set (rem := λ f, default [] (files !! f)).
  destruct (yield_all_spec cfg sources index (length files))
    with (fuel := length index) (k := 0%nat) (cur := cur) (rem := rem)
    as (outs & Hy & Hsorted & _ & Hasc & Hperm).
  - lia.
  - apply sort_index_sorted.
  - intros e He. unfold index in He. rewrite sort_index_perm in He.
    apply index_from_files in He. lia.
  - lia.
  - intros f Hf. destruct (lookup_lt_is_Some_2 files f Hf) as [b Hb].
    destruct (Hfiles f b Hb) as (Hbne & Hbs & _).
    unfold rem. rewrite Hb. simpl. split.
    + exists (to_batches (length b) max_chunksize b).
      pose proof (to_batches_nonempty max_chunksize b Hbne) as Hnb.
      pose proof (to_batches_concat (length b) max_chunksize b Hchunk
                    ltac:(lia)) as Hcat.
      destruct (to_batches (length b) max_chunksize b) as [|x bs] eqn:Hbs';
        [done|].
      exists x, 1%nat. unfold cur. cbn [cached_batches current_number_for_source].
      rewrite !lookup_fmap, (Hsrc f b Hb), Hbs'. simpl.
      repeat split; [lia|]. by rewrite drop_0.
    + rewrite drop_0. by apply sorted_index_keys.
  - exists outs. rewrite Hy. destruct files; [done|].
    split; [done|]. split; [done|]. split; [done|].
    rewrite Hperm. unfold rem. by rewrite files_by_number.
Qed.

End SortDone.

(** C1. For every sequence of producer calls followed by one consumer
    pass, with a positive [output_batch_rows]: the producer calls all
    return; the rows of the yielded batches are, as a multiset, the rows
    delivered; every yielded batch is sorted ascending by key; no key of
    a yielded batch exceeds a key of the next one; and the pass ends
    without an exception whenever some row was delivered. *)
Theorem merge_sort_correct
    (cfg : SuperFastSort.Config)
    (calls : list (list (option (list SuperFastSort.Row))))
    (eid : Z) (d : gmap string (list (list SuperFastSort.Row))) :
  0 < SuperFastSort.output_batch_rows cfg →
  ∃ st outs outcome,
    SuperFastSort.run cfg (SuperFastSort.init d) calls eid = Ok st ∧
    SuperFastSort.done cfg st eid = (outs, outcome) ∧
    concat outs ≡ₚ SuperFastSort.delivered calls ∧
    Forall (StronglySorted SuperFastSort.key_le) outs ∧
    SuperFastSort.ascending outs ∧
    (SuperFastSort.delivered calls ≠ [] → outcome = None).
Proof.
  intros HB.
  destruct (run_produced cfg eid calls (SuperFastSort.init d) [])
    as (st & files & Hrun & Hprod & Hperm).
  { split; [done|]. split; [done|]. intros f b Hb. by rewrite lookup_nil in Hb. }
  simpl in Hprod.
  destruct (done_produced cfg eid st files HB Hprod)
    as (outs & Hdone & Hsorted & Hasc & Hcat).
  eexists st, outs, _. split; [done|]. split; [done|].
  split; [by rewrite Hcat|]. split; [done|]. split; [done|].
  intros Hne. destruct files; [|done].
  exfalso. apply Hne. by apply Permutation_nil_l in Hperm.
Qed.

Lemma merge_sort_correct_witness :
  let cfg := {| SuperFastSort.output_batch_rows := 2;
                SuperFastSort.prefix := "mergesort";
                SuperFastSort.data_dir := "/data/" |} in
  let r k v := {| SuperFastSort.key := k; SuperFastSort.val := v |} in
  let calls := [[Some [r 5 1; r 1 2]; Some [r 3 3]]; [None];
                [Some [r 4 4; r 2 5; r 6 6]]] in
  ∃ st outs outcome,
    SuperFastSort.run cfg (SuperFastSort.init ∅) calls 0 = Ok st ∧
    SuperFastSort.done cfg st 0 = (outs, outcome) ∧
    concat outs ≡ₚ SuperFastSort.delivered calls ∧
    Forall (StronglySorted SuperFastSort.key_le) outs ∧
    SuperFastSort.ascending outs ∧
    (SuperFastSort.delivered calls ≠ [] → outcome = None).
Proof.
  intros cfg r calls. apply (merge_sort_correct cfg calls 0 ∅). reflexivity.
Defined.

(** The example scenario of the specification, evaluated. *)
Example merge_sort_scenario :
  let cfg := {| SuperFastSort.output_batch_rows := 2;
                SuperFastSort.prefix := "mergesort";
                SuperFastSort.data_dir := "/data/" |} in
  let r k v := {| SuperFastSort.key := k; SuperFastSort.val := v |} in
  (st ← SuperFastSort.run cfg (SuperFastSort.init ∅)
          [[Some [r 5 1; r 1 2]; Some [r 3 3]]; [Some [r 4 4; r 2 5; r 6 6]]] 0;
   Ok (SuperFastSort.done cfg st 0)) =
  Ok ([[r 1 2; r 2 5]; [r 3 3; r 4 4]; [r 5 1; r 6 6]], None).
Proof. by vm_compute. Qed.

(** ** Calls with no input, and [None] entries *)

(** C3, at the failing inputs: on an executor that never received input,
    [OutputExecutor.done] raises from the concatenation of no table,
    [SortedAsofExecutor.done] raises on its [None] buffer, and draining
    the generator [SuperFastSortExecutor.done] returns raises on its
    [None] index; [SQLAggExecutor.done], which tests for [None], returns
    [None]. *)
Theorem done_without_input_raises :
  (∀ (R : Type) (cfg : Output.Config) (eid : Z),
     Output.done cfg (@Output.init R) eid = Raise ValueError) ∧
  SortedAsof.done SortedAsof.init = Raise AttributeError ∧
  (∀ cfg d eid,
     SuperFastSort.done cfg (SuperFastSort.init d) eid =
       ([], Some AttributeError)) ∧
  (∀ (R Out : Type) (sql : list R → list Out),
     SQLAgg.done sql SQLAgg.init = Ok None).
Proof. by repeat split. Qed.

Lemma sum_len_none {R} (pre post : list (option (list R))) :
  sum_len (pre ++ None :: post) = Raise TypeError.
Proof.
  induction pre as [|[b|] pre IH]; simpl; [done| |done]. by rewrite IH.
Qed.

Lemma pa_concat_tables_none {R} (pre post : list (option (list R))) :
  pa_concat_tables (pre ++ None :: post) = Raise TypeError.
Proof.
  unfold pa_concat_tables.
  assert (all_tables (pre ++ None :: post) = Raise TypeError) as ->; [|done].
  induction pre as [|[b|] pre IH]; simpl; [done| |done]. by rewrite IH.
Qed.

(** C4, at the failing inputs: a batch list with a [None] entry makes
    [CountExecutor.execute], [SQLAggExecutor.execute] and
    [SortedAsofExecutor.execute] raise, whatever else the list holds and
    whatever the state. *)
Theorem execute_raises_on_none :
  (∀ (R : Type) st (pre post : list (option (list R))),
     Count.execute st (pre ++ None :: post) = Raise TypeError) ∧
  (∀ (R Out : Type) (st : SQLAgg.State R) (pre post : list (option (list R))),
     SQLAgg.execute (Out := Out) st (pre ++ None :: post) = Raise TypeError) ∧
  (∀ st pre post stream_id,
     SortedAsof.execute st (pre ++ None :: post) stream_id = Raise TypeError).
Proof.
  split; [|split].
  - intros. unfold Count.execute. by rewrite sum_len_none.
  - intros. unfold SQLAgg.execute. by rewrite pa_concat_tables_none.
  - intros. unfold SortedAsof.execute, SortedAsof.absorb.
    by rewrite pa_concat_tables_none.
Qed.

(** The same call with the [None] and empty entries taken out goes
    through. *)
Example execute_without_none :
  Count.execute Count.init (strip [Some [1; 2]; None; Some []; Some [3]])
    = Ok (None, {| Count.state := 3 |}) ∧
  Count.execute Count.init [Some [1; 2]; None; Some []; Some [3]]
    = Raise TypeError.
Proof. by split. Qed.

(** ** Window executors at [done] *)

(** C5, the claim as written fails: the sliding executor keeps the rows
    of the current look-back in state, and its [done] returns nothing. *)
Lemma sliding_done_returns_nothing :
  (let cfg := {| SlidingWindow.size_before := 5;
                 SlidingWindow.trigger := Window.OnEventTrigger |} in
   let r := {| Window.time := 10; Window.by_col := 1; Window.val := 3 |} in
   let rolling := λ (_ : SlidingWindow.Config) (b : list Window.Row),
                    Window.val <$> b in
   SlidingWindow.execute rolling cfg SlidingWindow.init [Some [r]]
     = Ok (Some [3], {| SlidingWindow.state := Some [r] |}) ∧
   SlidingWindow.done (Out := Z) {| SlidingWindow.state := Some [r] |}
     = Ok (None, {| SlidingWindow.state := Some [r] |})) ∧
  ¬ WindowSpec.done_aggregates_buffered_state.
Proof.
  split; [by split|]. intros (_ & H & _).
  destruct (H Z {| SlidingWindow.state :=
                     Some [{| Window.time := 10; Window.by_col := 1;
                              Window.val := 3 |}] |} _ eq_refl)
    as (result & st' & Hdone); done.
Qed.

(** C5, amended. At [done]: the hopping executor under the on-event
    trigger (a tumbling window) returns the running aggregates of the
    buffered rows by window id, as [execute] computes them for a closed
    batch, and clears its state; the session executor under the
    completion trigger returns the aggregate of all buffered rows as one
    session with id 1; the hopping executor (either trigger) and the
    session executor return nothing when the state is [None] or has no
    row; the sliding executor returns nothing in every state. *)
Theorem window_done_results :
  (∀ (Out : Type) (sql_window : HoppingWindow.Config → list (Window.Row * Z) → list Out)
     (size hop : Z) (st : HoppingWindow.State),
     let cfg := {| HoppingWindow.kind := Window.TumblingWindow;
                   HoppingWindow.size := size; HoppingWindow.hop := hop;
                   HoppingWindow.trigger := Window.OnEventTrigger |} in
     HoppingWindow.done sql_window cfg st =
       Ok (match HoppingWindow.state st with
           | Some (r :: s) =>
               Some (sql_window cfg (HoppingWindow.with_window_id cfg (r :: s)))
           | _ => None
           end,
           {| HoppingWindow.state := None |}) ∧
     ∀ r s, HoppingWindow.on_event sql_window cfg (r :: s) =
            Ok (sql_window cfg (HoppingWindow.with_window_id cfg (r :: s)))) ∧
  (∀ (Out : Type) (sql_window : HoppingWindow.Config → list (Window.Row * Z) → list Out)
     k size hop,
     let cfg := {| HoppingWindow.kind := k;
                   HoppingWindow.size := size; HoppingWindow.hop := hop;
                   HoppingWindow.trigger := Window.OnCompletionTrigger |} in
     HoppingWindow.done sql_window cfg {| HoppingWindow.state := None |}
       = Ok (None, {| HoppingWindow.state := None |}) ∧
     HoppingWindow.done sql_window cfg {| HoppingWindow.state := Some [] |}
       = Ok (None, {| HoppingWindow.state := None |})) ∧
  (∀ (Out : Type) (st : SlidingWindow.State),
     SlidingWindow.done (Out := Out) st = Ok (None, st)) ∧
  (∀ (Agg : Type) (polars_aggregations : list Window.Row → Agg) timeout st,
     SessionWindow.done polars_aggregations
       {| SessionWindow.timeout := timeout;
          SessionWindow.trigger := Window.OnCompletionTrigger |} st =
       Ok (match SessionWindow.state st with
           | Some (r :: s) => Some [(1, polars_aggregations (r :: s))]
           | _ => None
           end, st)) ∧
  (∀ (Agg : Type) (polars_aggregations : list Window.Row → Agg) cfg,
     SessionWindow.done polars_aggregations cfg {| SessionWindow.state := None |}
       = Ok (None, {| SessionWindow.state := None |}) ∧
     SessionWindow.done polars_aggregations cfg {| SessionWindow.state := Some [] |}
       = Ok (None, {| SessionWindow.state := Some [] |})).
Proof.
  split; [|split; [|split; [|split]]].
  - intros Out sql_window size hop st cfg. split; [|done].
    unfold HoppingWindow.done. simpl.
    by destruct (HoppingWindow.state st) as [[|r s]|].
  - by intros.
  - by intros.
  - intros Agg polars_aggregations timeout st.
    unfold SessionWindow.done. simpl.
    by destruct (SessionWindow.state st) as [[|r s]|].
  - by intros.
Qed.

(** * Further properties *)

(** ** Accumulating executors *)

Section AccumulateFacts.
Context {R : Type}.
Implicit Types (batches : list (option (list R))).
Implicit Types (calls : list (list (option (list R)))).

Lemma sum_len_rows batches :
  Forall is_Some batches →
  sum_len batches = Ok (length (concat (not_none batches))).
Proof.
  induction 1 as [|[b|] batches [? ?] _ IH]; simpl; [done| |done].
  rewrite IH. simpl. by rewrite length_app.
Qed.

Lemma sum_len_raises batches :
  ¬ Forall is_Some batches → sum_len batches = Raise TypeError.
Proof.
  induction batches as [|[b|] batches IH]; simpl; intros H.
  - destruct H. constructor.
  - rewrite IH; [done|]. intros Hf. apply H. constructor; [eauto|done].
  - done.
Qed.

Lemma count_run_from (st : Count.State) calls :
  Accumulate.count_run st calls =
    if decide (Forall is_Some (concat calls))
    then Ok {| Count.state := Count.state st + length (Accumulate.all_rows calls) |}
    else Raise TypeError.
Proof.
  revert st. induction calls as [|batches calls IH]; intros st.
  { cbn [Accumulate.count_run concat]. rewrite decide_True by constructor.
    destruct st. unfold Accumulate.all_rows. simpl. by rewrite Nat.add_0_r. }
  cbn [Accumulate.count_run concat]. unfold Count.execute.
  destruct (decide (Forall is_Some batches)) as [Hb|Hb].
  - rewrite (sum_len_rows _ Hb). cbn [mbind result_bind]. rewrite IH.
    destruct (decide (Forall is_Some (concat calls))) as [Hc|Hc].
    + rewrite decide_True by (by apply Forall_app). do 2 f_equal. simpl.
      unfold Accumulate.all_rows. cbn [fmap list_fmap concat].
      rewrite concat_app, length_app. lia.
    + rewrite decide_False; [done|]. by intros [_ ?]%Forall_app.
  - rewrite (sum_len_raises _ Hb). cbn [mbind result_bind].
    rewrite decide_False; [done|]. by intros [? _]%Forall_app.
Qed.

Lemma all_tables_not_none batches :
  Forall is_Some batches → all_tables batches = Ok (not_none batches).
Proof.
  induction 1 as [|[b|] batches [? ?] _ IH]; simpl; [done| |done].
  by rewrite IH.
Qed.

Lemma sql_run_from {Out : Type} (st : SQLAgg.State R) calls :
  Forall (λ batches, batches ≠ [] ∧ Forall is_Some batches) calls →
  Accumulate.sql_run (Out := Out) st calls =
    Ok {| SQLAgg.state :=
            match SQLAgg.state st, calls with
            | None, [] => None
            | None, _ => Some (Accumulate.all_rows calls)
            | Some s, _ => Some (s ++ Accumulate.all_rows calls)
            end |}.
Proof.
  intros Hcalls. revert st.
  induction Hcalls as [|batches calls [Hne Hb] _ IH]; intros st.
  { simpl. destruct st as [[s|]]; simpl; [|done]. by rewrite app_nil_r. }
  cbn [Accumulate.sql_run]. unfold SQLAgg.execute, pa_concat_tables.
  rewrite (all_tables_not_none _ Hb). cbn [mbind result_bind].
  assert (not_none batches ≠ []) as Hnn.
  { destruct batches as [|[b|] ?]; [done|done|].
    apply Forall_cons in Hb as [[? ?] _]. done. }
  unfold concat_tables. destruct (not_none batches) as [|b bs] eqn:Hbs; [done|].
  cbn [mbind result_bind]. rewrite IH. cbn [SQLAgg.state].
  assert (Accumulate.all_rows (batches :: calls)
          = concat (b :: bs) ++ Accumulate.all_rows calls) as ->.
  { unfold Accumulate.all_rows. cbn [fmap list_fmap concat].
    by rewrite Hbs, concat_app. }
  destruct (SQLAgg.state st) as [s|]; [by rewrite app_assoc|done].
Qed.

End AccumulateFacts.

(** X1. A history of [CountExecutor.execute] calls either meets a
    [None] entry and raises, or ends with [done] returning one row that
    holds the number of rows of all the tables delivered. *)
Theorem count_done_total {R : Type} (calls : list (list (option (list R)))) :
  (st ← Accumulate.count_run Count.init calls; Count.done st) =
    if decide (Forall is_Some (concat calls))
    then Ok (Some [length (Accumulate.all_rows calls)])
    else Raise TypeError.
Proof.
  rewrite count_run_from. by case_decide.
Qed.

(** X2. When every call hands [SQLAggExecutor] (or
    [ConcatThenSQLExecutor]) at least one table and no [None], the
    calls return, and [done] evaluates the SQL once, on all delivered
    rows in arrival order; with no call at all it returns [None]. *)
Theorem sql_done_sees_all_rows {R Out : Type} (sql : list R → list Out)
    (calls : list (list (option (list R)))) :
  Forall (λ batches, batches ≠ [] ∧ Forall is_Some batches) calls →
  (st ← Accumulate.sql_run (Out := Out) SQLAgg.init calls; SQLAgg.done sql st) =
    Ok (match calls with
        | [] => None
        | _ => Some (sql (Accumulate.all_rows calls))
        end).
Proof.
  intros H. rewrite (sql_run_from _ _ H). simpl. by destruct calls.
Qed.

Lemma sql_done_sees_all_rows_witness :
  (st ← Accumulate.sql_run (Out := nat) SQLAgg.init [[Some [1; 2]%nat]; [Some []; Some [3]%nat]];
   SQLAgg.done (λ t, [length t]) st) = Ok (Some [3%nat]).
Proof.
  apply (sql_done_sees_all_rows (λ t : list nat, [length t])
           [[Some [1; 2]%nat]; [Some []; Some [3]%nat]]).
  repeat constructor; eauto; discriminate.
Defined.

(** ** The aggregation clause *)

Section AggClauseFacts.
Import AggClause.

Lemma string_app_cons (x : Ascii.ascii) (a b : string) :
  String x a +:+ b = String x (a +:+ b).
Proof. reflexivity. Qed.

Lemma string_app_assoc (a b c : string) : (a +:+ b) +:+ c = a +:+ (b +:+ c).
Proof.
  induction a as [|x a IH]; [done|]. by rewrite !string_app_cons, IH.
Qed.

Lemma string_app_nil_r (a : string) : a +:+ "" = a.
Proof.
  induction a as [|x a IH]; [done|]. by rewrite string_app_cons, IH.
Qed.

Lemma cut_last_snoc (s : string) (c : Ascii.ascii) :
  cut_last (s +:+ String c "") = s.
Proof.
  induction s as [|x s IH]; [done|].
  rewrite string_app_cons. destruct s as [|y s]; [done|].
  rewrite string_app_cons in IH |- *.
  change (cut_last (String x (String y (s +:+ String c ""))))
    with (String x (cut_last (String y (s +:+ String c "")))).
  by rewrite IH.
Qed.

Lemma add_group_keys_concat clause k keys :
  add_group_keys clause (k :: keys) =
    clause +:+ String.concat "," (k :: keys) +:+ ",".
Proof.
  revert clause k. induction keys as [|k' keys IH]; intros clause k.
  { done. }
  cbn [add_group_keys] in *. rewrite IH.
  change (String.concat "," (k :: k' :: keys))
    with (k +:+ "," +:+ String.concat "," (k' :: keys)).
  by rewrite !string_app_assoc.
Qed.

Lemma add_order_keys_concat clause k keys :
  add_order_keys clause (k :: keys) =
    clause +:+ String.concat "," (order_term <$> k :: keys) +:+ ",".
Proof.
  revert clause k. induction keys as [|k' keys IH]; intros clause [key dir].
  { cbn [add_order_keys fmap list_fmap String.concat]. unfold order_term.
    cbn [fst snd]. case_decide; by rewrite ?string_app_assoc. }
  cbn [add_order_keys] in *. rewrite IH.
  rewrite !fmap_cons.
  change (String.concat "," (order_term (key, dir) :: order_term k' ::
                               (order_term <$> keys)))
    with (order_term (key, dir) +:+ "," +:+
          String.concat "," (order_term k' :: (order_term <$> keys))).
  replace (order_term (key, dir))
    with (if decide (dir = "desc") then key +:+ " desc" else key) by done.
  case_decide; rewrite !string_app_assoc; reflexivity.
Qed.

End AggClauseFacts.

(** X3. The clause [SQLAggExecutor.__init__] builds reads
    [select keys, statement from batch_arrow group by keys order by
    terms], the keys and the order terms separated by commas with none
    left at the end; the group-by part is absent for an empty key list,
    the order-by part for [None], and an empty order list leaves a bare
    [order by]. *)
Theorem agg_clause_reads (groupby_keys : list string)
    (orderby_keys : option (list (string * string))) (sql_statement : string) :
  AggClause.agg_clause groupby_keys orderby_keys sql_statement =
    "select " +:+
    match groupby_keys with
    | [] => sql_statement +:+ " from batch_arrow"
    | _ => String.concat "," groupby_keys +:+ ", " +:+ sql_statement +:+
           " from batch_arrow group by " +:+ String.concat "," groupby_keys
    end +:+
    match orderby_keys with
    | None => ""
    | Some [] => " order by"
    | Some keys =>
        " order by " +:+ String.concat "," (AggClause.order_term <$> keys)
    end.
Proof.
  unfold AggClause.agg_clause.
  set (base := "select " +:+
               match groupby_keys with
               | [] => sql_statement +:+ " from batch_arrow"
               | _ => String.concat "," groupby_keys +:+ ", " +:+ sql_statement +:+
                      " from batch_arrow group by " +:+ String.concat "," groupby_keys
               end).
  assert ((if decide (0 < length groupby_keys)%nat
           then AggClause.cut_last
                  (AggClause.add_group_keys
                     (("select " +:+ String.concat "," groupby_keys +:+ ", " +:+
                       sql_statement +:+ " from batch_arrow") +:+ " group by ")
                     groupby_keys)
           else if decide (0 < length groupby_keys)%nat
                then "select " +:+ String.concat "," groupby_keys +:+ ", " +:+
                     sql_statement +:+ " from batch_arrow"
                else "select " +:+ sql_statement +:+ " from batch_arrow")
          = base) as Hbase.
  { unfold base. destruct groupby_keys as [|k keys].
    - by rewrite !decide_False by (simpl; lia).
    - rewrite decide_True by (simpl; lia).
      rewrite add_group_keys_concat.
      rewrite <-!string_app_assoc. rewrite cut_last_snoc.
      by rewrite !string_app_assoc. }
  destruct (decide (0 < length groupby_keys)%nat) as [Hg|Hg];
    rewrite ?(decide_True _ _ Hg), ?(decide_False _ _ Hg) in Hbase |- *;
    rewrite Hbase; clear Hbase;
    (destruct orderby_keys as [[|k keys]|];
     [ simpl AggClause.add_order_keys;
       change " order by " with (" order by" +:+ " ");
       by rewrite <-string_app_assoc, cut_last_snoc
     | rewrite add_order_keys_concat, <-!string_app_assoc, cut_last_snoc;
       by rewrite !string_app_assoc
     | by rewrite string_app_nil_r ]).
Qed.

(** ** Output executor: what ends up in storage *)

Section OutputStorage.
Import Output.
Context {R : Type}.

Global Instance basename_template_inj cfg eid :
  Inj (=) (=) (basename_template cfg eid).
Proof.
  intros i j H. unfold basename_template in H.
  do 6 apply String.app_inj in H.
  by apply string_app_inj_r, pretty_nat_inj in H.
Qed.

Lemma done_manifest_count (len rgs : nat) (files : list (list R)) :
  (0 < rgs)%nat → (len ≤ rgs)%nat →
  (if decide (len = 0)%nat then files = [] else length files = 1%nat) →
  Z.to_nat ((Z.of_nat len - 1) `div` Z.of_nat rgs + 1) = length files.
Proof.
  intros Hr Hle Hf. case_decide as Hl.
  - subst. simpl length.
    assert ((Z.of_nat 0 - 1) `div` Z.of_nat rgs = -1) as ->; [|done].
    symmetry. apply (Z.div_unique _ _ _ (Z.of_nat rgs - 1)); lia.
  - rewrite Hf. rewrite Z.div_small by lia. done.
Qed.

(** A run of [execute] calls followed by [done]: the files of the calls,
    then the files of [done]. *)
Lemma output_run_done_spec cfg (calls : list (list (option (list R)))) eid :
  (0 < row_group_size cfg)%nat → delivered calls ≠ [] →
  ∃ files final my manifest,
    run cfg init calls eid =
      Ok {| my_batches := my; name := length files; storage := files |} ∧
    done cfg {| my_batches := my; name := length files; storage := files |} eid =
      Ok (Some manifest,
          {| my_batches := my; name := length files + length final;
             storage := files ++ final |}) ∧
    (files ++ final).*1 =
      (λ k, basename_template cfg eid k) <$> seq 0 (length (files ++ final)) ∧
    Forall (λ f, length f = row_group_size cfg) files.*2 ∧
    concat files.*2 ++ concat my = delivered calls ∧
    final.*2 = (if decide (concat my = []) then [] else [concat my]) ∧
    (length (concat my) ≤ row_group_size cfg)%nat ∧
    length manifest = length final.
Proof.
  intros HR Hne.
  destruct (output_run_spec cfg calls eid HR init)
    as (files & my & Hrun & Hn & Hall & Hrows & Hle & Hnil); [simpl; lia|].
  simpl in Hrun, Hn, Hrows, Hnil.
  destruct my as [|b0 my]; [by destruct Hnil|].
  destruct (upload_from_spec cfg eid (concat (b0 :: my))
              (length (concat (b0 :: my))) 0
              {| my_batches := b0 :: my; name := length files;
                 storage := files |})
    as (final & Hup & Hfn & Hfc & Hfq & Hf1); [done|lia|].
  cbn [name my_batches storage] in *. rewrite Nat.sub_0_r, drop_0 in *.
  assert (final.*2 = if decide (concat (b0 :: my) = []) then []
                     else [concat (b0 :: my)]) as Hfinal.
  { case_decide as Hb.
    - rewrite Hb in Hfq. destruct (Hfq 0%nat) as [Hl _]; [simpl; lia|].
      apply nil_length_inv in Hl. by rewrite Hl.
    - apply Hf1. split; [|done].
      destruct (concat (b0 :: my)); [done|simpl; lia]. }
  exists files, final, (b0 :: my).
  exists ((λ i, manifest_entry cfg eid (length files + length final) i) <$>
            seq 0 (Z.to_nat ((Z.of_nat (length (concat (b0 :: my))) - 1)
                               `div` Z.of_nat (row_group_size cfg) + 1))).
  split; [done|]. split.
  { unfold done. cbn [my_batches concat_tables mbind result_bind].
    unfold upload_write_batch. rewrite decide_False by lia.
    cbn [mbind result_bind]. by rewrite Hup. }
  split.
  { rewrite length_app, fmap_app, seq_app, fmap_app, Hn, Hfn. f_equal. simpl.
    replace (seq (length files) (length final))
      with (Nat.add (length files) <$> seq 0 (length final))
      by (rewrite fmap_add_seq; f_equal; lia).
    by rewrite <-list_fmap_compose. }
  split; [done|]. split; [done|]. split; [done|]. split; [done|].
  rewrite length_fmap, length_seq.
  assert (length final = length final.*2) as -> by (by rewrite length_fmap).
  rewrite Hfinal. apply done_manifest_count; [done|done|].
  destruct (concat (b0 :: my)) as [|r rs] eqn:Hb.
  - by rewrite decide_True, decide_True.
  - by rewrite decide_False, decide_False.
Qed.

End OutputStorage.

(** X4. With a positive row-group size, a run of [execute] calls that
    delivers some row, followed by [done], leaves in storage files whose
    rows, read in the order the files were written, are exactly the rows
    delivered, in arrival order; no file is empty or holds more than a
    row group, and every file but the last holds exactly one. *)
Theorem output_storage_holds_delivered_rows {R : Type} (cfg : Output.Config)
    (calls : list (list (option (list R)))) (eid : Z) :
  (0 < Output.row_group_size cfg)%nat → Output.delivered calls ≠ [] →
  ∃ st manifest st',
    Output.run cfg Output.init calls eid = Ok st ∧
    Output.done cfg st eid = Ok (manifest, st') ∧
    concat (Output.storage st').*2 = Output.delivered calls ∧
    Forall (λ f, 0 < length f ≤ Output.row_group_size cfg)%nat
      (Output.storage st').*2 ∧
    ∀ i f, (S i < length (Output.storage st'))%nat →
           (Output.storage st').*2 !! i = Some f →
           length f = Output.row_group_size cfg.
Proof.
  intros HR Hne.
  destruct (output_run_done_spec cfg calls eid HR Hne)
    as (files & final & my & manifest & Hrun & Hdone & _ & Hall & Hrows & Hfinal & Hle & _).
  eexists _, _, _. split; [exact Hrun|]. split; [exact Hdone|].
  cbn [Output.storage]. rewrite fmap_app, concat_app, Forall_app.
  assert (concat final.*2 = concat my) as Hcat.
  { rewrite Hfinal. case_decide as Hb; simpl; [done|by rewrite app_nil_r]. }
  split; [by rewrite Hcat|]. split; [split|].
  - eapply Forall_impl; [exact Hall|]. simpl. intros f ->. lia.
  - rewrite Hfinal. case_decide as Hb; [done|]. constructor; [|done].
    split; [|done]. destruct (concat my); [done|simpl; lia].
  - intros i f Hi Hf. rewrite length_app in Hi.
    assert (length final ≤ 1)%nat as Hf1.
    { rewrite <-(length_fmap snd final), Hfinal. case_decide; simpl; lia. }
    rewrite lookup_app_l in Hf by (rewrite length_fmap; lia).
    rewrite Forall_forall in Hall. apply Hall.
    by eapply list_elem_of_lookup_2.
Qed.

Lemma output_storage_holds_delivered_rows_witness :
  let cfg := {| Output.filepath := "out"; Output.format := Output.parquet;
                Output.prefix := "part"; Output.row_group_size := 2 |} in
  let calls := [[Some [1; 2; 3]%nat]; [None; Some [4; 5]%nat]] in
  ∃ st manifest st',
    Output.run cfg Output.init calls 3 = Ok st ∧
    Output.done cfg st 3 = Ok (manifest, st') ∧
    concat (Output.storage st').*2 = Output.delivered calls ∧
    Forall (λ f, 0 < length f ≤ Output.row_group_size cfg)%nat
      (Output.storage st').*2 ∧
    ∀ i f, (S i < length (Output.storage st'))%nat →
           (Output.storage st').*2 !! i = Some f →
           length f = Output.row_group_size cfg.
Proof.
  intros cfg calls.
  apply (output_storage_holds_delivered_rows cfg calls 3);
    [simpl; lia|discriminate].
Defined.

(** X5. Under the same conditions the files carry the names
    [filepath/prefix-executor_id-k.format] for k = 0, 1, 2, ... in the
    order they were written, so no two files of a channel share a name,
    and the manifest [done] returns has one entry per file [done]
    wrote. *)
Theorem output_file_names_count_up {R : Type} (cfg : Output.Config)
    (calls : list (list (option (list R)))) (eid : Z) :
  (0 < Output.row_group_size cfg)%nat → Output.delivered calls ≠ [] →
  ∃ st manifest st',
    Output.run cfg Output.init calls eid = Ok st ∧
    Output.done cfg st eid = Ok (Some manifest, st') ∧
    (Output.storage st').*1 =
      (λ k, Output.basename_template cfg eid k) <$>
        seq 0 (length (Output.storage st')) ∧
    NoDup (Output.storage st').*1 ∧
    (length manifest + length (Output.storage st)
     = length (Output.storage st'))%nat.
Proof.
  intros HR Hne.
  destruct (output_run_done_spec cfg calls eid HR Hne)
    as (files & final & my & manifest & Hrun & Hdone & Hn & _ & _ & _ & _ & Hm).
  eexists _, _, _. split; [exact Hrun|]. split; [exact Hdone|].
  cbn [Output.storage]. split; [done|]. split.
  - rewrite Hn. apply NoDup_fmap_2; [apply _|apply NoDup_seq].
  - rewrite length_app. lia.
Qed.

Lemma output_file_names_count_up_witness :
  let cfg := {| Output.filepath := "out"; Output.format := Output.parquet;
                Output.prefix := "part"; Output.row_group_size := 2 |} in
  let calls := [[Some [1; 2; 3]%nat]; [None; Some [4; 5]%nat]] in
  ∃ st manifest st',
    Output.run cfg Output.init calls 3 = Ok st ∧
    Output.done cfg st 3 = Ok (Some manifest, st') ∧
    (Output.storage st').*1 =
      (λ k, Output.basename_template cfg 3 k) <$>
        seq 0 (length (Output.storage st')) ∧
    NoDup (Output.storage st').*1 ∧
    (length manifest + length (Output.storage st)
     = length (Output.storage st'))%nat.
Proof.
  intros cfg calls.
  apply (output_file_names_count_up cfg calls 3); [simpl; lia|discriminate].
Defined.

(** ** External merge sort: spill files, batch sizes, exhausted files *)

Section SpillFacts.
Import SuperFastSort Spill.

Lemma spill_tables_cons batches calls :
  spill_tables (batches :: calls) =
    match live batches with
    | [] => spill_tables calls
    | bs => sort (concat bs) :: spill_tables calls
    end.
Proof.
  unfold spill_tables. rewrite fmap_cons, filter_cons.
  destruct (live batches) as [|b bs]; [by rewrite decide_False by auto|].
  by rewrite decide_True.
Qed.

Lemma execute_spills cfg eid st files batches :
  produced cfg eid st files →
  ∃ st',
    execute cfg st batches eid = Ok (None, st') ∧
    produced cfg eid st' (files ++ spill_tables [batches]).
Proof.
  intros Hp. pose proof Hp as (Hno & Hidx & Hfiles).
  rewrite spill_tables_cons. unfold execute.
  destruct (live batches) as [|b0 bl] eqn:Hl.
  { exists st. unfold spill_tables. rewrite app_nil_r. simpl. done. }
  rewrite decide_False by done.
  set (batch := concat (b0 :: bl)).
  assert (batch ≠ []) as Hne.
  { unfold batch. simpl. intros [H _]%app_eq_nil.
    apply (live_rows batches b0); [rewrite Hl; left|done]. }
  eexists. split; [reflexivity|].
  change (spill_tables []) with (@nil (list Row)).
  split; [|split]; cbn [fileno in_mem_state disk].
  - rewrite length_app. simpl. lia.
  - rewrite zip_replicate_entries
      by (by rewrite (Permutation_length (sort_perm batch))).
    rewrite Hidx, Hno. rewrite index_from_app. simpl.
    rewrite app_nil_r. by destruct files.
  - intros f b Hb. unfold write_out_df_to_disk.
    apply lookup_app_Some in Hb as [Hb|[Hge Hb]].
    + destruct (Hfiles f b Hb) as (? & ? & Hd). split; [done|]. split; [done|].
      rewrite lookup_insert_ne; [done|].
      intros Heq%flush_file_name_inj. apply lookup_lt_Some in Hb. lia.
    + apply list_lookup_singleton_Some in Hb as [Hf <-].
      replace f with (fileno st) by lia. rewrite lookup_insert_eq.
      split; [|split; [apply sort_sorted|done]].
      intros Hs. apply Hne. apply Permutation_nil_r. rewrite <-Hs.
      symmetry. apply sort_perm.
Qed.

Lemma run_spills cfg eid calls st files :
  produced cfg eid st files →
  ∃ st',
    run cfg st calls eid = Ok st' ∧
    produced cfg eid st' (files ++ spill_tables calls).
Proof.
  revert st files. induction calls as [|batches calls IH]; intros st files Hp.
  { exists st. unfold spill_tables. simpl. by rewrite app_nil_r. }
  destruct (execute_spills cfg eid st files batches Hp) as (st1 & Hex & Hp1).
  destruct (IH st1 _ Hp1) as (st2 & Hrun & Hp2).
  exists st2. cbn [run]. rewrite Hex. simpl. split; [done|].
  rewrite <-app_assoc in Hp2.
  replace (spill_tables (batches :: calls))
    with (spill_tables [batches] ++ spill_tables calls); [done|].
  rewrite !spill_tables_cons. by destruct (live batches).
Qed.

(** The producer writes its own spill files and nothing else. *)
Lemma run_disk_frame cfg eid calls st st' :
  run cfg st calls eid = Ok st' →
  (fileno st ≤ fileno st')%nat ∧
  ∀ p, (∀ i, (fileno st ≤ i < fileno st')%nat → p ≠ flush_file_name cfg eid i) →
       disk st' !! p = disk st !! p.
Proof.
  revert st. induction calls as [|batches calls IH]; intros st.
  { intros [= <-]. done. }
  cbn [run]. unfold execute.
  destruct (live batches) as [|b0 bl]; simpl.
  { apply IH. }
  intros Hrun. apply IH in Hrun as [Hle Hframe]. cbn [fileno disk] in *.
  split; [lia|]. intros p Hp. rewrite Hframe by (intros i Hi; apply Hp; lia).
  unfold write_out_df_to_disk. rewrite lookup_insert_ne; [done|].
  intros Heq. by apply (Hp (fileno st)); [lia|].
Qed.

Lemma to_batches_sizes fuel c t :
  (0 < c)%nat →
  Forall (λ b : list Row, 0 < length b ≤ c)%nat (to_batches fuel c t).
Proof.
  intros Hc. revert t. induction fuel as [|fuel IH]; intros t; [constructor|].
  destruct t as [|r t]; [constructor|]. cbn [to_batches].
  constructor; [|apply IH]. rewrite length_take. simpl. lia.
Qed.

End SpillFacts.

(** X6. After any history of producer calls every call returned; the
    k-th call that delivered rows has left the spill file
    [data_dir prefix-executor_id-k.arrow] whose record batches, none
    empty and none above a million rows, read in order give the rows of
    that call sorted by key; the index lists, file after file, the key
    of every row with the number of its file; and every other path of
    the disk is as it was. *)
Theorem producer_leaves_sorted_spill_files
    (cfg : SuperFastSort.Config)
    (calls : list (list (option (list SuperFastSort.Row))))
    (eid : Z) (d : gmap string (list (list SuperFastSort.Row))) :
  let spills := Spill.spill_tables calls in
  ∃ st,
    SuperFastSort.run cfg (SuperFastSort.init d) calls eid = Ok st ∧
    SuperFastSort.fileno st = length spills ∧
    (∀ k t, spills !! k = Some t →
       ∃ file,
         SuperFastSort.disk st !! SuperFastSort.flush_file_name cfg eid k
           = Some file ∧
         concat file = t ∧
         Forall (λ b, 0 < length b ≤ SuperFastSort.max_chunksize)%nat file) ∧
    SuperFastSort.in_mem_state st =
      match spills with
      | [] => None
      | _ => Some (SuperFastSort.index_from 0 spills)
      end ∧
    (∀ p, (∀ k, (k < length spills)%nat →
                p ≠ SuperFastSort.flush_file_name cfg eid k) →
          SuperFastSort.disk st !! p = d !! p).
Proof.
  intros spills.
  destruct (run_spills cfg eid calls (SuperFastSort.init d) [])
    as (st & Hrun & Hno & Hidx & Hfiles).
  { split; [done|]. split; [done|]. intros f b Hb. by rewrite lookup_nil in Hb. }
  simpl in Hno, Hidx, Hfiles. fold spills in Hno, Hidx, Hfiles.
  assert (0 < SuperFastSort.max_chunksize)%nat as Hchunk
    by (unfold SuperFastSort.max_chunksize; lia).
  exists st. split; [done|]. split; [done|]. split; [|split; [done|]].
  - intros k t Ht. destruct (Hfiles k t Ht) as (_ & _ & Hd).
    eexists. split; [exact Hd|]. split.
    + by apply to_batches_concat.
    + by apply to_batches_sizes.
  - destruct (run_disk_frame cfg eid calls _ _ Hrun) as [_ Hframe].
    intros p Hp. rewrite Hframe; [done|]. simpl. intros i Hi. apply Hp. lia.
Qed.

(** X7. A read-ahead buffer that is asked for more rows than its spill
    file still holds makes the consumer raise; nothing is handed out. *)
Theorem pull_from_exhausted_file_raises
    (sources : gmap nat (list (list SuperFastSort.Row)))
    (cur : SuperFastSort.Cursor) (f d : nat)
    (rows : list SuperFastSort.Row) :
  SuperFastSort.remaining sources cur f rows →
  (length rows < d)%nat →
  SuperFastSort.pull sources cur f d = Raise PlainException.
Proof.
  intros (bs & c & j & Hs & Hc & Hj & Hle & Hrows) Hd.
  unfold SuperFastSort.pull, SuperFastSort.getitem.
  rewrite Hc, Hj, Hs. cbn [mbind result_bind].
  assert (∀ fuel c j,
            c ++ concat (drop j bs) = rows → (j ≤ length bs)%nat →
            (length bs - j ≤ fuel)%nat →
            SuperFastSort.refill fuel bs d c j = Raise PlainException) as Href.
  { clear c j Hc Hj Hle Hrows.
    induction fuel as [|fuel IH]; intros c j Hrows Hle Hfuel.
    - simpl. assert (length c ≤ length rows)%nat
        by (rewrite <-Hrows, length_app; lia).
      rewrite decide_True by lia. by rewrite decide_True by lia.
    - simpl. assert (length c ≤ length rows)%nat
        by (rewrite <-Hrows, length_app; lia).
      rewrite decide_True by lia. case_decide as Hend; [done|].
      destruct (lookup_lt_is_Some_2 bs j) as [b Hb]; [lia|]. rewrite Hb.
      apply IH; [|apply lookup_lt_Some in Hb; lia|lia].
      rewrite <-Hrows, (drop_S _ _ _ Hb). simpl. by rewrite app_assoc. }
  by rewrite (Href (length bs) c j Hrows Hle) by lia.
Qed.

Lemma pull_from_exhausted_file_raises_witness :
  let r := {| SuperFastSort.key := 1; SuperFastSort.val := 0 |} in
  SuperFastSort.pull {[ 0%nat := [[r]; [r]] ]}
    {| SuperFastSort.cached_batches := {[ 0%nat := [r] ]};
       SuperFastSort.current_number_for_source := {[ 0%nat := 1%nat ]} |}
    0 3 = Raise PlainException.
Proof.
  intros r.
  apply (pull_from_exhausted_file_raises _ _ 0%nat 3%nat [r; r]).
  - exists [[r]; [r]], [r], 1%nat. by repeat split; simpl; try lia.
  - simpl. lia.
Defined.

Section SortBatchSizes.
Import SuperFastSort.

(** Each index row belongs to one file. *)
Lemma count_by_file (T : list (Z * nat)) (s n : nat) :
  (∀ e, e ∈ T → (s ≤ e.2 < s + n)%nat) →
  sum_list ((λ f, length (filter (λ e : Z * nat, e.2 = f) T)) <$> seq s n)
    = length T.
Proof.
  induction T as [|e T IH]; intros HT.
  { clear HT. revert s. induction n as [|n IHn]; intros s; [done|].
    simpl. by rewrite IHn. }
  cbn [length].
  rewrite <-(IH (λ e' He', HT e' (list_elem_of_further _ _ _ He'))).
  assert (s ≤ e.2 < s + n)%nat as He by (apply HT; left).
  clear IH HT. revert s He. induction n as [|n IHn]; intros s He; [lia|].
  cbn [seq fmap list_fmap sum_list sum_list_with]. rewrite filter_cons.
  destruct (decide (e.2 = s)) as [Heq|Hne].
  - cbn [length]. unfold id. rewrite Nat.add_succ_l. do 3 f_equal.
    apply list_fmap_ext. intros i f Hf%lookup_seq. rewrite filter_cons.
    by rewrite decide_False by lia.
  - specialize (IHn (S s) ltac:(lia)).
    cbn [seq fmap list_fmap sum_list sum_list_with] in IHn |- *.
    change (list_fmap nat nat ?g ?l) with (g <$> l) in *.
    rewrite IHn. unfold id. lia.
Qed.

Lemma merge_inv_total sources n T cur rem :
  (∀ e, e ∈ T → (e.2 < n)%nat) →
  merge_inv sources n T cur rem →
  length (concat (rem <$> seq 0 n)) = length T.
Proof.
  intros HT Hinv. rewrite <-sum_list_lengths, <-list_fmap_compose.
  rewrite <-(count_by_file T 0 n) by (intros e He; specialize (HT e He); lia).
  f_equal. apply list_fmap_ext. intros i f Hf%lookup_seq. simpl.
  destruct (Hinv f) as [_ Hkeys]; [lia|].
  apply (f_equal length) in Hkeys. by rewrite !length_fmap in Hkeys.
Qed.

Lemma yield_all_sizes cfg sources index n fuel :
  let B := Z.to_nat (output_batch_rows cfg) in
  (0 < B)%nat →
  StronglySorted values_le index →
  (∀ e, e ∈ index → (e.2 < n)%nat) →
  ∀ k cur rem,
    (length index - k ≤ fuel)%nat →
    merge_inv sources n (drop k index) cur rem →
    ∃ outs,
      yield_all cfg sources index (range_from fuel k (length index) B) cur
        = (outs, None) ∧
      Forall (λ out, 0 < length out ≤ B)%nat outs ∧
      (∀ i out, outs !! i = Some out → (S i < length outs)%nat →
                length out = B) ∧
      (outs = [] ↔ (length index ≤ k)%nat).
Proof.
  intros B HB Hsorted Hn.
  induction fuel as [|fuel IH]; intros k cur rem Hfuel Hinv.
  { exists []. simpl. split; [done|]. split; [done|].
    split; [intros i o Ho; by rewrite lookup_nil in Ho|]. split; [lia|done]. }
  cbn [range_from]. case_decide as Hk.
  2:{ exists []. simpl. split; [done|]. split; [done|].
      split; [intros i o Ho; by rewrite lookup_nil in Ho|]. split; [lia|done]. }
  destruct (assemble_spec cfg sources index n HB Hn k cur rem Hk Hinv)
    as (out & cur' & rem' & Hasm & Hinv' & _ & _ & Hperm).
  destruct (IH (k + B)%nat cur' rem' ltac:(lia) Hinv')
    as (later & Hlater & Hsizes & Hfull & Hend).
  assert (length out = length index - k - (length index - (k + B)))%nat as Hout.
  { apply Permutation_length in Hperm. rewrite length_app in Hperm.
    rewrite (merge_inv_total sources n (drop k index) cur rem) in Hperm;
      [|intros e He; apply Hn; by apply (subseteq_drop k)|done].
    rewrite (merge_inv_total sources n (drop (k + B) index) cur' rem') in Hperm;
      [|intros e He; apply Hn; by apply (subseteq_drop (k + B))|done].
    rewrite !length_drop in Hperm. lia. }
  exists (out :: later). cbn [yield_all]. fold B. rewrite Hasm, Hlater.
  split; [done|]. split; [constructor; [lia|done]|]. split; [|split; [done|lia]].
  intros [|i] o Ho Hi; simpl in Ho, Hi.
  - injection Ho as <-. destruct later as [|l later']; [simpl in Hi; lia|].
    assert (¬ (length index ≤ k + B)%nat) by (intros H%Hend; done). lia.
  - apply (Hfull i o Ho). lia.
Qed.

(** The consumer's batches on what the producer built. *)
Lemma done_sizes cfg eid st files :
  let B := Z.to_nat (output_batch_rows cfg) in
  0 < output_batch_rows cfg →
  produced cfg eid st files →
  files ≠ [] →
  ∃ outs,
    done cfg st eid = (outs, None) ∧
    Forall (λ out, 0 < length out ≤ B)%nat outs ∧
    (∀ i out, outs !! i = Some out → (S i < length outs)%nat →
              length out = B).
Proof.
  intros B HB (Hno & Hidx & Hfiles) Hne. unfold done. rewrite Hidx.
  assert (in_mem_idx : match files with
                       | [] => None
                       | _ => Some (index_from 0 files)
                       end = Some (index_from 0 files)) by (by destruct files).
  rewrite in_mem_idx. set (index := sort_index (index_from 0 files)).
  destruct (open_sources_spec cfg eid (disk st) (fileno st))
    as (sources & -> & Hlt & Hge).
  { intros f Hf. rewrite Hno in Hf.
    destruct (lookup_lt_is_Some_2 files f Hf) as [b Hb].
    destruct (Hfiles f b Hb) as (_ & _ & ->). eauto. }
  cbn [mbind result_bind].
  assert (0 < max_chunksize)%nat as Hchunk by (unfold max_chunksize; lia).
  assert (∀ f b, files !! f = Some b →
            sources !! f = Some (to_batches (length b) max_chunksize b))
    as Hsrc.
  { intros f b Hb. rewrite Hlt by (rewrite Hno; by eapply lookup_lt_Some).
    by destruct (Hfiles f b Hb) as (_ & _ & ->). }
  unfold open_cursor. rewrite decide_True; last first.
  { apply map_Forall_lookup. intros f file Hfile.
    destruct (decide (f < length files)%nat) as [Hf|Hf].
    - destruct (lookup_lt_is_Some_2 files f Hf) as [b Hb].
      rewrite (Hsrc f b Hb) in Hfile. injection Hfile as <-.
      apply to_batches_nonempty. by destruct (Hfiles f b Hb).
    - rewrite Hge in Hfile by lia. done. }
  cbn [mbind result_bind]. unfold py_range.
  rewrite decide_False by lia. rewrite decide_False by lia.
  cbn [mbind result_bind].
  set (cur := {| cached_batches := _ |}).
  set (rem := λ f, default [] (files !! f)).
  destruct (yield_all_sizes cfg sources index (length files) (length index))
    with (k := 0%nat) (cur := cur) (rem := rem)
    as (outs & Hy & Hsizes & Hfull & _).
  - lia.
  - apply sort_index_sorted.
  - intros e He. unfold index in He. rewrite sort_index_perm in He.
    apply index_from_files in He. lia.
  - lia.
  - intros f Hf. destruct (lookup_lt_is_Some_2 files f Hf) as [b Hb].
    destruct (Hfiles f b Hb) as (Hbne & Hbs & _).
    unfold rem. rewrite Hb. simpl. split.
    + exists (to_batches (length b) max_chunksize b).
      pose proof (to_batches_nonempty max_chunksize b Hbne) as Hnb.
      pose proof (to_batches_concat (length b) max_chunksize b Hchunk
                    ltac:(lia)) as Hcat.
      destruct (to_batches (length b) max_chunksize b) as [|x bs] eqn:Hbs';
        [done|].
      exists x, 1%nat. unfold cur. cbn [cached_batches current_number_for_source].
      rewrite !lookup_fmap, (Hsrc f b Hb), Hbs'. simpl.
      repeat split; [lia|]. by rewrite drop_0.
    + rewrite drop_0. by apply sorted_index_keys.
  - exists outs. by rewrite Hy.
Qed.

End SortBatchSizes.

(** X8. With a positive [output_batch_rows], once some row was
    delivered the consumer ends without an exception, yields as many
    rows as were delivered, no batch empty or above [output_batch_rows]
    rows, and every batch but the last of exactly [output_batch_rows]
    rows. *)
Theorem consumer_batches_are_full
    (cfg : SuperFastSort.Config)
    (calls : list (list (option (list SuperFastSort.Row))))
    (eid : Z) (d : gmap string (list (list SuperFastSort.Row))) :
  let B := Z.to_nat (SuperFastSort.output_batch_rows cfg) in
  0 < SuperFastSort.output_batch_rows cfg →
  SuperFastSort.delivered calls ≠ [] →
  ∃ st outs,
    SuperFastSort.run cfg (SuperFastSort.init d) calls eid = Ok st ∧
    SuperFastSort.done cfg st eid = (outs, None) ∧
    length (concat outs) = length (SuperFastSort.delivered calls) ∧
    Forall (λ out, 0 < length out ≤ B)%nat outs ∧
    (∀ i out, outs !! i = Some out → (S i < length outs)%nat →
              length out = B).
Proof.
  intros B HB Hne.
  destruct (run_produced cfg eid calls (SuperFastSort.init d) [])
    as (st & files & Hrun & Hprod & Hperm).
  { split; [done|]. split; [done|]. intros f b Hb. by rewrite lookup_nil in Hb. }
  simpl in Hprod.
  assert (files ≠ []) as Hfiles.
  { intros ->. apply Hne. by apply Permutation_nil_l in Hperm. }
  destruct (done_sizes cfg eid st files HB Hprod Hfiles)
    as (outs & Hdone & Hsizes & Hfull).
  destruct (done_produced cfg eid st files HB Hprod)
    as (outs' & Hdone' & _ & _ & Hcat).
  rewrite Hdone in Hdone'. injection Hdone' as <- _.
  exists st, outs. split; [done|]. split; [done|]. split; [|done].
  by rewrite Hcat, Hperm.
Qed.

Lemma consumer_batches_are_full_witness :
  let cfg := {| SuperFastSort.output_batch_rows := 2;
                SuperFastSort.prefix := "mergesort";
                SuperFastSort.data_dir := "/data/" |} in
  let r k v := {| SuperFastSort.key := k; SuperFastSort.val := v |} in
  let calls := [[Some [r 5 1; r 1 2]; Some [r 3 3]]; [None];
                [Some [r 4 4; r 2 5]]] in
  ∃ st outs,
    SuperFastSort.run cfg (SuperFastSort.init ∅) calls 0 = Ok st ∧
    SuperFastSort.done cfg st 0 = (outs, None) ∧
    length (concat outs) = length (SuperFastSort.delivered calls) ∧
    Forall (λ out, 0 < length out ≤ 2)%nat outs ∧
    (∀ i out, outs !! i = Some out → (S i < length outs)%nat →
              length out = 2%nat).
Proof.
  intros cfg r calls.
  apply (consumer_batches_are_full cfg calls 0 ∅); [reflexivity|done].
Defined.

(** ** Sorted as-of join: the streamed result is the batch result *)

Section AsofStreaming.
Import SortedAsof AsofRun.

Lemma last_filter_kept {A} (P K : A → Prop)
    `{!∀ x, Decision (P x), !∀ x, Decision (K x)} (l : list A) :
  (∀ r, last (filter P l) = Some r → K r) →
  last (filter P (filter K l)) = last (filter P l).
Proof.
  induction l as [|a l IH] using rev_ind; intros HK; [done|].
  assert (∀ Q `{!∀ x, Decision (Q x)},
            filter Q [a] = if decide (Q a) then [a] else []) as Hone
    by (intros; by rewrite filter_cons, filter_nil).
  rewrite (filter_app K), !filter_app, !last_app, (Hone K _), (Hone P _).
  rewrite (filter_app P), last_app, (Hone P _) in HK.
  destruct (decide (P a)) as [HP|HP].
  - rewrite decide_True by (by apply HK).
    by rewrite (Hone P _), decide_True.
  - simpl in HK |- *.
    assert (last (filter P (if decide (K a) then [a] else [])) = None) as ->.
    { case_decide; [|done]. by rewrite (Hone P _), decide_False. }
    by apply IH.
Qed.

Lemma filter_none {A} (P : A → Prop) `{!∀ x, Decision (P x)} (l : list A) :
  (∀ x, x ∈ l → ¬ P x) → filter P l = [].
Proof.
  induction l as [|a l IH]; intros Hnone; [done|].
  rewrite filter_cons, decide_False by (apply Hnone; left).
  apply IH. intros x Hx. apply Hnone. by right.
Qed.

(** A time-ordered table splits at a watermark. *)
Lemma sorted_split (l : list Row) w :
  StronglySorted by_time l →
  filter (λ r, time r < w) l ++ filter (λ r, w ≤ time r) l = l.
Proof.
  induction 1 as [|x l Hs IH Hx]; [done|].
  rewrite !filter_cons. destruct (decide (time x < w)) as [Hlt|Hge].
  - rewrite decide_False by lia. simpl. by rewrite IH.
  - rewrite decide_True by lia.
    assert (filter (λ r, time r < w) l = []) as Hnil.
    { apply filter_none. intros r Hr.
      rewrite Forall_forall in Hx. specialize (Hx r Hr).
      unfold by_time in Hx. lia. }
    rewrite Hnil in IH |- *. simpl in IH |- *. by rewrite IH.
Qed.

Lemma sorted_last_max (l : list Row) r x :
  StronglySorted by_time l → last l = Some r → x ∈ l → time x ≤ time r.
Proof.
  intros Hs [l' ->]%last_Some [Hx| ->%list_elem_of_singleton]%elem_of_app;
    [|done].
  apply (StronglySorted_app_1_elem_of _ _ _ x r) in Hs; [done|done|left].
Qed.

Lemma join_asof_fst strategy (left right : list Row) :
  (join_asof strategy left right).*1 = left.
Proof.
  unfold join_asof. rewrite <-list_fmap_compose.
  rewrite <-(list_fmap_id left) at 2. by apply list_fmap_ext.
Qed.

Lemma pa_concat_tables_rows (batches : list (option (list Row))) batch :
  pa_concat_tables batches = Ok batch → batch = concat (not_none batches).
Proof.
  unfold pa_concat_tables.
  assert (∀ ts, all_tables batches = Ok ts → ts = not_none batches) as Hall.
  { induction batches as [|[b|] batches IH]; simpl; intros ts.
    - by intros [= <-].
    - destruct (all_tables batches) as [bs|]; [|done]. simpl.
      intros [= <-]. by rewrite (IH bs).
    - done. }
  destruct (all_tables batches) as [ts|] eqn:Hts; [|done]. simpl.
  rewrite <-(Hall ts eq_refl). destruct ts; [done|]. by intros [= <-].
Qed.

(** What the buffering step leaves. *)
Lemma absorb_spec st batches stream_id st1 :
  absorb st batches stream_id = Ok st1 →
  let b := concat (not_none batches) in
  if decide (stream_id = 0)
  then trade_state st1 = Some (buf (trade_state st) ++ b) ∧
       quote_state st1 = quote_state st
  else quote_state st1 = Some (buf (quote_state st) ++ b) ∧
       trade_state st1 = trade_state st.
Proof.
  unfold absorb. destruct (pa_concat_tables batches) as [batch|] eqn:Hb; [|done].
  apply pa_concat_tables_rows in Hb as <-. simpl.
  assert (∀ side s, buffer side batch = Ok s → s = buf side ++ batch) as Hbuf.
  { intros [s0|] s; unfold buffer; simpl; [|by intros [= <-]].
    destruct (decide (0 < length s0)%nat); simpl.
    - destruct (last_time s0); [|done]. simpl.
      destruct (first_time batch); [|done]. simpl.
      destruct (passert _); [|done]. simpl. by intros [= <-].
    - by intros [= <-]. }
  case_decide.
  - destruct (buffer (trade_state st) batch) as [ts|] eqn:Hts; [|done].
    simpl. intros [= <-]. simpl. by rewrite (Hbuf _ _ Hts).
  - destruct (buffer (quote_state st) batch) as [qs|] eqn:Hqs; [|done].
    simpl. intros [= <-]. simpl. by rewrite (Hbuf _ _ Hqs).
Qed.

(** What the joining step does. *)
Lemma emit_result_cases st result st' :
  emit st = Ok (result, st') →
  (result = None ∧ st' = st) ∨
  ∃ trades quotes ql tj,
    trade_state st = Some trades ∧ quote_state st = Some quotes ∧
    last quotes = Some ql ∧
    let jt := filter (λ r, time r < time ql) trades in
    let jq := filter (λ r, time r ≤ time tj) quotes in
    last jt = Some tj ∧
    result = Some (join_asof asof_backward jt jq) ∧
    trade_state st' = Some (filter (λ r, time ql ≤ time r) trades) ∧
    quote_state st' =
      Some (prune quotes
              (latest_by_symbol
                 (drop_nulls (join_asof asof_forward jq jt)).*1)).
Proof.
  intros Hem.
  destruct (trade_state st) as [trades|] eqn:Ht; last first.
  { unfold emit in Hem. rewrite Ht in Hem. left. by injection Hem as <- <-. }
  destruct (quote_state st) as [quotes|] eqn:Hq; last first.
  { unfold emit in Hem. rewrite Ht, Hq in Hem. left. by injection Hem as <- <-. }
  destruct (decide (trades = [])) as [->|Hnt].
  { unfold emit in Hem. rewrite Ht, Hq in Hem.
    rewrite decide_True in Hem by (simpl; auto). left. by injection Hem as <- <-. }
  destruct (decide (quotes = [])) as [->|Hnq].
  { unfold emit in Hem. rewrite Ht, Hq in Hem.
    rewrite decide_True in Hem by (simpl; auto). left. by injection Hem as <- <-. }
  destruct (last quotes) as [ql|] eqn:Hl; [|by apply last_None in Hl].
  rewrite (emit_unfold st trades quotes (time ql)) in Hem; try done;
    [|by unfold last_time; rewrite Hl].
  cbn zeta in Hem.
  destruct (last (filter (λ r, time r < time ql) trades)) as [tj|] eqn:Htj;
    [|left; by injection Hem as <- <-].
  destruct (filter (λ r, time r ≤ time tj) quotes) as [|q0 jq] eqn:Hjq;
    [left; by injection Hem as <- <-|].
  right. exists trades, quotes, ql, tj. cbn zeta. rewrite Htj, Hjq.
  injection Hem as <- <-. done.
Qed.

Lemma streaming_absorb st batches stream_id st1 E Ts Qs Qf :
  let b := concat (not_none batches) in
  let Ts' := if decide (stream_id = 0) then Ts ++ b else Ts in
  let Qs' := if decide (stream_id = 0) then Qs else Qs ++ b in
  absorb st batches stream_id = Ok st1 →
  streaming_inv st E Ts Qs →
  StronglySorted by_time (Qs' ++ Qf) →
  streaming_inv st1 E Ts' Qs'.
Proof.
  intros b Ts' Qs' Hab (HT & Hsq & Hin & Hm) HQ.
  apply absorb_spec in Hab. fold b in Hab. unfold Ts', Qs' in *.
  destruct (decide (stream_id = 0)) as [Hs|Hs].
  - destruct Hab as [Ht Hq]. unfold streaming_inv. rewrite Ht, Hq. simpl.
    split; [by rewrite HT, app_assoc|done].
  - destruct Hab as [Hq Ht]. unfold streaming_inv. rewrite Ht, Hq. simpl.
    apply StronglySorted_app_1_l in HQ.
    split; [done|]. split; [|split].
    + apply StronglySorted_app_2; [|done|by apply StronglySorted_app_1_r in HQ].
      intros x1 x2 Hx1%Hin Hx2.
      by apply (StronglySorted_app_1_elem_of _ _ _ x1 x2) in HQ.
    + intros q [Hq'%Hin|Hq']%elem_of_app; apply elem_of_app; auto.
    + intros t Ht'. specialize (Hm t Ht'). unfold asof_backward in *.
      by rewrite !filter_app, !last_app, Hm.
Qed.

Lemma streaming_emit st1 result st' E Ts Qs Qf :
  emit st1 = Ok (result, st') →
  streaming_inv st1 E Ts Qs →
  StronglySorted by_time Ts →
  StronglySorted by_time (Qs ++ Qf) →
  (∀ q, q ∈ Qs → -1 ≤ time q) →
  streaming_inv st' (E ++ (default [] result).*1) Ts Qs ∧
  default [] result =
    join_asof asof_backward (default [] result).*1 (Qs ++ Qf).
Proof.
  intros Hem Hinv HT HQ Hneg.
  destruct (emit_result_cases st1 result st' Hem)
    as [[-> ->]|(trades & quotes & ql & tj & Ht & Hq & Hql & Hrest)].
  { simpl. by rewrite app_nil_r. }
  cbn zeta in Hrest. destruct Hrest as (Htj & -> & Ht' & Hq').
  destruct Hinv as (HTs & Hsq & Hin & Hm).
  rewrite Ht, Hq in *. simpl in HTs, Hsq, Hin, Hm.
  set (w := time ql) in *.
  set (jt := filter (λ r, time r < w) trades) in *.
  set (jq := filter (λ r, time r ≤ time tj) quotes) in *.
  assert (StronglySorted by_time trades) as Hst
    by (rewrite HTs in HT; by apply StronglySorted_app_1_r in HT).
  assert (∀ t, t ∈ jt → time t ≤ time tj) as Hjt_max.
  { intros t Hin'. apply (sorted_last_max jt); [|done|done].
    by apply StronglySorted_filter. }
  assert (∀ t e, t ∈ trades → e ∈ E → time e ≤ time t) as HE.
  { intros t e Hin' He. rewrite HTs in HT.
    by apply (StronglySorted_app_1_elem_of _ _ _ e t) in HT. }
  simpl. rewrite join_asof_fst. split.
  - unfold streaming_inv. rewrite Ht', Hq'. simpl. split; [|split; [|split]].
    + rewrite HTs, <-app_assoc. f_equal. symmetry. by apply sorted_split.
    + by apply StronglySorted_filter.
    + intros q [_ Hq0]%list_elem_of_filter. by apply Hin.
    + intros t Hge. rewrite <-Hm by (intros e He; apply Hge, elem_of_app; auto).
      unfold asof_backward, prune. apply last_filter_kept.
      intros r Hr.
      destruct (asof_backward_nearest t quotes r Hsq Hr)
        as (Hrin & Hsym & Htime & Hmax).
      destruct (latest_by_symbol _ !! symbol r) as [x|] eqn:Hx; simpl.
      * apply latest_by_symbol_Some in Hx as (q & Hqin & Hqs & <-).
        apply mock_result_matched in Hqin as [Hqjq (t0 & Ht0 & Hs0 & Hle)].
        apply Hmax.
        -- by apply list_elem_of_filter in Hqjq as [_ ?].
        -- congruence.
        -- assert (time t0 ≤ time t) by (apply Hge, elem_of_app; auto). lia.
      * by apply Hneg, Hin.
  - unfold join_asof. apply list_fmap_ext. intros i t Hi.
    apply list_elem_of_lookup_2 in Hi. f_equal.
    pose proof (Hjt_max t Hi) as Hle.
    apply list_elem_of_filter in Hi as [Hlt Hin'].
    assert (asof_backward t jq = asof_backward t quotes) as ->.
    { unfold asof_backward, jq. f_equal.
      apply list_filter_filter_l. intros q [_ ?]. lia. }
    rewrite Hm by (intros e He; by apply HE).
    unfold asof_backward. rewrite filter_app.
    assert (filter (λ r, symbol r = symbol t ∧ time r ≤ time t) Qf = [])
      as ->; [|by rewrite app_nil_r].
    apply filter_none. intros q Hq0 [_ Hqt].
    assert (ql ∈ Qs) as Hqls by (by apply Hin, last_elem_of).
    apply (StronglySorted_app_1_elem_of _ _ _ ql q) in HQ; [|done|done].
    unfold by_time in HQ. unfold w in Hlt. lia.
Qed.

Lemma trades_cons (c : Call) calls :
  trades (c :: calls) =
    (if decide (c.2 = 0) then rows_of c else []) ++ trades calls.
Proof. unfold trades. rewrite filter_cons. by case_decide. Qed.

Lemma quotes_cons (c : Call) calls :
  quotes (c :: calls) =
    (if decide (c.2 = 0) then [] else rows_of c) ++ quotes calls.
Proof.
  unfold quotes. rewrite filter_cons.
  destruct (decide (c.2 = 0)); [by rewrite decide_False by auto|].
  by rewrite decide_True.
Qed.

Lemma run_streaming calls :
  ∀ st outs st' E Ts Qs,
    run st calls = Ok (outs, st') →
    streaming_inv st E Ts Qs →
    StronglySorted by_time (Ts ++ trades calls) →
    StronglySorted by_time (Qs ++ quotes calls) →
    (∀ q, q ∈ Qs ++ quotes calls → -1 ≤ time q) →
    streaming_inv st' (E ++ (returned outs).*1)
      (Ts ++ trades calls) (Qs ++ quotes calls) ∧
    returned outs =
      join_asof asof_backward (returned outs).*1 (Qs ++ quotes calls).
Proof.
  induction calls as [|[batches sid] calls IH];
    intros st outs st' E Ts Qs Hrun Hinv HT HQ Hneg.
  { injection Hrun as <- <-. unfold trades, quotes, returned. simpl.
    by rewrite !app_nil_r. }
  cbn [run] in Hrun.
  destruct (execute st batches sid) as [[r st1]|] eqn:Hex; [|done].
  simpl in Hrun.
  destruct (run st1 calls) as [[rs st2]|] eqn:Hrest; [|done].
  injection Hrun as <- <-.
  unfold execute in Hex.
  destruct (absorb st batches sid) as [sta|] eqn:Hab; [|done]. simpl in Hex.
  rewrite trades_cons, quotes_cons in *. unfold rows_of in *. simpl in *.
  set (b := concat (not_none batches)) in *.
  set (Ts' := if decide (sid = 0) then Ts ++ b else Ts).
  set (Qs' := if decide (sid = 0) then Qs else Qs ++ b).
  assert (Ts ++ (if decide (sid = 0) then b else []) ++ trades calls
          = Ts' ++ trades calls) as HTs
    by (unfold Ts'; case_decide; simpl; by rewrite ?app_assoc).
  assert (Qs ++ (if decide (sid = 0) then [] else b) ++ quotes calls
          = Qs' ++ quotes calls) as HQs
    by (unfold Qs'; case_decide; simpl; by rewrite ?app_assoc).
  rewrite HTs in *. rewrite HQs in *.
  pose proof (streaming_absorb st batches sid sta E Ts Qs (quotes calls)
                Hab Hinv HQ) as Hinva.
  fold b in Hinva. fold Ts' Qs' in Hinva.
  destruct (streaming_emit sta r st1 E Ts' Qs' (quotes calls) Hex Hinva)
    as [Hinv1 Hres].
  { by apply StronglySorted_app_1_l in HT. }
  { done. }
  { intros q Hq. apply Hneg, elem_of_app. auto. }
  destruct (IH st1 rs st2 _ Ts' Qs' Hrest Hinv1 HT HQ Hneg) as [Hinv2 Hrs].
  unfold returned in *. cbn [fmap list_fmap concat].
  change (list_fmap _ _ ?g ?l) with (g <$> l) in *.
  rewrite fmap_app, app_assoc. split; [done|].
  unfold join_asof in *. rewrite fmap_app. by rewrite <-Hres, <-Hrs.
Qed.

End AsofStreaming.

(** X9. When the trades and the quotes each arrive in time order over
    the whole history and no quote is stamped before -1, every history
    of [execute] calls that runs through, followed by a [done] that
    returns, has returned, call after call and then from [done], exactly
    the as-of join of all delivered trades against all delivered quotes:
    every trade once, in arrival order, with the last quote of its
    symbol at or before it. *)
Theorem asof_stream_equals_batch_join
    (calls : list AsofRun.Call) (outs : list (option AsofRun.Joined))
    (st : SortedAsof.State) (final : AsofRun.Joined) :
  StronglySorted AsofRun.by_time (AsofRun.trades calls) →
  StronglySorted AsofRun.by_time (AsofRun.quotes calls) →
  (∀ q, q ∈ AsofRun.quotes calls → -1 ≤ SortedAsof.time q) →
  AsofRun.run SortedAsof.init calls = Ok (outs, st) →
  SortedAsof.done st = Ok (Some final) →
  AsofRun.returned outs ++ final =
    SortedAsof.join_asof SortedAsof.asof_backward
      (AsofRun.trades calls) (AsofRun.quotes calls).
Proof.
  intros HT HQ Hneg Hrun Hdone.
  assert (AsofRun.streaming_inv SortedAsof.init [] [] []) as Hinit.
  { split; [done|]. split; [constructor|]. split; [done|]. by intros t _. }
  destruct (run_streaming calls SortedAsof.init outs st [] [] [] Hrun Hinit
              HT HQ Hneg)
    as [(HTs & Hsq & Hin & Hm) Hres].
  simpl in HTs, Hin, Hm, Hres.
  unfold SortedAsof.done in Hdone.
  destruct (SortedAsof.trade_state st) as [trades|]; [|done].
  destruct (SortedAsof.quote_state st) as [quotes|]; [|done].
  injection Hdone as <-. simpl in *.
  rewrite HTs. unfold SortedAsof.join_asof in *.
  rewrite fmap_app, <-Hres. f_equal.
  apply list_fmap_ext. intros i t Hi. f_equal. apply Hm.
  intros e He. apply list_elem_of_lookup_2 in Hi. rewrite HTs in HT.
  by apply (StronglySorted_app_1_elem_of _ _ _ e t) in HT.
Qed.


Lemma asof_stream_equals_batch_join_witness :
  let r t s v := {| SortedAsof.time := t; SortedAsof.symbol := s;
                    SortedAsof.val := v |} in
  let calls : list AsofRun.Call :=
    [([Some [r 1 7 10; r 2 8 11]], 1); ([Some [r 2 7 0; r 3 8 1]], 0);
     ([Some [r 4 7 12; r 6 8 13]], 1); ([Some [r 5 7 2; r 9 8 3]], 0)] in
  AsofRun.returned
    [None; None;
     Some [(r 2 7 0, Some (r 1 7 10)); (r 3 8 1, Some (r 2 8 11))];
     Some [(r 5 7 2, Some (r 4 7 12))]] ++
  [(r 9 8 3, Some (r 6 8 13))] =
  SortedAsof.join_asof SortedAsof.asof_backward
    (AsofRun.trades calls) (AsofRun.quotes calls).
Proof.
  intros r calls.
  apply (asof_stream_equals_batch_join calls _
           {| SortedAsof.trade_state := Some [r 9 8 3];
              SortedAsof.quote_state := Some [r 2 8 11; r 4 7 12; r 6 8 13] |}).
  - repeat constructor; unfold AsofRun.by_time; simpl; lia.
  - repeat constructor; unfold AsofRun.by_time; simpl; lia.
  - intros q Hq.
    repeat (apply elem_of_cons in Hq as [->|Hq]; [simpl; lia|]).
    by apply elem_of_nil in Hq.
  - reflexivity.
  - reflexivity.
Defined.

Section AsofRunsThrough.
Import SortedAsof AsofRun.

Lemma emit_returns st : ∃ r st', emit st = Ok (r, st').
Proof.
  unfold emit.
  destruct (trade_state st) as [trades|]; [|by eauto].
  destruct (quote_state st) as [quotes|]; [|by eauto].
  case_decide as Hlen; [by eauto|].
  assert (∀ l : list Row, length l ≠ 0%nat → ∃ w, last_time l = Ok w) as Hlast.
  { intros l Hl. unfold last_time.
    destruct (last l) eqn:Hl'; [by eauto|].
    apply last_None in Hl' as ->. done. }
  destruct (Hlast quotes) as [w ->]; [tauto|]. simpl.
  case_decide as Hjt; [by eauto|].
  destruct (Hlast _ Hjt) as [j ->]. simpl.
  case_decide; by eauto.
Qed.

Lemma emit_buffers st r st' :
  emit st = Ok (r, st') →
  (is_Some (trade_state st') ↔ is_Some (trade_state st)) ∧
  (is_Some (quote_state st') ↔ is_Some (quote_state st)) ∧
  (∀ t, t ∈ buf (trade_state st') → t ∈ buf (trade_state st)) ∧
  (∀ q, q ∈ buf (quote_state st') → q ∈ buf (quote_state st)).
Proof.
  intros Hem.
  destruct (emit_result_cases st r st' Hem)
    as [[-> ->]|(trades & quotes & ql & tj & Ht & Hq & Hql & Hrest)]; [done|].
  cbn zeta in Hrest. destruct Hrest as (_ & _ & -> & ->). rewrite Ht, Hq.
  split; [done|]. split; [done|]. simpl.
  split; by intros x [_ ?]%list_elem_of_filter.
Qed.

(** A batch that continues its side in time order is buffered. *)
Lemma absorb_returns st batches stream_id Ts Qs :
  let b := concat (not_none batches) in
  batches ≠ [] → Forall is_Some batches → b ≠ [] →
  (∀ t, t ∈ buf (trade_state st) → t ∈ Ts) →
  (∀ q, q ∈ buf (quote_state st) → q ∈ Qs) →
  StronglySorted by_time ((if decide (stream_id = 0) then Ts else Qs) ++ b) →
  ∃ st1, absorb st batches stream_id = Ok st1.
Proof.
  intros b Hne Hall Hb HT HQ Hs. unfold absorb.
  assert (pa_concat_tables batches = Ok b) as ->.
  { unfold pa_concat_tables. rewrite (all_tables_not_none batches Hall).
    simpl. unfold concat_tables.
    destruct batches as [|[t|] batches]; [done|done|].
    by apply Forall_cons in Hall as [[? [=]] _]. }
  simpl.
  assert (∀ side S, (∀ x, x ∈ buf side → x ∈ S) →
            StronglySorted by_time (S ++ b) →
            ∃ s, buffer side b = Ok s) as Hbuf.
  { intros [s|] S HS Hsorted; unfold buffer; [|by eexists].
    destruct (decide (0 < length s)%nat) as [Hlen|Hlen]; [|by eexists].
    unfold last_time. destruct (last s) as [l|] eqn:Hl;
      [|apply last_None in Hl as ->; simpl in Hlen; lia].
    simpl. destruct b as [|f b'] eqn:Hb'; [done|]. simpl.
    rewrite bool_decide_eq_true_2; [by eexists|].
    apply (StronglySorted_app_1_elem_of _ _ _ l f) in Hsorted; [done| |left].
    by apply HS, last_elem_of. }
  case_decide.
  - destruct (Hbuf (trade_state st) Ts HT Hs) as [s ->]. by eexists.
  - destruct (Hbuf (quote_state st) Qs HQ Hs) as [s ->]. by eexists.
Qed.

Lemma run_returns calls :
  ∀ st Ts Qs,
    Forall (λ c : Call, c.1 ≠ [] ∧ Forall is_Some c.1 ∧ rows_of c ≠ []) calls →
    (∀ t, t ∈ buf (trade_state st) → t ∈ Ts) →
    (∀ q, q ∈ buf (quote_state st) → q ∈ Qs) →
    StronglySorted by_time (Ts ++ trades calls) →
    StronglySorted by_time (Qs ++ quotes calls) →
    ∃ outs st',
      run st calls = Ok (outs, st') ∧
      (is_Some (trade_state st') ↔
         is_Some (trade_state st) ∨ Exists (λ c, c.2 = 0) calls) ∧
      (is_Some (quote_state st') ↔
         is_Some (quote_state st) ∨ Exists (λ c, c.2 ≠ 0) calls).
Proof.
  induction calls as [|[batches sid] calls IH];
    intros st Ts Qs Hcalls HT HQ HsT HsQ.
  { exists [], st. split; [done|]. rewrite !Exists_nil. tauto. }
  apply Forall_cons in Hcalls as [(Hne & Hall & Hb) Hcalls].
  unfold rows_of in Hb. simpl in Hne, Hall, Hb.
  rewrite trades_cons, quotes_cons in *. unfold rows_of in *. simpl in *.
  set (b := concat (not_none batches)) in *.
  destruct (absorb_returns st batches sid Ts Qs Hne Hall Hb HT HQ)
    as [sta Hab].
  { fold b. destruct (decide (sid = 0)).
    - rewrite app_assoc in HsT. by apply StronglySorted_app_1_l in HsT.
    - rewrite app_assoc in HsQ. by apply StronglySorted_app_1_l in HsQ. }
  destruct (emit_returns sta) as (r & st1 & Hem).
  pose proof (absorb_spec st batches sid sta Hab) as Hspec.
  cbn zeta in Hspec. fold b in Hspec.
  destruct (emit_buffers sta r st1 Hem) as (HsomeT & HsomeQ & HinT & HinQ).
  set (Ts' := if decide (sid = 0) then Ts ++ b else Ts).
  set (Qs' := if decide (sid = 0) then Qs else Qs ++ b).
  assert (∀ t, t ∈ buf (trade_state sta) → t ∈ Ts') as HTa.
  { unfold Ts'. revert Hspec. destruct (decide (sid = 0)).
    - intros [-> _] t Ht. simpl in Ht.
      apply elem_of_app in Ht as [?|?]; apply elem_of_app; auto.
    - intros [_ ->]. auto. }
  assert (∀ q, q ∈ buf (quote_state sta) → q ∈ Qs') as HQa.
  { unfold Qs'. revert Hspec. destruct (decide (sid = 0)).
    - intros [_ ->]. auto.
    - intros [-> _] q Hq. simpl in Hq.
      apply elem_of_app in Hq as [?|?]; apply elem_of_app; auto. }
  assert ((is_Some (trade_state sta) ↔ is_Some (trade_state st) ∨ sid = 0) ∧
          (is_Some (quote_state sta) ↔ is_Some (quote_state st) ∨ sid ≠ 0))
    as [HsT' HsQ'].
  { revert Hspec. destruct (decide (sid = 0)); intros [-> ->].
    - split; [split; [by auto|by eauto]|]. split; [by auto|]. by intros [?|?].
    - split; [|split; [by auto|by eauto]]. split; [by auto|]. by intros [?|?]. }
  destruct (IH st1 Ts' Qs') as (outs & st' & Hrun & HT' & HQ').
  - done.
  - intros t Ht%HinT. by apply HTa.
  - intros q Hq%HinQ. by apply HQa.
  - unfold Ts'. destruct (decide (sid = 0)); [by rewrite <-app_assoc|done].
  - unfold Qs'. destruct (decide (sid = 0)); [done|by rewrite <-app_assoc].
  - exists (r :: outs), st'. cbn [run]. unfold execute. rewrite Hab. simpl.
    rewrite Hem. simpl. rewrite Hrun. simpl. split; [done|].
    rewrite !Exists_cons. simpl. rewrite HT', HQ', HsomeT, HsomeQ, HsT', HsQ'.
    tauto.
Qed.

End AsofRunsThrough.

(** X10. When every call delivers at least one table, no [None] and
    at least one row, and the trades and the quotes each arrive in time
    order over the whole history, no [execute] call raises; and once
    both streams have delivered, [done] returns the join of what is
    still buffered. *)
Theorem asof_sorted_streams_run_through (calls : list AsofRun.Call) :
  Forall (λ c : AsofRun.Call,
            c.1 ≠ [] ∧ Forall is_Some c.1 ∧ AsofRun.rows_of c ≠ []) calls →
  StronglySorted AsofRun.by_time (AsofRun.trades calls) →
  StronglySorted AsofRun.by_time (AsofRun.quotes calls) →
  ∃ outs st,
    AsofRun.run SortedAsof.init calls = Ok (outs, st) ∧
    (Exists (λ c, c.2 = 0) calls → Exists (λ c, c.2 ≠ 0) calls →
     ∃ final, SortedAsof.done st = Ok (Some final)).
Proof.
  intros Hcalls HT HQ.
  destruct (run_returns calls SortedAsof.init [] [] Hcalls)
    as (outs & st & Hrun & HsT & HsQ); try done.
  exists outs, st. split; [done|]. intros H0 H1. unfold SortedAsof.done.
  destruct (proj2 HsT (or_intror H0)) as [trades ->].
  destruct (proj2 HsQ (or_intror H1)) as [quotes ->]. by eauto.
Qed.

Lemma asof_sorted_streams_run_through_witness :
  let r t s v := {| SortedAsof.time := t; SortedAsof.symbol := s;
                    SortedAsof.val := v |} in
  let calls : list AsofRun.Call :=
    [([Some [r 1 7 10; r 2 8 11]], 1); ([Some [r 2 7 0; r 3 8 1]], 0);
     ([Some [r 4 7 12; r 6 8 13]], 1); ([Some [r 5 7 2; r 9 8 3]], 0)] in
  ∃ outs st,
    AsofRun.run SortedAsof.init calls = Ok (outs, st) ∧
    (Exists (λ c, c.2 = 0) calls → Exists (λ c, c.2 ≠ 0) calls →
     ∃ final, SortedAsof.done st = Ok (Some final)).
Proof.
  intros r calls. apply (asof_sorted_streams_run_through calls).
  - repeat constructor; simpl; try done; eauto.
  - repeat constructor; unfold AsofRun.by_time; simpl; lia.
  - repeat constructor; unfold AsofRun.by_time; simpl; lia.
Defined.

(** ** Build-probe join: builds first, then probes *)

Section BuildThenProbe.
Import BuildProbe BuildProbeRun.
Variable cfg : Config.

Lemma rows_cons (c : Call) calls : rows (c :: calls) = concat (live c.1) ++ rows calls.
Proof. done. Qed.

Lemma live_concat_nil {R} (batches : list (option (list R))) :
  concat (live batches) = [] → live batches = [].
Proof.
  destruct (live batches) as [|b bl] eqn:Hl; [done|].
  simpl. intros [Hb _]%app_eq_nil. exfalso.
  apply (live_rows batches b); [rewrite Hl; left|done].
Qed.

(** The build phase: the rows pile up in arrival order. *)
Lemma run_out_builds builds :
  ∀ st,
    Forall (λ c : Call, c.2 = 1) builds →
    phase st = phase_build →
    ∃ st',
      run_out cfg st builds = Ok (replicate (length builds) None, st') ∧
      phase st' = phase_build ∧
      state st' = match rows builds with
                  | [] => state st
                  | B => Some (default [] (state st) ++ B)
                  end.
Proof.
  induction builds as [|[bs sid] builds IH]; intros st Hall Hph.
  { by exists st. }
  apply Forall_cons in Hall as [Hsid Hall]. simpl in Hsid. subst sid.
  cbn [run_out]. unfold execute at 1.
  destruct (live bs) as [|b bl] eqn:Hl.
  - simpl. destruct (IH st Hall Hph) as (st' & -> & Hph' & Hst').
    exists st'. simpl. split; [done|]. split; [done|].
    rewrite rows_cons. cbn [fst]. by rewrite Hl.
  - rewrite decide_False by done. rewrite decide_True by done.
    simpl. rewrite Hph. simpl.
    set (st1 := {| state := _ |}).
    destruct (IH st1 Hall) as (st' & -> & Hph' & Hst'); [done|].
    exists st'. simpl. split; [done|]. split; [done|].
    rewrite Hst', rows_cons. cbn [fst]. rewrite Hl. unfold st1. simpl.
    assert (concat (b :: bl) ≠ []) as Hne.
    { intros Hnil. rewrite <-Hl in Hnil. apply live_concat_nil in Hnil.
      by rewrite Hl in Hnil. }
    simpl in Hne. set (X := b ++ concat bl) in *.
    destruct (rows builds) as [|r B].
    + rewrite app_nil_r. destruct X as [|x X']; [done|].
      by destruct (state st).
    + destruct (X ++ r :: B) as [|y Y] eqn:Hcat.
      { by apply app_eq_nil in Hcat as [? ?]. }
      rewrite <-Hcat. destruct (state st); simpl; by rewrite ?app_assoc.
Qed.

(** The probe phase: the first probe with rows sorts the build table,
    and every probe is joined against that one table. *)
Lemma run_out_probes probes :
  ∀ st s0,
    Forall (λ c : Call, c.2 = 0) probes →
    state st = Some s0 →
    let s := match phase st with phase_build => sort s0 | phase_probe => s0 end in
    ∃ st',
      run_out cfg st probes = Ok (probe_frame cfg s <$> probes, st') ∧
      (state st' = Some s0 ∧ phase st' = phase st ∨
       state st' = Some s ∧ phase st' = phase_probe).
Proof.
  induction probes as [|[bs sid] probes IH]; intros st s0 Hall Hst s.
  { exists st. split; [done|]. by left. }
  apply Forall_cons in Hall as [Hsid Hall]. simpl in Hsid. subst sid.
  cbn [run_out]. unfold execute at 1. rewrite fmap_cons.
  unfold probe_frame at 1. cbn [fst].
  set (F := probe_frame cfg s <$> probes).
  destruct (live bs) as [|b bl] eqn:Hl.
  - simpl. destruct (IH st s0 Hall Hst) as (st' & Hrun & Hst').
    cbn zeta in Hrun. fold s F in Hrun. rewrite Hrun. by exists st'.
  - rewrite decide_False by done. rewrite decide_False by done.
    rewrite decide_True by done. simpl. rewrite Hst. fold s.
    set (st1 := {| state := Some s |}).
    destruct (IH st1 s Hall eq_refl) as (st' & Hrun & Hst').
    change (match phase st1 with phase_build => sort s | phase_probe => s end)
      with s in Hrun, Hst'.
    change (phase st1) with phase_probe in Hst'.
    fold F in Hrun. exists st'. cbn [mbind result_bind]. rewrite Hrun.
    split; [done|]. right. destruct Hst' as [[? ?]|[? ?]]; done.
Qed.

End BuildThenProbe.

(** X11. When a channel first receives its build calls (stream 1) and
    then its probe calls (stream 0), and some build row was delivered,
    no call raises, the build calls return nothing, and every probe call
    that delivers rows returns the join of its rows against one and the
    same table: all build rows delivered, sorted by the join key. *)
Theorem build_then_probe_joins_whole_build_side
    (cfg : BuildProbe.Config) (builds probes : list BuildProbe.Call) :
  Forall (λ c : BuildProbe.Call, c.2 = 1) builds →
  Forall (λ c : BuildProbe.Call, c.2 = 0) probes →
  BuildProbeRun.rows builds ≠ [] →
  ∃ st,
    BuildProbeRun.run_out cfg BuildProbe.init (builds ++ probes) =
      Ok (replicate (length builds) None ++
          (BuildProbeRun.probe_frame cfg
             (BuildProbe.sort (BuildProbeRun.rows builds)) <$> probes),
          st).
Proof.
  intros Hb Hp Hrows.
  destruct (run_out_builds cfg builds BuildProbe.init Hb eq_refl)
    as (st1 & Hrun1 & Hph1 & Hst1).
  simpl in Hst1.
  destruct (BuildProbeRun.rows builds) as [|r B] eqn:HB; [done|].
  destruct (run_out_probes cfg probes st1 (r :: B) Hp Hst1) as (st2 & Hrun2 & _).
  rewrite Hph1 in Hrun2. exists st2.
  assert (∀ c1 c2 st outs1 st' outs2 st'',
            BuildProbeRun.run_out cfg st c1 = Ok (outs1, st') →
            BuildProbeRun.run_out cfg st' c2 = Ok (outs2, st'') →
            BuildProbeRun.run_out cfg st (c1 ++ c2) = Ok (outs1 ++ outs2, st''))
    as Happ.
  { induction c1 as [|[bs sid] c1 IH]; intros c2 st outs1 st' outs2 st''.
    - by intros [= <- <-].
    - cbn [BuildProbeRun.run_out app].
      destruct (BuildProbe.execute cfg st bs sid) as [[o sta]|]; [|done].
      simpl. destruct (BuildProbeRun.run_out cfg sta c1) as [[os stb]|] eqn:Hc1;
        [|done].
      simpl. intros [= <- <-] Hc2. by rewrite (IH c2 sta os stb outs2 st''). }
  by apply (Happ builds probes _ _ st1).
Qed.

Lemma build_then_probe_joins_whole_build_side_witness :
  let cfg := {| BuildProbe.left_on := "k"; BuildProbe.right_on := "k";
                BuildProbe.how := BuildProbe.how_inner;
                BuildProbe.key_to_keep := "left" |} in
  let r k v := {| BuildProbe.key := k; BuildProbe.val := v |} in
  let builds : list BuildProbe.Call :=
    [([Some [r 3 30]; None], 1); ([Some [r 1 10; r 2 20]], 1)] in
  let probes : list BuildProbe.Call :=
    [([Some [r 2 0]], 0); ([Some []], 0); ([Some [r 1 0; r 4 0]], 0)] in
  ∃ st,
    BuildProbeRun.run_out cfg BuildProbe.init (builds ++ probes) =
      Ok (replicate (length builds) None ++
          (BuildProbeRun.probe_frame cfg
             (BuildProbe.sort (BuildProbeRun.rows builds)) <$> probes),
          st).
Proof.
  intros cfg r builds probes.
  apply (build_then_probe_joins_whole_build_side cfg builds probes).
  - repeat constructor.
  - repeat constructor.
  - done.
Defined.

(** ** DistinctExecutor *)

Section DistinctFacts.
Import Distinct.
Variable unique : list Row → list Row.
Hypothesis unique_NoDup : ∀ l, NoDup (unique l).
Hypothesis unique_elem_of : ∀ l r, r ∈ unique l ↔ r ∈ l.

Lemma anti_join_fresh batch st r :
  r ∈ anti_join batch st → r ∈ batch ∧ r ∉ st.
Proof.
  intros [Hk Hr]%list_elem_of_filter. split; [done|].
  intros Hin. apply Hk. by apply list_elem_of_fmap_2.
Qed.

Lemma delivered_cons batches calls :
  delivered (batches :: calls) = concat (live batches) ++ delivered calls.
Proof. unfold delivered. rewrite fmap_cons. simpl. by rewrite concat_app. Qed.

(** One call: what it emits is new, comes from its batches, and leaves
    every key of its batches in the state. *)
Lemma execute_spec st batches :
  let s := default [] (state st) in
  NoDup s →
  ∃ r st' new,
    execute unique st batches = Ok (r, st') ∧
    default [] (state st') = s ++ new ∧
    (state st = None → from_option (read st') [] r = new) ∧
    (is_Some (state st) → from_option (read st') [] r = new) ∧
    NoDup (s ++ new) ∧
    (∀ x, x ∈ new → x ∈ concat (live batches)) ∧
    (∀ x, x ∈ concat (live batches) → key x ∈ key <$> (s ++ new)) ∧
    (r = Some StateObject ↔ state st = None ∧ live batches ≠ []) ∧
    (is_Some (state st) → is_Some (state st')).
Proof.
  intros s Hs. unfold execute.
  destruct (live batches) as [|b bl] eqn:Hl.
  { exists None, st, []. simpl. rewrite app_nil_r. fold s.
    split; [done|]. split; [done|]. split; [done|]. split; [done|].
    split; [done|]. split; [by intros ? ?%elem_of_nil|].
    split; [by intros ? ?%elem_of_nil|]. split; [|done].
    split; [done|]. by intros [_ ?]. }
  rewrite decide_False by done.
  set (batch := unique (concat (b :: bl))).
  destruct (state st) as [s0|] eqn:Hst; simpl in s; subst s.
  - exists (Some (Frame (anti_join batch s0))),
      {| state := Some (s0 ++ anti_join batch s0) |}, (anti_join batch s0).
    simpl. split; [done|]. split; [done|]. split; [done|]. split; [done|].
    split; [|split; [|split; [|split]]].
    + apply NoDup_app. split; [done|]. split.
      * intros x Hx Hx'. by apply anti_join_fresh in Hx' as [_ ?].
      * unfold anti_join. apply NoDup_filter, unique_NoDup.
    + intros x [_ Hx]%list_elem_of_filter. unfold batch in Hx.
      by apply (proj1 (unique_elem_of _ _)) in Hx.
    + intros x Hx. rewrite fmap_app. apply elem_of_app.
      destruct (decide (key x ∈ key <$> s0)) as [Hin|Hnot]; [by left|].
      right. apply list_elem_of_fmap_2, list_elem_of_filter.
      split; [done|]. unfold batch. by apply (proj2 (unique_elem_of _ _)).
    + split; [done|]. by intros [? _].
    + by eauto.
  - exists (Some StateObject), {| state := Some batch |}, batch.
    simpl. split; [done|]. split; [done|]. split; [done|]. split; [done|].
    split; [apply unique_NoDup|]. split; [|split; [|split]].
    + intros x Hx. unfold batch in Hx.
      by apply (proj1 (unique_elem_of _ _)) in Hx.
    + intros x Hx. unfold batch.
      by apply list_elem_of_fmap_2, (proj2 (unique_elem_of _ _)).
    + done.
    + by eauto.
Qed.

Lemma run_spec calls :
  ∀ st,
    let s := default [] (state st) in
    NoDup s →
    ∃ outs seen st',
      run unique st calls = Ok (outs, seen, st') ∧
      length outs = length calls ∧ length seen = length calls ∧
      default [] (state st') = s ++ concat seen ∧
      NoDup (s ++ concat seen) ∧
      (∀ x, x ∈ concat seen → x ∈ delivered calls) ∧
      (∀ x, x ∈ delivered calls → key x ∈ key <$> (s ++ concat seen)) ∧
      (∀ i, outs !! i = Some (Some StateObject) →
            state st = None ∧
            concat (take i seen) = []) ∧
      (is_Some (state st) → is_Some (state st')).
Proof.
  induction calls as [|batches calls IH]; intros st s Hs.
  { exists [], [], st. simpl. rewrite app_nil_r. fold s.
    split; [done|]. split; [done|]. split; [done|]. split; [done|].
    split; [done|]. split; [by intros ? ?%elem_of_nil|].
    split; [by intros ? ?%elem_of_nil|]. split; [|done].
    intros i Hi. by rewrite lookup_nil in Hi. }
  destruct (execute_spec st batches Hs)
    as (r & st1 & new & Hex & Hst1 & Hnone & Hsome & Hnd & Hsub & Hkeys & Hobj & Hkeep).
  fold s in Hst1, Hnd, Hkeys.
  assert (from_option (read st1) [] r = new) as Hnew.
  { destruct (state st) eqn:Hst; [apply Hsome; eauto|by apply Hnone]. }
  destruct (IH st1) as (outs & seen & st' & Hrun & Hlo & Hls & Hst' & Hnd' & Hsub' & Hkeys' & Hobj' & Hkeep').
  { by rewrite Hst1. }
  rewrite Hst1 in Hst', Hnd', Hkeys'. rewrite <-app_assoc in Hst', Hnd', Hkeys'.
  exists (r :: outs), (new :: seen), st'. cbn [run]. rewrite Hex. simpl.
  rewrite Hrun. simpl. rewrite Hnew.
  split; [done|]. split; [by rewrite Hlo|]. split; [by rewrite Hls|].
  split; [done|]. split; [done|]. split; [|split; [|split]].
  - rewrite delivered_cons. cbn [concat].
    intros x [Hx|Hx]%elem_of_app; apply elem_of_app; auto.
  - rewrite delivered_cons. intros x [Hx|Hx]%elem_of_app; [|by apply Hkeys'].
    apply Hkeys in Hx. cbn [concat]. rewrite fmap_app, elem_of_app in Hx.
    rewrite !fmap_app, !elem_of_app. tauto.
  - intros [|i]; simpl.
    + intros [= ->]. destruct (proj1 Hobj eq_refl) as [Hn _]. by split.
    + intros Hi. destruct (Hobj' i Hi) as [Hn Hnil].
      assert (state st = None) as Hn0.
      { destruct (state st) eqn:Hst; [|done].
        destruct Hkeep as [? Hk]; [by eauto|]. by rewrite Hn in Hk. }
      split; [done|]. rewrite Hnil, app_nil_r.
      unfold s in Hst1. rewrite Hn0, Hn in Hst1. simpl in Hst1. done.
  - intros H. apply Hkeep', Hkeep, H.
Qed.

End DistinctFacts.

Section DistinctAlias.
Import Distinct.
Variable unique : list Row → list Row.

Lemma execute_alias st batches r st' :
  execute unique st batches = Ok (r, st') →
  default [] (state st') =
    default [] (state st) ++ from_option (read st') [] r ∧
  (r = Some StateObject → state st = None) ∧
  (is_Some (state st) → is_Some (state st')).
Proof.
  unfold execute. destruct (live batches) as [|b bl].
  { intros [= <- <-]. simpl. by rewrite app_nil_r. }
  rewrite decide_False by done.
  destruct (state st) as [s0|] eqn:Hst; intros [= <- <-]; simpl.
  - split; [done|]. split; [done|]. by eauto.
  - split; [done|]. split; [done|]. by intros [? ?].
Qed.

Lemma run_alias calls :
  ∀ st outs seen st',
    run unique st calls = Ok (outs, seen, st') →
    default [] (state st') = default [] (state st) ++ concat seen ∧
    (is_Some (state st) → is_Some (state st')) ∧
    ∀ i, outs !! i = Some (Some StateObject) →
         state st = None ∧ concat (take i seen) = [].
Proof.
  induction calls as [|batches calls IH]; intros st outs seen st'.
  { intros [= <- <- <-]. simpl. rewrite app_nil_r. split; [done|].
    split; [done|]. intros i Hi. by rewrite lookup_nil in Hi. }
  cbn [run].
  destruct (execute unique st batches) as [[r st1]|] eqn:Hex; [|done]. simpl.
  destruct (run unique st1 calls) as [[[rs sn] st2]|] eqn:Hrun; [|done]. simpl.
  intros [= <- <- <-].
  destruct (execute_alias st batches r st1 Hex) as (Hst1 & Hobj & Hkeep).
  destruct (IH st1 rs sn st2 Hrun) as (Hst2 & Hkeep' & Hobj').
  split; [|split].
  - rewrite Hst2, Hst1. cbn [concat]. by rewrite app_assoc.
  - intros H. apply Hkeep', Hkeep, H.
  - intros [|i]; simpl.
    + intros [= ->]. split; [by apply Hobj|done].
    + intros Hi. destruct (Hobj' i Hi) as [Hn Hnil].
      assert (state st = None) as Hn0.
      { destruct (state st) eqn:Hst; [|done].
        destruct Hkeep as [? Hk]; [by eauto|]. by rewrite Hn in Hk. }
      split; [done|]. rewrite Hnil, app_nil_r.
      rewrite Hn0, Hn in Hst1. simpl in Hst1. done.
Qed.

End DistinctAlias.

(** X12. Whatever [unique] does beyond dropping repeated rows, over
    any history of [DistinctExecutor.execute] calls no call raises, no
    row is emitted twice, every emitted row was delivered, every
    delivered row has its key among the emitted rows, and the state
    holds the emitted rows in the order they were emitted. *)
Theorem distinct_emits_each_row_once
    (unique : list Distinct.Row → list Distinct.Row)
    (calls : list (list (option (list Distinct.Row)))) :
  (∀ l, NoDup (unique l)) →
  (∀ l r, r ∈ unique l ↔ r ∈ l) →
  ∃ outs seen st,
    Distinct.run unique Distinct.init calls = Ok (outs, seen, st) ∧
    NoDup (concat seen) ∧
    (∀ x, x ∈ concat seen → x ∈ Distinct.delivered calls) ∧
    (∀ x, x ∈ Distinct.delivered calls →
          Distinct.key x ∈ Distinct.key <$> concat seen) ∧
    default [] (Distinct.state st) = concat seen.
Proof.
  intros Hnd Hin.
  destruct (run_spec unique Hnd Hin calls Distinct.init)
    as (outs & seen & st & Hrun & _ & _ & Hst & Hnd' & Hsub & Hkeys & _).
  { apply NoDup_nil_2. }
  exists outs, seen, st. by simpl in *.
Qed.

Lemma distinct_emits_each_row_once_witness :
  let r k v := {| Distinct.key := k; Distinct.val := v |} in
  let calls := [[Some [r 1 0; r 1 0; r 2 0]; None]; [Some []];
                [Some [r 2 5; r 3 0]; Some [r 3 1]]] in
  ∃ outs seen st,
    Distinct.run remove_dups Distinct.init calls = Ok (outs, seen, st) ∧
    NoDup (concat seen) ∧
    (∀ x, x ∈ concat seen → x ∈ Distinct.delivered calls) ∧
    (∀ x, x ∈ Distinct.delivered calls →
          Distinct.key x ∈ Distinct.key <$> concat seen) ∧
    default [] (Distinct.state st) = concat seen.
Proof.
  intros r calls. apply (distinct_emits_each_row_once remove_dups calls).
  - apply NoDup_remove_dups.
  - intros l x. apply elem_of_remove_dups.
Defined.

(** X13. The frame returned by the first call that delivers rows is
    the executor's state itself: read after the history, it holds the
    rows it was returned with and, after them, every row a later call
    emitted. *)
Theorem distinct_first_frame_is_the_state
    (unique : list Distinct.Row → list Distinct.Row)
    (calls : list (list (option (list Distinct.Row))))
    (outs : list (option Distinct.Returned))
    (seen : list (list Distinct.Row)) (st : Distinct.State)
    (i : nat) (first : list Distinct.Row) :
  Distinct.run unique Distinct.init calls = Ok (outs, seen, st) →
  outs !! i = Some (Some Distinct.StateObject) →
  seen !! i = Some first →
  Distinct.read st Distinct.StateObject =
    first ++ concat (drop (S i) seen).
Proof.
  intros Hrun Hi Hfirst.
  destruct (run_alias unique calls _ _ _ _ Hrun) as (Hst & _ & Hobj).
  destruct (Hobj i Hi) as [_ Hnil]. simpl in Hst |- *.
  rewrite Hst. rewrite <-(take_drop_middle seen i first Hfirst) at 1.
  by rewrite concat_app, Hnil.
Qed.

Lemma distinct_first_frame_is_the_state_witness :
  let r k v := {| Distinct.key := k; Distinct.val := v |} in
  Distinct.read {| Distinct.state := Some [r 1 0; r 2 0; r 3 0] |}
    Distinct.StateObject =
  [r 1 0; r 2 0] ++ concat (drop 2 [[]; [r 1 0; r 2 0]; [r 3 0]]).
Proof.
  intros r.
  apply (distinct_first_frame_is_the_state remove_dups
           [[None]; [Some [r 1 0; r 1 0; r 2 0]]; [Some [r 2 5; r 3 0]]]
           [None; Some Distinct.StateObject; Some (Distinct.Frame [r 3 0])]).
  - reflexivity.
  - reflexivity.
  - reflexivity.
Defined.

(** ** Hopping windows: what is aggregated, what is deferred *)

Section HoppingFacts.
Import Window HoppingWindow HoppingRun.
Context {Out : Type}.
Variable groupby_dynamic : Config → list Row → list Out.
Variable sql_window : Config → list (Row * Z) → list Out.
Variable cfg : Config.
Hypothesis Htrigger : trigger cfg = OnCompletionTrigger.
Hypothesis Hhop : hop cfg ≠ 0.

Lemma live_concat_last {R} (batches : list (option (list R))) :
  live batches ≠ [] → ∃ r, last (concat (live batches)) = Some r.
Proof.
  intros Hl. destruct (last (concat (live batches))) as [r|] eqn:Hr; [by eauto|].
  apply last_None, live_concat_nil in Hr. done.
Qed.

Lemma hopping_execute_spec (st : State) batches :
  live batches ≠ [] →
  let batch := concat (live batches) in
  execute groupby_dynamic sql_window cfg st batches =
    Ok (Some (groupby_dynamic cfg (default [] (state st) ++ kept cfg batch)),
        {| state := Some (deferred cfg batch) |}).
Proof.
  intros Hl batch. unfold execute.
  destruct (live_concat_last batches Hl) as [r Hr]. fold batch in Hr.
  assert (polars_concat (live batches) = Ok batch) as ->
    by (unfold polars_concat; by destruct (live batches)).
  cbn [mbind result_bind]. unfold timestamp_of_last_row. rewrite Hr.
  cbn [mbind result_bind]. unfold floordiv. rewrite decide_False by done.
  cbn [mbind result_bind]. rewrite Htrigger.
  unfold kept, deferred, last_end, last_ts. rewrite Hr. simpl.
  by destruct (state st).
Qed.

Lemma carry_after_cons st batches calls :
  carry_after cfg st (batches :: calls) =
    carry_after cfg (Some (deferred cfg (concat (live batches)))) calls.
Proof.
  unfold carry_after. rewrite last_cons. by destruct (last calls).
Qed.

Lemma hopping_run_spec calls :
  ∀ st : State,
    Forall (λ batches : list (option (list Row)), live batches ≠ []) calls →
    run groupby_dynamic sql_window cfg st calls =
      Ok ((λ i, Some (groupby_dynamic cfg i)) <$>
            inputs cfg (default [] (state st)) calls,
          {| state := carry_after cfg (state st) calls |}).
Proof.
  induction calls as [|batches calls IH]; intros st Hall.
  { by destruct st. }
  apply Forall_cons in Hall as [Hl Hall].
  cbn [run]. rewrite (hopping_execute_spec st batches Hl).
  cbn [mbind result_bind]. rewrite (IH _ Hall). cbn [mbind result_bind state].
  by rewrite carry_after_cons.
Qed.

Lemma kept_deferred batch : kept cfg batch ++ deferred cfg batch ≡ₚ batch.
Proof.
  unfold kept, deferred. set (e := last_end cfg (last_ts batch)). clearbody e.
  induction batch as [|r batch IH]; [done|].
  rewrite !filter_cons. destruct (decide (time r ≤ e)).
  - rewrite decide_False by lia. simpl. by rewrite IH.
  - rewrite decide_True by lia. rewrite <-Permutation_middle. by rewrite IH.
Qed.

Lemma inputs_conserve calls :
  ∀ carry,
    concat (inputs cfg carry calls) ++
      default [] (carry_after cfg (Some carry) calls)
    ≡ₚ carry ++ concat (concat (live <$> calls)).
Proof.
  induction calls as [|batches calls IH]; intros carry.
  { simpl. by rewrite app_nil_r. }
  rewrite carry_after_cons. cbn [inputs concat fmap list_fmap].
  change (list_fmap _ _ ?g ?l) with (g <$> l).
  rewrite <-!app_assoc, IH.
  rewrite (app_assoc (kept cfg _)), kept_deferred. by rewrite concat_app.
Qed.

End HoppingFacts.

(** X14. Under the completion trigger and a hop other than 0, over a
    history in which every call delivers rows no [execute] call raises;
    a call hands the aggregation the rows the call before deferred,
    whatever their time, followed by its own rows up to the end of the
    last window its last timestamp completes, and defers the rest; so
    the rows aggregated, call after call, and the rows left in the
    state are the rows delivered, each once. *)
Theorem hopping_rows_aggregated_once {Out : Type}
    (groupby_dynamic : HoppingWindow.Config → list Window.Row → list Out)
    (sql_window : HoppingWindow.Config → list (Window.Row * Z) → list Out)
    (cfg : HoppingWindow.Config)
    (calls : list (list (option (list Window.Row)))) :
  HoppingWindow.trigger cfg = Window.OnCompletionTrigger →
  HoppingWindow.hop cfg ≠ 0 →
  Forall (λ batches : list (option (list Window.Row)), live batches ≠ []) calls →
  ∃ st,
    HoppingRun.run groupby_dynamic sql_window cfg HoppingWindow.init calls =
      Ok ((λ i, Some (groupby_dynamic cfg i)) <$> HoppingRun.inputs cfg [] calls,
          st) ∧
    HoppingWindow.state st = HoppingRun.carry_after cfg None calls ∧
    concat (HoppingRun.inputs cfg [] calls) ++
      default [] (HoppingWindow.state st)
    ≡ₚ concat (concat (live <$> calls)).
Proof.
  intros Htrigger Hhop Hall. eexists. split; [|split].
  - by rewrite (hopping_run_spec groupby_dynamic sql_window cfg Htrigger Hhop
                  calls HoppingWindow.init Hall).
  - done.
  - simpl. destruct calls as [|batches calls]; [done|].
    rewrite !(carry_after_cons cfg None). cbn [HoppingRun.inputs].
    pose proof (inputs_conserve cfg (batches :: calls) []) as Hc.
    rewrite !(carry_after_cons cfg (Some [])) in Hc. exact Hc.
Qed.

Lemma hopping_rows_aggregated_once_witness :
  let r t := {| Window.time := t; Window.by_col := 0; Window.val := 0 |} in
  let cfg := {| HoppingWindow.kind := Window.TumblingWindow;
                HoppingWindow.size := 10; HoppingWindow.hop := 10;
                HoppingWindow.trigger := Window.OnCompletionTrigger |} in
  let calls := [[Some [r 5; r 12]]; [None; Some [r 13]]; [Some [r 31]]] in
  ∃ st,
    HoppingRun.run (λ _ rows, rows) (λ _ rows, rows.*1) cfg
      HoppingWindow.init calls =
      Ok ((λ i, Some i) <$> HoppingRun.inputs cfg [] calls, st) ∧
    HoppingWindow.state st = HoppingRun.carry_after cfg None calls ∧
    concat (HoppingRun.inputs cfg [] calls) ++
      default [] (HoppingWindow.state st)
    ≡ₚ concat (concat (live <$> calls)).
Proof.
  intros r cfg calls.
  apply (hopping_rows_aggregated_once (λ _ rows, rows) (λ _ rows, rows.*1)
           cfg calls); [reflexivity|done|].
  repeat constructor; done.
Defined.

(** X15. Under the completion trigger and a positive hop, after an
    [execute] call whose rows are none stamped after its last row,
    [done] returns nothing when the last timestamp is the end of a
    window, and raises [AttributeError] in every other case: the rows
    that call deferred are not aggregated. *)
Theorem hopping_done_raises_on_open_window {Out : Type}
    (groupby_dynamic : HoppingWindow.Config → list Window.Row → list Out)
    (sql_window : HoppingWindow.Config → list (Window.Row * Z) → list Out)
    (cfg : HoppingWindow.Config) (st : HoppingWindow.State)
    (batches : list (option (list Window.Row))) :
  let batch := concat (live batches) in
  let ts := HoppingRun.last_ts batch in
  HoppingWindow.trigger cfg = Window.OnCompletionTrigger →
  0 < HoppingWindow.hop cfg →
  live batches ≠ [] →
  (∀ r, r ∈ batch → Window.time r ≤ ts) →
  ∃ out st',
    HoppingWindow.execute groupby_dynamic sql_window cfg st batches =
      Ok (Some out, st') ∧
    HoppingWindow.done sql_window cfg st' =
      if decide ((ts - HoppingWindow.size cfg) `mod` HoppingWindow.hop cfg = 0)
      then Ok (None, {| HoppingWindow.state := None |})
      else Raise AttributeError.
Proof.
  intros batch ts Htrigger Hhop Hl Hmax.
  rewrite (hopping_execute_spec groupby_dynamic sql_window cfg Htrigger
             ltac:(lia) st batches Hl).
  eexists _, _. split; [reflexivity|].
  unfold HoppingWindow.done. rewrite Htrigger. cbn [HoppingWindow.state].
  fold batch. unfold HoppingRun.deferred, HoppingRun.last_end. fold ts.
  pose proof (Z.div_mod (ts - HoppingWindow.size cfg) (HoppingWindow.hop cfg)
                ltac:(lia)) as Hdm.
  pose proof (Z.mod_pos_bound (ts - HoppingWindow.size cfg)
                (HoppingWindow.hop cfg) Hhop) as Hm.
  set (q := (ts - HoppingWindow.size cfg) `div` HoppingWindow.hop cfg) in *.
  set (m := (ts - HoppingWindow.size cfg) `mod` HoppingWindow.hop cfg) in *.
  destruct (live_concat_last batches Hl) as [rl Hrl]. fold batch in Hrl.
  assert (Window.time rl = ts) as Hts
    by (unfold ts, HoppingRun.last_ts; by rewrite Hrl).
  case_decide as Hm0.
  - rewrite (filter_none _ batch); [done|].
    intros r Hr%Hmax. nia.
  - destruct (filter _ batch) as [|x xs] eqn:Hf; [|done].
    exfalso. pose proof (filter_nil_not_elem_of _ _ rl Hf) as Hnot.
    apply Hnot; [nia|by apply last_elem_of].
Qed.

Lemma hopping_done_raises_on_open_window_witness :
  let r t := {| Window.time := t; Window.by_col := 0; Window.val := 0 |} in
  let cfg := {| HoppingWindow.kind := Window.TumblingWindow;
                HoppingWindow.size := 10; HoppingWindow.hop := 10;
                HoppingWindow.trigger := Window.OnCompletionTrigger |} in
  ∃ out st',
    HoppingWindow.execute (λ _ rows, rows) (λ _ rows, rows.*1) cfg
      HoppingWindow.init [Some [r 5; r 12]] = Ok (Some out, st') ∧
    HoppingWindow.done (λ _ rows, rows.*1) cfg st' =
      if decide ((12 - 10) `mod` 10 = 0)
      then Ok (None, {| HoppingWindow.state := None |})
      else Raise AttributeError.
Proof.
  intros r cfg.
  apply (hopping_done_raises_on_open_window (λ _ rows, rows)
           (λ _ rows, rows.*1) cfg HoppingWindow.init [Some [r 5; r 12]]).
  - reflexivity.
  - reflexivity.
  - done.
  - intros x Hx. simpl in Hx.
    repeat (apply elem_of_cons in Hx as [->|Hx]; [by vm_compute|]).
    by apply elem_of_nil in Hx.
Defined.

(** ** Sliding windows: the buffer is the window of the stream *)

Section SlidingFacts.
Import Window SlidingWindow SlidingRun SlidingSpec.
Context {Out : Type}.
Variable groupby_rolling : Config → list Row → list Out.
Variable cfg : Config.

Lemma window_of_app prev batch rp rb :
  last prev = Some rp → last batch = Some rb → time rp ≤ time rb →
  filter (λ x, time rb - size_before cfg < time x) (window_of cfg prev ++ batch)
    = window_of cfg (prev ++ batch).
Proof.
  intros Hp Hb Hle. unfold window_of. rewrite Hp, last_app, Hb.
  rewrite !filter_app. f_equal.
  apply list_filter_filter_l. intros x. lia.
Qed.

(** One call on a buffer that is the window of what came before. *)
Lemma sliding_execute_spec (st : State) prev batches rb :
  state st = match prev with [] => None | _ => Some (window_of cfg prev) end →
  last (concat (live batches)) = Some rb →
  from_option (λ rp, time rp ≤ time rb) True (last prev) →
  let batch := concat (live batches) in
  execute groupby_rolling cfg st batches =
    Ok (Some (drop (length (window_of cfg prev))
                (groupby_rolling cfg (window_of cfg prev ++ batch))),
        {| state := Some (window_of cfg (prev ++ batch)) |}).
Proof.
  intros Hst Hrb Hstep. cbn zeta. unfold execute.
  assert (live batches ≠ []) as Hl by (intros Hnil; by rewrite Hnil in Hrb).
  assert (polars_concat (live batches) = Ok (concat (live batches))) as ->
    by (unfold polars_concat; by destruct (live batches)).
  set (batch := concat (live batches)) in *.
  cbn [mbind result_bind]. rewrite Hst.
  destruct prev as [|p prev'] eqn:Hprev.
  - unfold timestamp_of_last_row. rewrite Hrb. cbn [mbind result_bind].
    simpl. unfold window_of. by rewrite Hrb.
  - rewrite <-Hprev in *.
    destruct (last prev) as [rp|] eqn:Hp;
      [|apply last_None in Hp; by rewrite Hp in Hprev].
    simpl in Hstep.
    unfold timestamp_of_last_row. rewrite last_app, Hrb.
    cbn [mbind result_bind].
    by rewrite (window_of_app prev batch rp rb Hp Hrb Hstep).
Qed.

Lemma sliding_run_spec calls :
  ∀ (st : State) prev,
    state st = match prev with [] => None | _ => Some (window_of cfg prev) end →
    in_step (time <$> last prev) calls →
    ∃ st',
      run groupby_rolling cfg st calls =
        Ok (returns groupby_rolling cfg prev calls, st') ∧
      state st' =
        match prev ++ concat (concat (live <$> calls)) with
        | [] => None
        | all => Some (window_of cfg all)
        end.
Proof.
  induction calls as [|batches calls IH]; intros st prev Hst Hstep.
  { exists st. simpl. rewrite app_nil_r, Hst. split; [done|]. by destruct prev. }
  cbn [in_step] in Hstep.
  destruct (last (concat (live batches))) as [rb|] eqn:Hrb; [|done].
  destruct Hstep as [Hle Hstep].
  set (batch := concat (live batches)) in *.
  assert (batch ≠ []) as Hne by (intros Hnil; by rewrite Hnil in Hrb).
  pose proof (sliding_execute_spec st prev batches rb Hst Hrb) as Hex.
  cbn zeta in Hex. fold batch in Hex.
  destruct (IH {| state := Some (window_of cfg (prev ++ batch)) |}
              (prev ++ batch)) as (st' & Hrun & Hst').
  { simpl. destruct (prev ++ batch) eqn:Hpb; [|done].
    by apply app_eq_nil in Hpb as [_ ?]. }
  { by rewrite last_app, Hrb. }
  exists st'. cbn [run returns]. fold batch. rewrite Hex.
  - cbn [mbind result_bind]. rewrite Hrun. split; [done|].
    rewrite Hst'. cbn [fmap list_fmap concat].
    change (list_fmap _ _ ?g ?l) with (g <$> l).
    fold batch. by rewrite concat_app, app_assoc.
  - by destruct (last prev).
Qed.

End SlidingFacts.

(** X16. Over a history in which every call delivers rows and no
    call's last row is stamped before the last row of the call before,
    no [execute] call of the sliding window executor raises; each call
    returns the engine's rows for the buffer followed by its own rows,
    without the rows for the buffer; and the buffer is, after every
    call, the window of the whole stream: the rows delivered so far
    that are stamped less than [size_before] before the last row, in
    arrival order. *)
Theorem sliding_buffer_is_window_of_stream {Out : Type}
    (groupby_rolling : SlidingWindow.Config → list Window.Row → list Out)
    (cfg : SlidingWindow.Config)
    (calls : list (list (option (list Window.Row)))) :
  SlidingRun.in_step None calls →
  ∃ st,
    SlidingRun.run groupby_rolling cfg SlidingWindow.init calls =
      Ok (SlidingSpec.returns groupby_rolling cfg [] calls, st) ∧
    SlidingWindow.state st =
      match concat (concat (live <$> calls)) with
      | [] => None
      | all => Some (SlidingRun.window_of cfg all)
      end.
Proof.
  intros Hstep.
  by apply (sliding_run_spec groupby_rolling cfg calls SlidingWindow.init []).
Qed.

Lemma sliding_buffer_is_window_of_stream_witness :
  let r t := {| Window.time := t; Window.by_col := 0; Window.val := t |} in
  let cfg := {| SlidingWindow.size_before := 5;
                SlidingWindow.trigger := Window.OnEventTrigger |} in
  let calls := [[Some [r 1; r 4]; None]; [Some [r 6; r 8]]; [Some [r 20]]] in
  ∃ st,
    SlidingRun.run (λ _ rows, rows) cfg SlidingWindow.init calls =
      Ok (SlidingSpec.returns (λ _ rows, rows) cfg [] calls, st) ∧
    SlidingWindow.state st =
      match concat (concat (live <$> calls)) with
      | [] => None
      | all => Some (SlidingRun.window_of cfg all)
      end.
Proof.
  intros r cfg calls.
  apply (sliding_buffer_is_window_of_stream (λ _ rows, rows) cfg calls).
  simpl. lia.
Defined.

(** * Input readers *)

(** ** InputS3FilesDataset: strided reading *)

Section StridedFacts.
Import S3Files.

Lemma positions_elem_of fuel len n curr p :
  (0 < n)%nat → (len - curr ≤ fuel)%nat →
  p ∈ positions fuel len n curr ↔ (p < len)%nat ∧ ∃ i, p = (curr + i * n)%nat.
Proof.
  intros Hn. revert curr. induction fuel as [|fuel IH]; intros curr Hfuel.
  { simpl. split; [by intros ?%elem_of_nil|]. intros [? [i ->]]. nia. }
  cbn [positions]. case_decide as Hc.
  - rewrite elem_of_cons, IH by lia. split.
    + intros [->|[Hp [i ->]]].
      * split; [done|]. exists 0%nat. lia.
      * split; [done|]. exists (S i). lia.
    + intros [Hp [[|i] ->]]; [left; lia|].
      right. split; [done|]. exists i. lia.
  - split; [by intros ?%elem_of_nil|]. intros [? [i ->]]. nia.
Qed.

Lemma positions_NoDup fuel len n curr :
  (0 < n)%nat → (len - curr ≤ fuel)%nat → NoDup (positions fuel len n curr).
Proof.
  intros Hn. revert curr. induction fuel as [|fuel IH]; intros curr Hfuel.
  { constructor. }
  cbn [positions]. case_decide; [|constructor].
  constructor; [|apply IH; lia].
  rewrite positions_elem_of by lia. intros [_ [i Hi]]. nia.
Qed.

Lemma NoDup_concat_fmap {A B} (f : A → list B) (l : list A) :
  NoDup l →
  (∀ x, x ∈ l → NoDup (f x)) →
  (∀ x y b, x ∈ l → y ∈ l → b ∈ f x → b ∈ f y → x = y) →
  NoDup (concat (f <$> l)).
Proof.
  induction 1 as [|a l Ha Hl IH]; intros Hnd Hdisj; [constructor|].
  rewrite fmap_cons. cbn [concat]. apply NoDup_app. split; [|split].
  - apply Hnd. left.
  - intros b Hb (k & Hk & Hbk)%elem_of_concat.
    apply list_elem_of_fmap in Hk as (y & -> & Hy).
    apply Ha. by rewrite (Hdisj a y b) by (try left; try right; done).
  - apply IH.
    + intros x Hx. apply Hnd. by right.
    + intros x y b Hx Hy. apply Hdisj; by right.
Qed.

(** The channels' positions are the positions of the listing. *)
Lemma positions_partition fuel len n :
  (0 < n)%nat → (len ≤ fuel)%nat →
  concat ((λ m, positions fuel len n m) <$> seq 0 n) ≡ₚ seq 0 len.
Proof.
  intros Hn Hfuel. apply NoDup_Permutation.
  - apply NoDup_concat_fmap.
    + apply NoDup_seq.
    + intros m _. apply positions_NoDup; lia.
    + intros m m' p Hm%elem_of_seq Hm'%elem_of_seq.
      rewrite !positions_elem_of by lia.
      intros [_ [i ->]] [_ [j Hj]].
      destruct (lt_eq_lt_dec i j) as [[?|?]|?]; nia.
  - apply NoDup_seq.
  - intros p. rewrite elem_of_seq. split.
    + intros (k & Hk & Hp)%elem_of_concat.
      apply list_elem_of_fmap in Hk as (m & -> & Hm).
      apply positions_elem_of in Hp as [? _]; lia.
    + intros Hp. apply elem_of_concat.
      exists (positions fuel len n (p `mod` n)).
      pose proof (Nat.mod_upper_bound p n ltac:(lia)).
      split.
      * apply list_elem_of_fmap. exists (p `mod` n)%nat.
        split; [done|]. apply elem_of_seq. lia.
      * apply positions_elem_of; [lia|lia|]. split; [lia|].
        exists (p `div` n)%nat.
        pose proof (Nat.div_mod_eq p n). lia.
Qed.

Context {Body : Type}.
Variables (files : list string) (bucket : gmap string Body) (n : nat).
Hypothesis Hn : (0 < n)%nat.

Let object_at (p : nat) : option (string * Body) :=
  files !! p ≫= λ key, pair key <$> bucket !! key.

Lemma read_from_fuel fuel1 :
  ∀ fuel2 curr,
    (length files - curr ≤ fuel1)%nat → (length files - curr ≤ fuel2)%nat →
    read_from fuel1 files bucket n curr = read_from fuel2 files bucket n curr.
Proof.
  induction fuel1 as [|fuel1 IH]; intros fuel2 curr H1 H2.
  - destruct fuel2; simpl; [done|].
    rewrite (proj2 (lookup_ge_None files curr)) by lia. done.
  - destruct fuel2 as [|fuel2]; cbn [read_from].
    { rewrite (proj2 (lookup_ge_None files curr)) by lia. done. }
    destruct (files !! curr) as [key|] eqn:Hk; [|done].
    apply lookup_lt_Some in Hk.
    destruct (bucket !! key); [|done].
    by rewrite (IH fuel2 (curr + n)%nat) by lia.
Qed.

(** Resuming at a token continues where the token was yielded. *)
Lemma read_from_resume k :
  ∀ fuel curr ys outcome tok item,
    (length files - curr ≤ fuel)%nat →
    read_from fuel files bucket n curr = (ys, outcome) →
    ys !! k = Some (tok, item) →
    ∀ fuel', (length files - tok ≤ fuel')%nat →
      read_from fuel' files bucket n tok = (drop (S k) ys, outcome).
Proof.
  induction k as [|k IH]; intros fuel curr ys outcome tok item Hfuel Hread Hk
    fuel' Hfuel'.
  - destruct fuel as [|fuel]; cbn [read_from] in Hread.
    { destruct (files !! curr); injection Hread as <- <-; done. }
    destruct (files !! curr) as [key|] eqn:Hkey;
      [|injection Hread as <- <-; done].
    destruct (bucket !! key) as [body|]; [|injection Hread as <- <-; done].
    destruct (read_from fuel files bucket n (curr + n)) as [later o] eqn:Hl.
    injection Hread as <- <-. injection Hk as <- <-. simpl. rewrite drop_0.
    apply lookup_lt_Some in Hkey.
    by rewrite <-Hl, (read_from_fuel fuel' fuel) by lia.
  - destruct fuel as [|fuel]; cbn [read_from] in Hread.
    { destruct (files !! curr); injection Hread as <- <-; done. }
    destruct (files !! curr) as [key|] eqn:Hkey;
      [|injection Hread as <- <-; done].
    destruct (bucket !! key) as [body|]; [|injection Hread as <- <-; done].
    destruct (read_from fuel files bucket n (curr + n)) as [later o] eqn:Hl.
    injection Hread as <- <-. simpl in Hk |- *.
    apply lookup_lt_Some in Hkey.
    apply (IH fuel (curr + n)%nat later o tok item); [lia|done|done|done].
Qed.

Hypothesis Hpresent : ∀ key, key ∈ files → is_Some (bucket !! key).

Lemma read_from_positions fuel :
  ∀ curr,
    (length files - curr ≤ fuel)%nat →
    ∃ ys,
      read_from fuel files bucket n curr = (ys, None) ∧
      ys.*2 = omap object_at (positions fuel (length files) n curr).
Proof.
  induction fuel as [|fuel IH]; intros curr Hfuel.
  { exists []. simpl.
    by rewrite (proj2 (lookup_ge_None files curr)) by lia. }
  cbn [read_from positions]. case_decide as Hc.
  - destruct (lookup_lt_is_Some_2 files curr Hc) as [key Hkey]. rewrite Hkey.
    destruct (Hpresent key) as [body Hbody];
      [by eapply list_elem_of_lookup_2|].
    rewrite Hbody. destruct (IH (curr + n)%nat) as (ys & -> & Hys); [lia|].
    eexists. split; [done|]. cbn [omap list_omap fmap list_fmap snd].
    unfold object_at at 1. rewrite Hkey. simpl. rewrite Hbody. simpl.
    f_equal. exact Hys.
  - exists []. by rewrite (proj2 (lookup_ge_None files curr)) by lia.
Qed.

Lemma omap_concat {A B} (f : A → option B) (ls : list (list A)) :
  omap f (concat ls) = concat ((λ l : list A, omap f l) <$> ls).
Proof.
  induction ls as [|l ls IH]; [done|].
  cbn [concat]. rewrite omap_app, IH. done.
Qed.

Lemma omap_object_at_seq :
  omap object_at (seq 0 (length files)) = objects files bucket.
Proof.
  unfold objects, object_at.
  assert (∀ pre l : list string,
            omap (λ p, (pre ++ l) !! p ≫= λ key, pair key <$> bucket !! key)
              (seq (length pre) (length l))
            = omap (λ key, pair key <$> bucket !! key) l) as Hgen.
  { intros pre l. revert pre. induction l as [|x l IH]; intros pre; [done|].
    cbn [length seq omap list_omap].
    rewrite list_lookup_middle by done. cbn [mbind option_bind].
    specialize (IH (pre ++ [x])). rewrite length_app in IH. simpl in IH.
    rewrite Nat.add_1_r in IH. rewrite <-app_assoc in IH. simpl in IH.
    change (list_omap _ _ ?g ?l) with (omap g l) in *.
    by rewrite IH. }
  apply (Hgen [] files).
Qed.

End StridedFacts.

(** X17. With [num_channels = n > 0] and every listed key present in
    the bucket, the channels [0 .. n-1], each run to its end, end
    without an exception, and the objects they yield are together the
    objects of the listing, each read by exactly one channel. *)
Theorem s3_channels_read_each_object_once {Body : Type}
    (files : list string) (bucket : gmap string Body) (n fuel : nat) :
  let st := {| S3Files.num_channels := Some n; S3Files.files := files |} in
  (0 < n)%nat →
  (length files ≤ fuel)%nat →
  (∀ key, key ∈ files → is_Some (bucket !! key)) →
  Forall (λ m, (S3Files.get_next_batch fuel st bucket m None).2 = None)
    (seq 0 n) ∧
  concat ((λ m, (S3Files.get_next_batch fuel st bucket m None).1.*2)
            <$> seq 0 n)
    ≡ₚ S3Files.objects files bucket.
Proof.
  intros st Hn Hfuel Hpresent. unfold S3Files.get_next_batch. simpl.
  assert (∀ m, ∃ ys,
            S3Files.read_from fuel files bucket n m = (ys, None) ∧
            ys.*2 =
              omap (λ p, files !! p ≫= λ key, pair key <$> bucket !! key)
                (S3Files.positions fuel (length files) n m)) as Hread.
  { intros m. apply (read_from_positions files bucket n Hn Hpresent fuel m). lia. }
  split.
  - apply Forall_forall. intros m _. by destruct (Hread m) as (ys & -> & _).
  - rewrite <-(omap_object_at_seq files bucket).
    rewrite <-(positions_partition fuel (length files) n Hn Hfuel).
    rewrite omap_concat, <-list_fmap_compose.
    apply reflexive_eq. f_equal. apply list_fmap_ext. intros i m _. simpl.
    destruct (Hread m) as (ys & Hr & Hys). rewrite Hr. exact Hys.
Qed.

Lemma s3_channels_read_each_object_once_witness :
  let files := ["a"; "b"; "c"; "d"; "e"] in
  let bucket : gmap string nat :=
    {[ "a" := 1%nat; "b" := 2%nat; "c" := 3%nat; "d" := 4%nat; "e" := 5%nat ]} in
  let st := {| S3Files.num_channels := Some 2%nat; S3Files.files := files |} in
  Forall (λ m, (S3Files.get_next_batch 5 st bucket m None).2 = None)
    (seq 0 2) ∧
  concat ((λ m, (S3Files.get_next_batch 5 st bucket m None).1.*2)
            <$> seq 0 2)
    ≡ₚ S3Files.objects files bucket.
Proof.
  intros files bucket st.
  apply (s3_channels_read_each_object_once files bucket 2 5); [lia|simpl; lia|].
  intros key Hkey.
  repeat (apply elem_of_cons in Hkey as [->|Hkey]; [by eexists|]).
  by apply elem_of_nil in Hkey.
Defined.

(** X18. With [num_channels > 0], a channel restarted with the token
    it yielded with some object yields exactly what the first run
    yielded after that object, tokens included, and ends as the first
    run ended: nothing is read twice, nothing is skipped. *)
Theorem s3_resume_from_token {Body : Type}
    (st : S3Files.State) (bucket : gmap string Body)
    (n fuel mapper_id k tok : nat) (item : string * Body)
    (ys : list (@S3Files.Yield Body)) (outcome : option PyExn) :
  S3Files.num_channels st = Some n →
  (0 < n)%nat →
  (length (S3Files.files st) ≤ fuel)%nat →
  S3Files.get_next_batch fuel st bucket mapper_id None = (ys, outcome) →
  ys !! k = Some (tok, item) →
  S3Files.get_next_batch fuel st bucket mapper_id (Some tok) =
    (drop (S k) ys, outcome).
Proof.
  unfold S3Files.get_next_batch. intros -> Hn Hfuel Hread Hk.
  apply (read_from_resume (S3Files.files st) bucket n Hn k fuel mapper_id
           ys outcome tok item); [lia|done|done|lia].
Qed.

Lemma s3_resume_from_token_witness :
  let files := ["a"; "b"; "c"; "d"; "e"] in
  let bucket : gmap string nat :=
    {[ "a" := 1%nat; "b" := 2%nat; "c" := 3%nat; "d" := 4%nat; "e" := 5%nat ]} in
  let st := {| S3Files.num_channels := Some 2%nat; S3Files.files := files |} in
  S3Files.get_next_batch 5 st bucket 0 (Some 2%nat) =
    (drop 1 [(2%nat, ("a", 1%nat)); (4%nat, ("c", 3%nat));
             (6%nat, ("e", 5%nat))], None).
Proof.
  intros files bucket st.
  apply (s3_resume_from_token st bucket 2 5 0 0 2 ("a", 1%nat)).
  - reflexivity.
  - lia.
  - simpl. lia.
  - reflexivity.
  - reflexivity.
Defined.

(** ** Parquet datasets: dealing the row groups to the channels *)

Section GreedyFacts.
Import ParquetDataset ParquetSpec.

Lemma argmin_go_spec (l pre : list Z) bi b :
  (pre ++ l) !! bi = Some b →
  (∀ x, x ∈ pre → b ≤ x) →
  ∃ v, (pre ++ l) !! argmin_go l (length pre) bi b = Some v ∧
       ∀ x, x ∈ pre ++ l → v ≤ x.
Proof.
  revert pre bi b. induction l as [|y l IH]; intros pre bi b Hb Hmin.
  { simpl. exists b. rewrite app_nil_r in *. done. }
  cbn [argmin_go]. specialize (IH (pre ++ [y])).
  rewrite length_app, Nat.add_1_r, <-app_assoc in IH. simpl in IH.
  case_decide as Hy.
  - apply IH.
    + by rewrite list_lookup_middle.
    + intros x [Hx| ->%list_elem_of_singleton]%elem_of_app; [|lia].
      specialize (Hmin x Hx). lia.
  - apply IH; [done|].
    intros x [Hx| ->%list_elem_of_singleton]%elem_of_app; [by apply Hmin|lia].
Qed.

Lemma argmin_spec (l : list Z) :
  l ≠ [] →
  ∃ a v, argmin l = Ok a ∧ l !! a = Some v ∧ ∀ x, x ∈ l → v ≤ x.
Proof.
  destruct l as [|x l]; [done|]. intros _. simpl.
  destruct (argmin_go_spec l [x] 0 x) as (v & Hv & Hmin); [done| |].
  { intros y ->%list_elem_of_singleton. lia. }
  exists (argmin_go l 1 0 x), v. done.
Qed.

Lemma wrap64_small z : 0 ≤ z < 2 ^ 63 → wrap64 z = z.
Proof. intros Hz. unfold wrap64. rewrite Z.mod_small; lia. Qed.

Context {F E : Type}.
Variable count_rows : F → Z.
Variable entry : F → E.

Lemma insert_by_size_perm (x : Z * F) l : insert_by_size x l ≡ₚ x :: l.
Proof.
  induction l as [|y l IH]; [done|]. simpl. case_decide; [done|].
  by rewrite IH, Permutation_swap.
Qed.

Lemma sort_by_size_perm (l : list (Z * F)) : sort_by_size l ≡ₚ l.
Proof.
  induction l as [|x l IH]; [done|]. simpl.
  by rewrite insert_by_size_perm, IH.
Qed.

Lemma load_snoc (p : list F) f :
  load count_rows (p ++ [f]) = load count_rows p + count_rows f.
Proof. induction p as [|g p IH]; simpl; [lia|]. rewrite IH. lia. Qed.

Lemma concat_insert_snoc (parts : list (list F)) a pa f :
  parts !! a = Some pa →
  concat (<[a := pa ++ [f]]> parts) ≡ₚ f :: concat parts.
Proof.
  revert a. induction parts as [|p parts IH]; intros [|a]; simpl; try done.
  - intros [= ->]. rewrite <-app_assoc. simpl.
    by rewrite <-Permutation_middle.
  - intros Ha. rewrite (IH a Ha). by rewrite <-Permutation_middle.
Qed.

Lemma max_rows_bound (fragments : list F) :
  0 ≤ max_rows count_rows fragments ∧
  ∀ f, f ∈ fragments → count_rows f ≤ max_rows count_rows fragments.
Proof.
  induction fragments as [|g fragments [IH0 IH]]; simpl.
  { split; [done|]. by intros f ?%elem_of_nil. }
  split; [lia|].
  intros f [->|Hf]%elem_of_cons; [lia|]. specialize (IH f Hf). lia.
Qed.

Lemma assign_spec n M S parts st (f : F) :
  (0 < n)%nat →
  0 ≤ count_rows f ≤ M →
  S + count_rows f < 2 ^ 63 →
  dealt count_rows entry n M S parts st →
  ∃ st' parts',
    assign entry st (count_rows f, f) = Ok st' ∧
    dealt count_rows entry n M (S + count_rows f) parts' st' ∧
    concat parts' ≡ₚ f :: concat parts.
Proof.
  intros Hn Hf HS (Hlen & Hlens & Hm & Hload & Hbal).
  destruct st as [m lens]. simpl in Hlens, Hm. subst lens.
  destruct (argmin_spec (load count_rows <$> parts)) as (a & v & Ha & Hv & Hmin).
  { destruct parts; [simpl in Hlen; lia|done]. }
  rewrite list_lookup_fmap in Hv.
  destruct (parts !! a) as [pa|] eqn:Hpa; [|done]. injection Hv as <-.
  assert (∀ c p, parts !! c = Some p → load count_rows pa ≤ load count_rows p)
    as Hmin'.
  { intros c p Hp. apply Hmin, list_elem_of_fmap. exists p.
    split; [done|]. by eapply list_elem_of_lookup_2. }
  exists (<[a := (entry <$> pa) ++ [entry f]]> (m : gmap nat (list E)),
          <[a := load count_rows pa + count_rows f]> (load count_rows <$> parts)),
    (<[a := pa ++ [f]]> parts).
  split; [|split].
  - unfold assign. rewrite Ha. cbn [mbind result_bind].
    rewrite Hm, Hpa. simpl. rewrite list_lookup_fmap, Hpa. simpl.
    rewrite wrap64_small; [done|].
    pose proof (Hload a pa Hpa). lia.
  - split; [by rewrite length_insert|]. split; [|split; [|split]].
    + simpl. by rewrite list_fmap_insert, load_snoc.
    + intros c. simpl. destruct (decide (c = a)) as [->|Hne].
      * rewrite lookup_insert_eq, list_lookup_insert_eq
          by (by eapply lookup_lt_Some).
        simpl. by rewrite fmap_app.
      * rewrite lookup_insert_ne by done.
        by rewrite list_lookup_insert_ne by done.
    + intros c p. destruct (decide (c = a)) as [->|Hne].
      * rewrite list_lookup_insert_eq by (by eapply lookup_lt_Some).
        intros [= <-]. rewrite load_snoc.
        pose proof (Hload a pa Hpa). lia.
      * rewrite list_lookup_insert_ne by done. intros Hp.
        pose proof (Hload c p Hp). lia.
    + intros c c' p p'.
      destruct (decide (c = a)) as [->|Hne];
        destruct (decide (c' = a)) as [->|Hne'];
        rewrite ?list_lookup_insert_eq by (by eapply lookup_lt_Some);
        rewrite ?list_lookup_insert_ne by done.
      * intros [= <-] [= <-]. lia.
      * intros [= <-] Hp'. rewrite load_snoc.
        pose proof (Hmin' c' p' Hp'). lia.
      * intros Hp [= <-]. rewrite load_snoc.
        pose proof (Hbal c a p pa Hp Hpa). lia.
      * apply Hbal.
  - by apply concat_insert_snoc.
Qed.

Lemma assign_all_spec n M (l : list F) :
  ∀ S parts st,
    (0 < n)%nat →
    (∀ f, f ∈ l → 0 ≤ count_rows f ≤ M) →
    S + load count_rows l < 2 ^ 63 →
    dealt count_rows entry n M S parts st →
    ∃ st' parts',
      assign_all entry st ((λ item, (count_rows item, item)) <$> l) = Ok st' ∧
      dealt count_rows entry n M (S + load count_rows l) parts' st' ∧
      concat parts' ≡ₚ l ++ concat parts.
Proof.
  induction l as [|f l IH]; intros S parts st Hn Hl HS Hd.
  { exists st, parts. simpl. by rewrite Z.add_0_r. }
  simpl in HS.
  assert (0 ≤ load count_rows l) as Hl0.
  { assert (∀ g, g ∈ l → 0 ≤ count_rows g) as Hl'
      by (intros g Hg; apply Hl; by right).
    clear -Hl'. induction l as [|g l IH]; simpl; [done|].
    pose proof (Hl' g ltac:(left)).
    assert (0 ≤ load count_rows l); [|lia].
    apply IH. intros g' Hg'. apply Hl'. by right. }
  destruct (assign_spec n M S parts st f Hn) as (st1 & parts1 & Hex & Hd1 & Hp1);
    [apply Hl; left|lia|done|].
  destruct (IH (S + count_rows f) parts1 st1 Hn) as (st2 & parts2 & Hrun & Hd2 & Hp2);
    [intros g Hg; apply Hl; by right|lia|done|].
  exists st2, parts2. rewrite fmap_cons. cbn [assign_all]. rewrite Hex.
  cbn [mbind result_bind]. split; [done|]. split.
  - simpl. by rewrite Z.add_assoc.
  - rewrite Hp2, Hp1. simpl. by rewrite <-Permutation_middle.
Qed.

Lemma empty_channels_lookup (s n c : nat) :
  (list_to_map ((λ i, (i, [])) <$> seq s n) : gmap nat (list E)) !! c =
    if decide (s ≤ c < s + n)%nat then Some [] else None.
Proof.
  revert s. induction n as [|n IH]; intros s.
  { simpl. rewrite lookup_empty. by rewrite decide_False by lia. }
  cbn [seq]. rewrite fmap_cons, list_to_map_cons.
  destruct (decide (c = s)) as [->|Hne].
  - rewrite lookup_insert_eq. by rewrite decide_True by lia.
  - rewrite lookup_insert_ne by done. rewrite IH.
    destruct (decide (S s ≤ c < S s + n)%nat);
      [by rewrite decide_True by lia|by rewrite decide_False by lia].
Qed.

End GreedyFacts.

Section GreedyRun.
Import ParquetDataset ParquetSpec.
Context {F E : Type}.
Variable count_rows : F → Z.
Variable entry : F → E.

Lemma load_perm (l k : list F) :
  l ≡ₚ k → load count_rows l = load count_rows k.
Proof. induction 1; simpl; lia. Qed.

Lemma sort_by_size_fmap (l : list F) :
  ∃ l',
    sort_by_size ((λ item, (count_rows item, item)) <$> l) =
      (λ item, (count_rows item, item)) <$> l' ∧
    l' ≡ₚ l.
Proof.
  induction l as [|f l (l' & Hl' & Hp)]; [by exists []|].
  rewrite fmap_cons. cbn [sort_by_size foldr].
  change (foldr insert_by_size [] ?x) with (sort_by_size x). rewrite Hl'.
  assert (∀ k : list F, ∃ k',
            insert_by_size (count_rows f, f)
              ((λ item, (count_rows item, item)) <$> k) =
              (λ item, (count_rows item, item)) <$> k' ∧
            k' ≡ₚ f :: k) as Hins.
  { induction k as [|g k (k' & Hk' & Hpk)]; [by exists [f]|].
    rewrite fmap_cons. cbn [insert_by_size]. case_decide.
    - by exists (f :: g :: k).
    - exists (g :: k'). rewrite Hk'. split; [done|].
      by rewrite Hpk, Permutation_swap. }
  destruct (Hins l') as (k' & -> & Hk'). exists k'. split; [done|].
  by rewrite Hk', Hp.
Qed.

Lemma dealt_init n M :
  0 ≤ M →
  dealt count_rows entry n M 0 (replicate n [])
    (list_to_map ((λ i, (i, [])) <$> seq 0 n), replicate n 0).
Proof.
  intros HM. split; [by rewrite length_replicate|]. split; [|split; [|split]].
  - simpl. by rewrite fmap_replicate.
  - intros c. simpl. rewrite empty_channels_lookup.
    destruct (decide (0 ≤ c < 0 + n)%nat) as [Hc|Hc].
    + by rewrite (proj2 (lookup_replicate n [] [] c)) by (split; [done|lia]).
    + rewrite (proj2 (lookup_ge_None (replicate n []) c)); [done|].
      rewrite length_replicate. lia.
  - intros c p [-> _]%lookup_replicate. simpl. lia.
  - intros c c' p p' [-> _]%lookup_replicate [-> _]%lookup_replicate.
    simpl. lia.
Qed.

End GreedyRun.

(** X19. With at least one channel, non-negative row counts and fewer
    than 2^63 rows in all, [get_own_state] returns; every row group is
    dealt to exactly one channel, and the row totals of any two
    channels differ by no more than the largest row group. *)
Theorem parquet_row_groups_dealt_evenly {F E : Type}
    (count_rows : F → Z) (entry : F → E)
    (n : nat) (fragments : list F) :
  (0 < n)%nat →
  (∀ f, f ∈ fragments → 0 ≤ count_rows f) →
  ParquetDataset.load count_rows fragments < 2 ^ 63 →
  ∃ assignments parts,
    ParquetDataset.get_own_state count_rows entry n fragments
      = Ok assignments ∧
    length parts = n ∧
    (∀ c, assignments !! c = fmap entry <$> parts !! c) ∧
    concat parts ≡ₚ fragments ∧
    ∀ c c' p p',
      parts !! c = Some p → parts !! c' = Some p' →
      ParquetDataset.load count_rows p ≤
        ParquetDataset.load count_rows p' +
        ParquetSpec.max_rows count_rows fragments.
Proof.
  intros Hn Hpos Htotal. unfold ParquetDataset.get_own_state.
  destruct (sort_by_size_fmap count_rows fragments) as (l & -> & Hl).
  destruct (max_rows_bound count_rows fragments) as [HM0 HM].
  destruct (assign_all_spec count_rows entry n
              (ParquetSpec.max_rows count_rows fragments) l 0
              (replicate n [])
              ((list_to_map ((λ i, (i, [])) <$> seq 0 n) : gmap nat (list E)),
               replicate n 0) Hn)
    as ([m lens] & parts & Hrun & (Hlen & _ & Hm & _ & Hbal) & Hperm).
  - intros f Hf. rewrite Hl in Hf. split; [by apply Hpos|by apply HM].
  - rewrite (load_perm count_rows l fragments Hl). lia.
  - by apply dealt_init.
  - exists m, parts. rewrite Hrun. cbn [mbind result_bind].
    split; [done|]. split; [done|]. split; [done|]. split; [|done].
    rewrite Hperm, Hl.
    assert (concat (replicate n (@nil F)) = []) as ->
      by (clear; induction n; simpl; done).
    by rewrite app_nil_r.
Qed.

Lemma parquet_row_groups_dealt_evenly_witness :
  let count_rows (f : string * Z) := f.2 in
  let fragments := [("a", 5); ("b", 3); ("c", 8); ("d", 1); ("e", 3)] in
  ∃ assignments parts,
    ParquetDataset.get_own_state count_rows fst 2 fragments
      = Ok assignments ∧
    length parts = 2%nat ∧
    (∀ c, assignments !! c = fmap fst <$> parts !! c) ∧
    concat parts ≡ₚ fragments ∧
    ∀ c c' p p',
      parts !! c = Some p → parts !! c' = Some p' →
      ParquetDataset.load count_rows p ≤
        ParquetDataset.load count_rows p' +
        ParquetSpec.max_rows count_rows fragments.
Proof.
  intros count_rows fragments.
  apply (parquet_row_groups_dealt_evenly count_rows fst 2 fragments).
  - lia.
  - intros f Hf.
    repeat (apply elem_of_cons in Hf as [->|Hf]; [by vm_compute|]).
    by apply elem_of_nil in Hf.
  - by vm_compute.
Defined.

Section ParquetResume.
Import ParquetDataset.

Lemma concat_singletons_drop {A B} (f : A → list B) (l : list A) j :
  (∀ x, x ∈ l → length (f x) = 1%nat) →
  concat (f <$> drop j l) = drop j (concat (f <$> l)).
Proof.
  revert j. induction l as [|x l IH]; intros j Hone.
  { by destruct j. }
  destruct j as [|j]; [done|].
  rewrite fmap_cons. cbn [drop concat].
  destruct (f x) as [|b [|b' bs]] eqn:Hfx;
    try (specialize (Hone x ltac:(left)); rewrite Hfx in Hone; done).
  simpl. apply IH. intros y Hy. apply Hone. by right.
Qed.

Lemma drop_imap {A B} (g : nat → A → B) (l : list A) j :
  drop j (imap g l) = imap (λ i, g (j + i)%nat) (drop j l).
Proof.
  apply list_eq. intros i.
  by rewrite lookup_drop, !list_lookup_imap, lookup_drop.
Qed.

End ParquetResume.

(** X20. When every row group of a channel gives exactly one record
    batch, [get_next_batch] restarted with the token it yielded with
    some batch yields exactly what the first run yielded after that
    batch, tokens included. *)
Theorem parquet_resume_from_token {E B : Type}
    (to_batches : E → list B) (st : ParquetDataset.State)
    (n mapper_id k tok : nat) (fragments : list E) (batch : B)
    (ys : list (nat * B)) :
  ParquetDataset.num_channels st = Some n →
  ParquetDataset.channel_assigments st !! mapper_id = Some fragments →
  (∀ e, e ∈ fragments → length (to_batches e) = 1%nat) →
  ParquetDataset.get_next_batch to_batches st mapper_id None = (ys, None) →
  ys !! k = Some (tok, batch) →
  ParquetDataset.get_next_batch to_batches st mapper_id (Some tok) =
    (drop (S k) ys, None).
Proof.
  unfold ParquetDataset.get_next_batch. intros -> -> Hone [= <-] Hk. simpl.
  rewrite drop_0 in Hk |- *.
  rewrite list_lookup_imap in Hk.
  destruct (concat (to_batches <$> fragments) !! k) as [b|] eqn:Hb; [|done].
  injection Hk as <- <-. f_equal.
  replace (k + 1)%nat with (S k) by lia.
  rewrite (concat_singletons_drop to_batches fragments _ Hone), drop_imap.
  apply imap_ext. intros i b' _. done.
Qed.

Lemma parquet_resume_from_token_witness :
  let st := {| ParquetDataset.num_channels := Some 2%nat;
               ParquetDataset.channel_assigments :=
                 {[ 0%nat := ["a"; "c"; "e"]; 1%nat := ["b"; "d"] ]} |} in
  ParquetDataset.get_next_batch (λ e : string, [e +:+ "!"]) st 0 (Some 1%nat) =
    (drop 1 [(1%nat, "a!"); (2%nat, "c!"); (3%nat, "e!")], None).
Proof.
  intros st.
  apply (parquet_resume_from_token (λ e : string, [e +:+ "!"]) st 2 0 0 1
           ["a"; "c"; "e"] "a!").
  - reflexivity.
  - reflexivity.
  - intros e _. reflexivity.
  - reflexivity.
  - reflexivity.
Defined.
